(** * pomeranian: forward- and reverse-mode automatic differentiation

    A shallow embedding of [dual.py], [node.py], [elem_func.py],
    [autodiff.py], [forward.py] and [reverse.py], and the properties of the
    specification proved about it.

    Numbers.  Python's [int] and [float] are modelled by the real numbers
    [R]: the specification states every rule as a formula of real
    arithmetic, and the closed forms it lists are equal to the expressions
    of the code as real numbers (not bit for bit as floats).  Division and
    the numpy functions are the total functions of the real-number library;
    at a point where Python raises [ZeroDivisionError] or numpy returns
    [inf] or [nan] the model value carries no meaning, and a theorem that
    depends on such a point excludes it by a hypothesis.

    Objects.  A [Node] is a mutable object that other nodes refer to, so a
    node is modelled by its index in an object store ([Graph]), in order of
    creation; appending an edge updates the store in place. *)

From Stdlib Require Import Reals Lra Lia List Permutation Ascii.
From stdpp Require Import gmap list strings pretty.

(** ** The Python runtime the source relies on *)

(** [x ** y] on numbers.  An integral exponent gives the integer power, a
    positive base the real power [exp (y * ln x)]; [0 ** y] for a positive
    non-integral [y] is [0].  (A negative base with a non-integral exponent
    leaves the reals in Python; the model gives [0] there.  Zero to a
    negative power raises [ZeroDivisionError] in Python; the model gives a
    power of [/ 0] there.  Where a property asserts a definite value, it
    excludes both by a hypothesis.) *)
Definition py_pow (x y : R) : R :=
  if Req_dec_T (frac_part y) 0 then powerRZ x (Int_part y)
  else if Rlt_dec 0 x then Rpower x y
  else 0%R.

(** [s[:-1]]: the string without its last character. *)
Fixpoint but_last (s : string) : string :=
  match s with
  | EmptyString => EmptyString
  | String c EmptyString => EmptyString
  | String c s' => String c (but_last s')
  end.

(** The comparisons of two numbers. *)
Definition py_eq (x y : R) : bool := if Req_dec_T x y then true else false.
Definition py_ne (x y : R) : bool := if Req_dec_T x y then false else true.
Definition py_gt (x y : R) : bool := if Rgt_dec x y then true else false.
Definition py_lt (x y : R) : bool := if Rlt_dec x y then true else false.
Definition py_le (x y : R) : bool := if Rle_dec x y then true else false.
Definition py_ge (x y : R) : bool := if Rge_dec x y then true else false.

(** numpy's elementary functions, as the functions of the real-number
    library. *)
Module np.
Definition sin : R -> R := Rtrigo_def.sin.
Definition cos : R -> R := Rtrigo_def.cos.
Definition tan : R -> R := Rtrigo1.tan.
Definition exp : R -> R := Rtrigo_def.exp.
Definition sqrt : R -> R := R_sqrt.sqrt.
Definition log : R -> R := Rpower.ln.
Definition arcsin : R -> R := Ratan.asin.
Definition arccos : R -> R := Ratan.acos.
Definition arctan : R -> R := Ratan.atan.
Definition sinh : R -> R := Rtrigo_def.sinh.
Definition cosh : R -> R := Rtrigo_def.cosh.
Definition tanh : R -> R := Rtrigo_def.tanh.
End np.

(** The exceptions of the source, by class; [OtherError] stands for any
    exception raised by the interpreter or a library ([AttributeError],
    [IndexError], [SyntaxError], [OSError], ...), named by its class. *)
Inductive exn : Type :=
| TypeError (msg : string)
| ValueError (msg : string)
| NameError (msg : string)
| Exception (msg : string)
| OtherError (class : string).

(** ** Data: [class Dual] and [class Node] *)

Module Dual.
Record t : Type := mk { real : R; dual : R }.
End Dual.

Module Node.
(** [partial_derivs] is the list of [(child, local gradient)] tuples; the
    child is a reference into the object store. *)
Record t : Type := mk { real : R; partial_derivs : list (nat * R) }.
End Node.

#[global] Instance Node_inhabited : Inhabited Node.t :=
  populate (Node.mk 0%R []).

(** A Python value as the library sees it: the kinds [isinstance] tells
    apart.  [VStr] is the kind the tests use for an unsupported operand,
    [VList] the list a function of several outputs returns, [VModule] the
    [elem_func] module object. *)
#[warnings="-register-all"]
Inductive pyval : Type :=
| VNum (r : R)
| VDual (d : Dual.t)
| VNode (n : nat)
| VStr (s : string)
| VList (l : list pyval)
| VModule.

(** The object store of [Node]s: the node with reference [i] is [g !!! i]. *)
Abbreviation Graph := (list Node.t).

(** A computation on the object store returns a value and the new store,
    raises, or does not return ([Diverge]: the recursion of the gradient
    pass did not bottom out). *)
Inductive outcome (A : Type) : Type :=
| Return (a : A) (g : Graph)
| Raise (e : exn)
| Diverge.
Arguments Return {A} a g.
Arguments Raise {A} e.
Arguments Diverge {A}.

Definition M (A : Type) : Type := Graph -> outcome A.

Definition ret {A} (a : A) : M A := fun g => Return a g.
Definition raise {A} (e : exn) : M A := fun _ => Raise e.
Definition bind {A B} (c : M A) (k : A -> M B) : M B :=
  fun g => match c g with
           | Return a g' => k a g'
           | Raise e => Raise e
           | Diverge => Diverge
           end.
(** [try: c  except: h] with a bare [except]: every exception is handled. *)
Definition try_except {A} (c : M A) (h : M A) : M A :=
  fun g => match c g with
           | Return a g' => Return a g'
           | Raise _ => h g
           | Diverge => Diverge
           end.
Definition lift {A} (r : exn + A) : M A :=
  match r with inl e => raise e | inr a => ret a end.

Notation "'let*' x ':=' c 'in' k" := (bind c (fun x => k))
  (at level 10, x name, c at level 100, k at level 200,
   format "'[v' 'let*'  x  ':='  c  'in' '/' k ']'").

(** [for x in l: body], threading the store and an accumulator. *)
Fixpoint for_each {A S} (l : list A) (body : A -> S -> M S) (s : S) : M S :=
  match l with
  | [] => ret s
  | x :: l' => let* s' := body x s in for_each l' body s'
  end.
(** [[f(x) for x in l]]. *)
Fixpoint list_comp {A B} (l : list A) (f : A -> M B) : M (list B) :=
  match l with
  | [] => ret []
  | x :: l' => let* y := f x in let* ys := list_comp l' f in ret (y :: ys)
  end.

(** ** dual.py *)

Module dual.
Import Dual.
Local Open Scope R_scope.

(** The comparisons: a number is never equal to a dual; the order looks
    at the real parts only. *)
Definition __eq__ (self : Dual.t) (other : pyval) : exn + bool :=
  match other with
  | VNum _ => inr false
  | VDual other =>
      if py_eq (real self) (real other) && py_eq (dual self) (dual other)
      then inr true
      else inr false
  | _ => inl (TypeError "Input must be of type float, int, or Dual")
  end.

Definition __ne__ (self : Dual.t) (other : pyval) : exn + bool :=
  match other with
  | VNum _ => inr true
  | VDual other =>
      if py_ne (real self) (real other) || py_ne (dual self) (dual other)
      then inr true
      else inr false
  | _ => inl (TypeError "Input must be of type float, int, or Dual")
  end.

Definition __gt__ (self : Dual.t) (other : pyval) : exn + bool :=
  match other with
  | VNum other => if py_gt (real self) other then inr true else inr false
  | VDual other =>
      if py_gt (real self) (real other) then inr true else inr false
  | _ => inl (TypeError "Input must be of type float, int, or Dual")
  end.

Definition __lt__ (self : Dual.t) (other : pyval) : exn + bool :=
  match other with
  | VNum other => if py_lt (real self) other then inr true else inr false
  | VDual other =>
      if py_lt (real self) (real other) then inr true else inr false
  | _ => inl (TypeError "Input must be of type float, int, or Dual")
  end.

Definition __le__ (self : Dual.t) (other : pyval) : exn + bool :=
  match other with
  | VNum other => if py_le (real self) other then inr true else inr false
  | VDual other =>
      if py_le (real self) (real other) then inr true else inr false
  | _ => inl (TypeError "Input must be of type float, int, or Dual")
  end.

Definition __ge__ (self : Dual.t) (other : pyval) : exn + bool :=
  match other with
  | VNum other => if py_ge (real self) other then inr true else inr false
  | VDual other =>
      if py_ge (real self) (real other) then inr true else inr false
  | _ => inl (TypeError "Input must be of type float, int, or Dual")
  end.

Definition __neg__ (self : Dual.t) : Dual.t :=
  Dual.mk (- real self) (- dual self).

Definition __add__ (self : Dual.t) (other : pyval) : exn + Dual.t :=
  match other with
  | VNum other => inr (Dual.mk (real self + other) (dual self))
  | VDual other =>
      inr (Dual.mk (real self + real other) (dual self + dual other))
  | _ => inl (TypeError "Input must be type float, int, or Dual")
  end.

Definition __radd__ (self : Dual.t) (other : pyval) : exn + Dual.t :=
  match other with
  | VNum _ | VDual _ => __add__ self other
  | _ => inl (TypeError "Input must be type float, int, or Dual")
  end.

Definition __mul__ (self : Dual.t) (other : pyval) : exn + Dual.t :=
  match other with
  | VNum other => inr (Dual.mk (real self * other) (dual self * other))
  | VDual other =>
      inr (Dual.mk (real self * real other)
             (real self * dual other + dual self * real other))
  | _ => inl (TypeError "Input must be type float, int, or Dual")
  end.

Definition __rmul__ (self : Dual.t) (other : pyval) : exn + Dual.t :=
  match other with
  | VNum _ | VDual _ => __mul__ self other
  | _ => inl (TypeError "Wrong input type for rmul")
  end.

Definition __sub__ (self : Dual.t) (other : pyval) : exn + Dual.t :=
  match other with
  | VNum other => inr (Dual.mk (real self - other) (dual self))
  | VDual other =>
      inr (Dual.mk (real self - real other) (dual self - dual other))
  | _ => inl (TypeError "Input must be type float, int, or Dual")
  end.

Definition __rsub__ (self : Dual.t) (other : pyval) : exn + Dual.t :=
  match other with
  | VNum other => inr (Dual.mk (other - real self) (- dual self))
  | _ => inl (TypeError "Input must be type float or int.")
  end.

Definition __truediv__ (self : Dual.t) (other : pyval) : exn + Dual.t :=
  match other with
  | VNum other =>
      inr (Dual.mk ((real self * other) / py_pow other 2)
             ((dual self * other) / py_pow other 2))
  | VDual other =>
      inr (Dual.mk (real self / real other)
             ((dual self * real other - real self * dual other)
              / py_pow (real other) 2))
  | _ => inl (TypeError "Input must be type float, int, or Dual")
  end.

Definition __rtruediv__ (self : Dual.t) (other : pyval) : exn + Dual.t :=
  match other with
  | VNum other =>
      inr (Dual.mk (other / real self)
             (- (other / py_pow (real self) 2) * dual self))
  | _ => inl (TypeError "Input must be type float or int")
  end.

Definition __pow__ (self : Dual.t) (other : pyval) : exn + Dual.t :=
  match other with
  | VNum other =>
      inr (Dual.mk (py_pow (real self) other)
             (py_pow (real self) (other - 1) * other * dual self))
  | VDual other =>
      let real_part := py_pow (real self) (real other) in
      let temp1 := np.log (real self) * dual other in
      let temp2 := dual self * real other / real self in
      inr (Dual.mk real_part (py_pow (real self) (real other) * (temp1 + temp2)))
  | _ => inl (TypeError "Input must be type float, int, or Dual")
  end.

Definition __rpow__ (self : Dual.t) (other : pyval) : exn + Dual.t :=
  match other with
  | VNum other =>
      inr (Dual.mk (py_pow other (real self))
             (np.log other * py_pow other (real self) * dual self))
  | _ => inl (TypeError "Input must be type float or int")
  end.

End dual.

Notation "c1 ;; c2" := (bind c1 (fun _ => c2))
  (at level 100, c2 at level 200, right associativity).

(** ** node.py *)

Module node.
Local Open Scope R_scope.

(** [Node(real)]: a new object, with an empty edge list. *)
Definition __init__ (real : R) : M nat :=
  fun g => Return (length g) (g ++ [Node.mk real []]).

(** [self.real] *)
Definition real (self : nat) : M R :=
  fun g => Return (Node.real (g !!! self)) g.

(** [self.partial_derivs] *)
Definition partial_derivs (self : nat) : M (list (nat * R)) :=
  fun g => Return (Node.partial_derivs (g !!! self)) g.

Definition add_edge (edge : nat * R) (nd : Node.t) : Node.t :=
  Node.mk (Node.real nd) (Node.partial_derivs nd ++ [edge]).

(** [self.partial_derivs.append(edge)] *)
Definition append (self : nat) (edge : nat * R) : M unit :=
  fun g => Return tt (alter (add_edge edge) self g).

Definition __neg__ (self : nat) : M nat :=
  let* r := real self in
  let* child := __init__ (-1 * r) in
  append self (child, -1) ;;
  ret child.

Definition __add__ (self : nat) (other : pyval) : M nat :=
  match other with
  | VNode other =>
      let* a := real self in
      let* b := real other in
      let* child := __init__ (a + b) in
      append self (child, 1) ;;
      append other (child, 1) ;;
      ret child
  | VNum other =>
      let* a := real self in
      let* child := __init__ (a + other) in
      append self (child, 1) ;;
      ret child
  | _ => raise (TypeError "Input must be of type float, int, or Node")
  end.

Definition __radd__ (self : nat) (other : pyval) : M nat :=
  match other with
  | VNum _ | VNode _ => __add__ self other
  | _ => raise (TypeError "Input must be type float, int, or Node")
  end.

Definition __mul__ (self : nat) (other : pyval) : M nat :=
  match other with
  | VNode other =>
      let* a := real self in
      let* b := real other in
      let* child := __init__ (a * b) in
      let* b' := real other in
      append self (child, b') ;;
      let* a' := real self in
      append other (child, a') ;;
      ret child
  | VNum other =>
      let* a := real self in
      let* child := __init__ (a * other) in
      append self (child, other) ;;
      ret child
  | _ => raise (TypeError "Input must be of type float, int, or Node")
  end.

Definition __rmul__ (self : nat) (other : pyval) : M nat :=
  match other with
  | VNum _ | VNode _ => __mul__ self other
  | _ => raise (TypeError "Wrong input type for rmul")
  end.

Definition __sub__ (self : nat) (other : pyval) : M nat :=
  match other with
  | VNode other =>
      let* a := real self in
      let* b := real other in
      let* child := __init__ (a - b) in
      append self (child, 1) ;;
      append other (child, -1) ;;
      ret child
  | VNum other =>
      let* a := real self in
      let* child := __init__ (a - other) in
      append self (child, 1) ;;
      ret child
  | _ => raise (TypeError "Input must be of type float, int, or Node")
  end.

(** [other.real] of an [int] or [float] is the number itself. *)
Definition __rsub__ (self : nat) (other : pyval) : M nat :=
  match other with
  | VNum other =>
      let* a := real self in
      let* child := __init__ (other - a) in
      append self (child, -1) ;;
      ret child
  | _ => raise (TypeError "Input must be type float or int.")
  end.

Definition __truediv__ (self : nat) (other : pyval) : M nat :=
  match other with
  | VNode other =>
      let* a := real self in
      let* b := real other in
      let* child := __init__ (a / b) in
      let* b1 := real other in
      append self (child, 1 / b1) ;;
      let* a2 := real self in
      let* b2 := real other in
      append other (child, -1 * a2 / py_pow b2 2) ;;
      ret child
  | VNum other =>
      let* a := real self in
      let* child := __init__ (a / other) in
      append self (child, 1 / other) ;;
      ret child
  | _ => raise (TypeError "Input must be type float or int.")
  end.

Definition __rtruediv__ (self : nat) (other : pyval) : M nat :=
  match other with
  | VNum other =>
      let* a := real self in
      let* child := __init__ (other / a) in
      let* a' := real self in
      append self (child, -1 * other / py_pow a' 2) ;;
      ret child
  | _ => raise (TypeError "Input must be float or int")
  end.

Definition __pow__ (self : nat) (other : pyval) : M nat :=
  match other with
  | VNode other =>
      let* a := real self in
      let* b := real other in
      let* child := __init__ (py_pow a b) in
      let* a1 := real self in
      let* b1 := real other in
      append self (child, b1 * py_pow a1 (b1 - 1)) ;;
      let* a2 := real self in
      let* b2 := real other in
      append other (child, py_pow a2 b2 * np.log a2) ;;
      ret child
  | VNum other =>
      let* a := real self in
      let* child := __init__ (py_pow a other) in
      let* a' := real self in
      append self (child, other * py_pow a' (other - 1)) ;;
      ret child
  | _ => raise (TypeError "Input must be type float or int.")
  end.

Definition __rpow__ (self : nat) (other : pyval) : M nat :=
  match other with
  | VNum other =>
      let* a := real self in
      let* child := __init__ (py_pow other a) in
      let* a' := real self in
      append self (child, py_pow other a' * np.log other) ;;
      ret child
  | _ => raise (TypeError "Input must be float or int")
  end.

End node.

(** ** elem_func.py *)

Module elem_func.
Local Open Scope R_scope.

Definition sin (z : pyval) : M pyval :=
  match z with
  | VDual z =>
      let real_part := np.sin (Dual.real z) in
      let dual_part := Dual.dual z * np.cos (Dual.real z) in
      ret (VDual (Dual.mk real_part dual_part))
  | VNode z =>
      let* r := node.real z in
      let* child := node.__init__ (np.sin r) in
      let* r' := node.real z in
      node.append z (child, np.cos r') ;;
      ret (VNode child)
  | VNum z => ret (VNum (np.sin z))
  | _ => raise (TypeError "Input must be type float, int, Dual, or Node")
  end.

Definition cos (z : pyval) : M pyval :=
  match z with
  | VDual z =>
      let real_part := np.cos (Dual.real z) in
      let dual_part := - np.sin (Dual.real z) * Dual.dual z in
      ret (VDual (Dual.mk real_part dual_part))
  | VNode z =>
      let* r := node.real z in
      let* child := node.__init__ (np.cos r) in
      let* r' := node.real z in
      node.append z (child, - np.sin r') ;;
      ret (VNode child)
  | VNum z => ret (VNum (np.cos z))
  | _ => raise (TypeError "Input must be type float, int, Dual, or Node")
  end.

Definition tan (z : pyval) : M pyval :=
  match z with
  | VDual z =>
      let real_part := np.tan (Dual.real z) in
      let dual_part := 1 / py_pow (np.cos (Dual.real z)) 2 * Dual.dual z in
      ret (VDual (Dual.mk real_part dual_part))
  | VNode z =>
      let* r := node.real z in
      let* child := node.__init__ (np.tan r) in
      let* r' := node.real z in
      node.append z (child, 1 / py_pow (np.cos r') 2) ;;
      ret (VNode child)
  | VNum z => ret (VNum (np.tan z))
  | _ => raise (TypeError "Input must be type float, int, Dual, or Node")
  end.

Definition exp (z : pyval) : M pyval :=
  match z with
  | VDual z =>
      let real_part := np.exp (Dual.real z) in
      let dual_part := np.exp (Dual.real z) * Dual.dual z in
      ret (VDual (Dual.mk real_part dual_part))
  | VNode z =>
      let* r := node.real z in
      let* child := node.__init__ (np.exp r) in
      let* r' := node.real z in
      node.append z (child, np.exp r') ;;
      ret (VNode child)
  | VNum z => ret (VNum (np.exp z))
  | _ => raise (TypeError "Input must be type float, int, Dual, or Node")
  end.

Definition sqrt (z : pyval) : M pyval :=
  match z with
  | VDual z =>
      let real_part := np.sqrt (Dual.real z) in
      let dual_part := 0.5 / np.sqrt (Dual.real z) * Dual.dual z in
      ret (VDual (Dual.mk real_part dual_part))
  | VNode z =>
      let* r := node.real z in
      let* child := node.__init__ (np.sqrt r) in
      let* r' := node.real z in
      node.append z (child, 0.5 * py_pow r' (-0.5)) ;;
      ret (VNode child)
  | VNum z => ret (VNum (np.sqrt z))
  | _ => raise (TypeError "Input must be type float, int, Dual, or Node")
  end.

Definition log (z : pyval) : M pyval :=
  match z with
  | VDual z =>
      let real_part := np.log (Dual.real z) in
      let dual_part := 1 / Dual.real z * Dual.dual z in
      ret (VDual (Dual.mk real_part dual_part))
  | VNode z =>
      let* r := node.real z in
      let* child := node.__init__ (np.log r) in
      let* r' := node.real z in
      node.append z (child, 1 / r') ;;
      ret (VNode child)
  | VNum z => ret (VNum (np.log z))
  | _ => raise (TypeError "Input must be type float, int, Dual, or Node")
  end.

Definition logb (z : pyval) (base : R) : M pyval :=
  match z with
  | VDual z =>
      let real_part := np.log (Dual.real z) / np.log base in
      let dual_part := (1 / (Dual.real z * np.log base)) * Dual.dual z in
      ret (VDual (Dual.mk real_part dual_part))
  | VNode z =>
      let* r := node.real z in
      let* child := node.__init__ (np.log r / np.log base) in
      let* r' := node.real z in
      node.append z (child, 1 / (r' * np.log base)) ;;
      ret (VNode child)
  | VNum z => ret (VNum (np.log z / np.log base))
  | _ => raise (TypeError "Input must be type float, int, Dual, or Node")
  end.

Definition arcsin (z : pyval) : M pyval :=
  match z with
  | VDual z =>
      let real_part := np.arcsin (Dual.real z) in
      let dual_part :=
        1 / np.sqrt (1 - py_pow (Dual.real z) 2) * Dual.dual z in
      ret (VDual (Dual.mk real_part dual_part))
  | VNode z =>
      let* r := node.real z in
      let* child := node.__init__ (np.arcsin r) in
      let* r' := node.real z in
      node.append z (child, 1 / np.sqrt (1 - py_pow r' 2)) ;;
      ret (VNode child)
  | VNum z => ret (VNum (np.arcsin z))
  | _ => raise (TypeError "Input must be type float, int, Dual, or Node")
  end.

Definition arccos (z : pyval) : M pyval :=
  match z with
  | VDual z =>
      let real_part := np.arccos (Dual.real z) in
      let dual_part :=
        -1 / np.sqrt (1 - py_pow (Dual.real z) 2) * Dual.dual z in
      ret (VDual (Dual.mk real_part dual_part))
  | VNode z =>
      let* r := node.real z in
      let* child := node.__init__ (np.arccos r) in
      let* r' := node.real z in
      node.append z (child, -1 / np.sqrt (1 - py_pow r' 2)) ;;
      ret (VNode child)
  | VNum z => ret (VNum (np.arccos z))
  | _ => raise (TypeError "Input must be type float, int, Dual, or Node")
  end.

Definition arctan (z : pyval) : M pyval :=
  match z with
  | VDual z =>
      let real_part := np.arctan (Dual.real z) in
      let dual_part := 1 / (1 + py_pow (Dual.real z) 2) * Dual.dual z in
      ret (VDual (Dual.mk real_part dual_part))
  | VNode z =>
      let* r := node.real z in
      let* child := node.__init__ (np.arctan r) in
      let* r' := node.real z in
      node.append z (child, 1 / (1 + py_pow r' 2)) ;;
      ret (VNode child)
  | VNum z => ret (VNum (np.arctan z))
  | _ => raise (TypeError "Input must be type float, int, Dual, or Node")
  end.

Definition sinh (z : pyval) : M pyval :=
  match z with
  | VDual z =>
      let real_part := np.sinh (Dual.real z) in
      let dual_part := np.cosh (Dual.real z) * Dual.dual z in
      ret (VDual (Dual.mk real_part dual_part))
  | VNode z =>
      let* r := node.real z in
      let* child := node.__init__ (np.sinh r) in
      let* r' := node.real z in
      node.append z (child, np.cosh r') ;;
      ret (VNode child)
  | VNum z => ret (VNum (np.sinh z))
  | _ => raise (TypeError "Input must be type float, int, Dual, or Node")
  end.

Definition cosh (z : pyval) : M pyval :=
  match z with
  | VDual z =>
      let real_part := np.cosh (Dual.real z) in
      let dual_part := np.sinh (Dual.real z) * Dual.dual z in
      ret (VDual (Dual.mk real_part dual_part))
  | VNode z =>
      let* r := node.real z in
      let* child := node.__init__ (np.cosh r) in
      let* r' := node.real z in
      node.append z (child, np.sinh r') ;;
      ret (VNode child)
  | VNum z => ret (VNum (np.cosh z))
  | _ => raise (TypeError "Input must be type float, int, Dual, or Node")
  end.

Definition tanh (z : pyval) : M pyval :=
  match z with
  | VDual z =>
      let real_part := np.tanh (Dual.real z) in
      let dual_part := Dual.dual z * (1 - py_pow (np.tanh (Dual.real z)) 2) in
      ret (VDual (Dual.mk real_part dual_part))
  | VNode z =>
      let* r := node.real z in
      let* child := node.__init__ (np.tanh r) in
      let* r' := node.real z in
      node.append z (child, 1 - py_pow (np.tanh r') 2) ;;
      ret (VNode child)
  | VNum z => ret (VNum (np.tanh z))
  | _ => raise (TypeError "Input must be type float, int, Dual, or Node")
  end.

Definition logistic (z : pyval) : M pyval :=
  let f := fun x : R => 1 / (1 + np.exp (- x)) in
  match z with
  | VDual z =>
      let real_part := f (Dual.real z) in
      let dual_part :=
        f (Dual.real z) * (1 - f (Dual.real z)) * Dual.dual z in
      ret (VDual (Dual.mk real_part dual_part))
  | VNode z =>
      let* r := node.real z in
      let* child := node.__init__ (f r) in
      let* r' := node.real z in
      node.append z (child, f r' * (1 - f r')) ;;
      ret (VNode child)
  | VNum z => ret (VNum (f z))
  | _ => raise (TypeError "Input must be type float, int, Dual, or Node")
  end.

End elem_func.

(** ** Attribute access, iteration and numpy arrays *)

#[global] Instance R_inhabited : Inhabited R := populate 0%R.
#[global] Instance Dual_inhabited : Inhabited Dual.t :=
  populate (Dual.mk 0%R 0%R).

(** The arrays of numbers the engines return. *)
Inductive ndarray : Type :=
| Scalar (r : R)
| Vector (v : list R)
| Matrix (rows : list (list R)).

(** The input of an engine: a number, or a list of numbers (Python's
    [int] or [float]). *)
Inductive pyinputs : Type :=
| InNum (r : R)
| InSeq (l : list R).

(** [if isinstance(inputs, (int, float)): inputs = np.asarray([inputs])]

    The elements of a list stay the Python numbers they are.  A single
    number is put into a numpy array: a [float] stays the same number, an
    [int] becomes a [numpy.int64], whose arithmetic wraps around beyond 64
    bits and refuses a negative integer power, unlike the number of the
    model.  The properties of the engines that depend on the arithmetic
    of the inputs are therefore stated for inputs given as a list. *)
Definition as_list (inputs : pyinputs) : list R :=
  match inputs with
  | InNum r => [r]
  | InSeq l => l
  end.

(** [elem.real]: numbers, duals and nodes have the attribute. *)
Definition getattr_real (elem : pyval) : M R :=
  match elem with
  | VNum r => ret r
  | VDual d => ret (Dual.real d)
  | VNode n => node.real n
  | _ => raise (OtherError "AttributeError")
  end.

(** [elem.dual]: only a [Dual] has the attribute. *)
Definition getattr_dual (elem : pyval) : M R :=
  match elem with
  | VDual d => ret (Dual.dual d)
  | _ => raise (OtherError "AttributeError")
  end.

(** [for elem in result]: the members of a list (or array), the characters
    of a string; any other kind is not iterable. *)
Definition iter (result : pyval) : M (list pyval) :=
  match result with
  | VList l => ret l
  | VStr s => ret ((fun c => VStr (String c EmptyString))
             <$> String.list_ascii_of_string s)
  | _ => raise (TypeError "object is not iterable")
  end.

(** [len(result)] *)
Definition len (result : pyval) : M nat :=
  match result with
  | VList l => ret (length l)
  | VStr s => ret (String.length s)
  | _ => raise (TypeError "object has no len()")
  end.

(** [result[0]] *)
Definition getitem0 (result : pyval) : M pyval :=
  match result with
  | VList (x :: _) => ret x
  | VStr (String c _) => ret (VStr (String c EmptyString))
  | VList [] | VStr EmptyString => raise (OtherError "IndexError")
  | _ => raise (TypeError "object is not subscriptable")
  end.

Definition is_list (v : pyval) : bool :=
  match v with VList _ => true | _ => false end.

Definition list_of_length (n : nat) (v : pyval) : bool :=
  match v with VList l => bool_decide (length l = n) | _ => false end.

(** [np.asarray(jacob)] on a list of results: a list of lists of one
    length becomes a two-dimensional array, a list without lists a
    one-dimensional one; numpy refuses a ragged or mixed list. *)
Definition np_asarray (jacob : list pyval) : M pyval :=
  match jacob with
  | VList row :: _ =>
      if forallb (list_of_length (length row)) jacob then ret (VList jacob)
      else raise (ValueError "inhomogeneous shape")
  | _ =>
      if existsb is_list jacob then raise (ValueError "inhomogeneous shape")
      else ret (VList jacob)
  end.

(** [a.T] of a two-dimensional array given by its rows. *)
Definition transpose (rows : list (list R)) : list (list R) :=
  (fun j => (fun row : list R => row !!! j) <$> rows)
    <$> seq 0 (length (rows !!! 0%nat)).

(** ** autodiff.py *)

Module autodiff.

(** A Python function as the engines use it: the call [funcs(args)], its
    [__code__.co_argcount] and [__code__.co_varnames], and what
    [inspect.getsource] returns for it (an [OSError] when the source
    cannot be found). *)
Record callable : Type := {
  call : list pyval -> M pyval;
  co_argcount : nat;
  co_varnames : list string;
  getsource : exn + string
}.

Record AutoDiff : Type := { funcs : callable; n_inputs : nat }.

Definition __init__ (funcs : callable) : AutoDiff :=
  {| funcs := funcs; n_inputs := co_argcount funcs |}.

(** The exception of both engines for a wrong number of inputs. *)
Definition mismatch (len n_inputs : nat) : exn :=
  Exception ("Number of inputs (=" +:+ pretty len +:+ ") is not "
             +:+ "consistent with number of function "
             +:+ "arguments (=" +:+ pretty n_inputs +:+ ").").

(** [str(self)]; [class_name] is [type(self).__name__], the name of the
    class of the object: [AutoDiff], [Forward] or [Reverse]. *)
Definition __str__ (class_name : string) (self : AutoDiff) : string :=
  "This is " +:+ class_name +:+ " class with function(s) of "
  +:+ pretty (n_inputs self) +:+ " inputs.".

End autodiff.

(** ** forward.py *)

Module forward.
Import autodiff.

(** [Dual(real)] and [Dual(real, dual)]: [dual] defaults to [1]. *)
Definition Dual__init__ (real : R) (dual : option R) : Dual.t :=
  Dual.mk real (default 1%R dual).

(** One turn of the loop over [idx]: condition on one variable, call the
    function, change back. *)
Definition sweep (self : AutoDiff) (idx : nat)
    (state : list pyval * list Dual.t) : M (list pyval * list Dual.t) :=
  let '(jacob, duals) := state in
  let duals :=
    <[idx := Dual__init__ (Dual.real (duals !!! idx)) (Some 1%R)]> duals in
  let* r := call (funcs self) (VDual <$> duals) in
  let jacob := jacob ++ [r] in
  let duals :=
    <[idx := Dual__init__ (Dual.real (duals !!! idx)) (Some 0%R)]> duals in
  ret (jacob, duals).

Definition _dual_forward (self : AutoDiff) (inputs : pyinputs) : M pyval :=
  let inputs := as_list inputs in
  if decide (length inputs ≠ n_inputs self) then
    raise (mismatch (length inputs) (n_inputs self))
  else if decide (length inputs = 1%nat) then
    let duals := (fun input => Dual__init__ input None) <$> inputs in
    call (funcs self) (VDual <$> duals)
  else
    let duals := (fun input => Dual__init__ input (Some 0%R)) <$> inputs in
    let* st := for_each (seq 0 (length inputs)) (sweep self) ([], duals) in
    np_asarray (fst st).

(** [get_value] after the call of [_dual_forward]: the real parts of the
    result, conditioned on the number of inputs and of functions. *)
Definition real_parts (inputs : list R) (result : pyval) : M ndarray :=
  if decide (length inputs = 1%nat) then
    match result with
    | VDual result => ret (Scalar (Dual.real result))
    | _ =>
        let* elems := iter result in
        let* v := list_comp elems getattr_real in
        ret (Vector v)
    end
  else
    let* first := getitem0 result in
    match first with
    | VDual _ =>
        let* elems := iter result in
        let* v := list_comp elems getattr_real in
        match v with
        | r :: _ => ret (Scalar r)
        | [] => raise (OtherError "IndexError")
        end
    | _ =>
        let* rows := iter result in
        let* m := list_comp rows (fun sets =>
                    let* elems := iter sets in list_comp elems getattr_real) in
        match m with
        | row :: _ => ret (Vector row)
        | [] => raise (OtherError "IndexError")
        end
    end.

Definition get_value (self : AutoDiff) (inputs : pyinputs) : M ndarray :=
  (* calculate with forward mode *)
  let* result := _dual_forward self inputs in
  (* output result conditioned on n_input, n_func *)
  real_parts (as_list inputs) result.

(** [forward] after the call of [_dual_forward]: the dual parts. *)
Definition dual_parts (inputs : list R) (result : pyval) : M ndarray :=
  if decide (length inputs = 1%nat) then
    match result with
    | VDual result => ret (Scalar (Dual.dual result))
    | _ =>
        let* elems := iter result in
        let* v := list_comp elems getattr_dual in
        ret (Vector v)
    end
  else
    let* first := getitem0 result in
    match first with
    | VDual _ =>
        let* elems := iter result in
        let* v := list_comp elems getattr_dual in
        ret (Vector v)
    | _ =>
        let* rows := iter result in
        let* m := list_comp rows (fun sets =>
                    let* elems := iter sets in list_comp elems getattr_dual) in
        ret (Matrix (transpose m))
    end.

Definition forward (self : AutoDiff) (inputs : pyinputs) : M ndarray :=
  (* calculate with forward mode *)
  let* result := _dual_forward self inputs in
  (* output result conditioned on n_input, n_func *)
  dual_parts (as_list inputs) result.

Definition __str__ (self : AutoDiff) : string :=
  let msg := ", computing Automatic Differentiation in forward mode." in
  but_last (autodiff.__str__ "Forward" self) +:+ msg.

End forward.

(** ** reverse.py *)

Module reverse.
Import autodiff.

(** The builtin [eval], called in the frame of [reverse] on the text of an
    expression, with the bindings that [vars()[name] = value] added
    (latest first).  It is a parameter of the engine. *)
Definition py_eval : Type := string -> list (string * pyval) -> M pyval.

(** [str.strip()] *)
Definition is_space (c : Ascii.ascii) : bool :=
  let n := Ascii.nat_of_ascii c in
  ((9 <=? n)%nat && (n <=? 13)%nat) || ((28 <=? n)%nat && (n <=? 32)%nat).

Fixpoint lstrip (l : list Ascii.ascii) : list Ascii.ascii :=
  match l with
  | c :: l' => if is_space c then lstrip l' else l
  | [] => []
  end.

Definition strip (s : string) : string :=
  String.string_of_list_ascii
    (rev (lstrip (rev (lstrip (String.list_ascii_of_string s))))).

(** [str.split(sep)] for a separator of one character. *)
Fixpoint split (sep : Ascii.ascii) (s : string) : list string :=
  match s with
  | EmptyString => [EmptyString]
  | String c s' =>
      if Ascii.eqb c sep then EmptyString :: split sep s'
      else match split sep s' with
           | h :: t => String c h :: t
           | [] => [String c EmptyString]
           end
  end.

(** [re.sub] of every run of white space by one space (the pattern of
    the source lists tab, newline and carriage return besides the class of
    white space, which holds them). *)
Fixpoint sub_space (in_run : bool) (l : list Ascii.ascii) : list Ascii.ascii :=
  match l with
  | [] => []
  | c :: l' =>
      if is_space c then
        if in_run then sub_space true l' else " "%char :: sub_space true l'
      else c :: sub_space false l'
  end.

Definition re_sub_space (s : string) : string :=
  String.string_of_list_ascii (sub_space false (String.list_ascii_of_string s)).

(** [l] without the prefix [p], when it starts with it. *)
Fixpoint strip_prefix (p l : list Ascii.ascii) : option (list Ascii.ascii) :=
  match p, l with
  | [], _ => Some l
  | a :: p', b :: l' => if Ascii.eqb a b then strip_prefix p' l' else None
  | _ :: _, [] => None
  end.

(** The text before the last occurrence of [c]. *)
Fixpoint before_last (c : Ascii.ascii) (l : list Ascii.ascii)
    : option (list Ascii.ascii) :=
  match l with
  | [] => None
  | x :: l' =>
      match before_last c l' with
      | Some r => Some (x :: r)
      | None => if Ascii.eqb x c then Some [] else None
      end
  end.

(** A match, at the head of [l], of the pattern of the source for the
    returned list: a colon or the word [return], white space, an opening
    bracket, any text (as much as possible: the text has no newline left),
    a closing bracket.  The two groups are the first alternative and the
    text between the brackets. *)
Definition match_list (l : list Ascii.ascii) : option (string * string) :=
  let head :=
    match strip_prefix (String.list_ascii_of_string ":") l with
    | Some r => Some (":", r)
    | None =>
        match strip_prefix (String.list_ascii_of_string "return") l with
        | Some r => Some ("return", r)
        | None => None
        end
    end in
  match head with
  | Some (group1, r) =>
      match lstrip r with
      | c :: body =>
          if Ascii.eqb c "["%char then
            match before_last "]"%char body with
            | Some inner => Some (group1, String.string_of_list_ascii inner)
            | None => None
            end
          else None
      | [] => None
      end
  | None => None
  end.

(** [re.findall] of that pattern: the leftmost match runs to the last
    closing bracket of the text, so there is at most one. *)
Fixpoint findall_list (l : list Ascii.ascii) : list (string * string) :=
  match match_list l with
  | Some m => [m]
  | None =>
      match l with
      | [] => []
      | _ :: l' => findall_list l'
      end
  end.

Definition re_findall_list (s : string) : list (string * string) :=
  findall_list (String.list_ascii_of_string s).

(** The names of the elementary functions, in the order of the pattern. *)
Definition elem_names : list string :=
  ["sin"; "cos"; "tan"; "exp"; "sqrt"; "log"; "logb"; "arcsin"; "arccos";
   "arctan"; "sinh"; "cosh"; "tanh"; "logistic"].

Definition is_name_char (c : Ascii.ascii) : bool :=
  let n := Ascii.nat_of_ascii c in
  ((65 <=? n)%nat && (n <=? 90)%nat) || ((97 <=? n)%nat && (n <=? 122)%nat)
  || (n =? 95)%nat.

(** The longest run of letters and underscores at the head of [l], and
    the rest. *)
Fixpoint span_name (l : list Ascii.ascii)
    : list Ascii.ascii * list Ascii.ascii :=
  match l with
  | c :: l' =>
      if is_name_char c then
        let '(run, rest) := span_name l' in (c :: run, rest)
      else ([], l)
  | [] => ([], [])
  end.

(** A match, at the head of [l], of the pattern for a package name, a dot
    and the name of an elementary function: the two groups and the length
    of the match. *)
Definition match_pkg (l : list Ascii.ascii) : option (string * string * nat) :=
  let '(run, rest) := span_name l in
  match run, rest with
  | _ :: _, c :: rest' =>
      if Ascii.eqb c "."%char then
        match
          filter (fun name =>
                    is_Some (strip_prefix (String.list_ascii_of_string name) rest'))
                 elem_names
        with
        | name :: _ =>
            Some (String.string_of_list_ascii run, name,
                  (length run + 1 + String.length name)%nat)
        | [] => None
        end
      else None
  | _, _ => None
  end.

(** [re.findall] of that pattern: the matches from left to right, the
    search going on behind each match ([skip] characters are still inside
    the last match). *)
Fixpoint findall_pkg (skip : nat) (l : list Ascii.ascii)
    : list (string * string) :=
  match l with
  | [] => []
  | _ :: l' =>
      match skip with
      | S skip' => findall_pkg skip' l'
      | O =>
          match match_pkg l with
          | Some (group1, group2, n) =>
              (group1, group2) :: findall_pkg (n - 1) l'
          | None => findall_pkg 0 l'
          end
      end
  end.

Definition re_findall_pkg (s : string) : list (string * string) :=
  findall_pkg 0 (String.list_ascii_of_string s).

(** [for child, partial_deriv in edges: body], where the body may not
    return. *)
Fixpoint for_edges {S} (body : nat * R -> S -> option S)
    (edges : list (nat * R)) (s : S) : option S :=
  match edges with
  | [] => Some s
  | e :: edges' =>
      match body e s with
      | Some s' => for_edges body edges' s'
      | None => None
      end
  end.

(** The inner function [_calc_grad(root, st)] of [_gradiant], which
    updates the dictionary [gradiant] (a [defaultdict] with default [0]).
    [depth] bounds the depth of the recursion; [None] when it is
    exceeded. *)
Fixpoint _calc_grad (depth : nat) (g : Graph) (root : nat) (st : R)
    (gradiant : gmap nat R) : option (gmap nat R) :=
  match depth with
  | O => None
  | S depth =>
      for_edges
        (fun '(child, partial_deriv) gradiant =>
           (* calculate the chained derivatives *)
           let chain_grad := (st * partial_deriv)%R in
           (* add to child's derivatives *)
           let gradiant :=
             <[child := (default 0 (gradiant !! child) + chain_grad)%R]>
               gradiant in
           (* recurse through all children *)
           _calc_grad depth g child chain_grad gradiant)
        (Node.partial_derivs (g !!! root)) gradiant
  end.

(** [_gradiant(root)].  A pass over a store without cycles never nests
    deeper than the number of nodes plus one, so this bound is given to
    the recursion; on a store with a cycle below [root] Python does not
    return. *)
Definition _gradiant (root : nat) : M (gmap nat R) :=
  fun g =>
    match _calc_grad (S (length g)) g root 1%R ∅ with
    | Some gradiant => Return gradiant g
    | None => Diverge
    end.

(** [gradiant[key]]: the entry of a node, [0] when there is none; a key
    has to be hashable, which a [Dual] (it defines [__eq__] only) and a
    list are not. *)
Definition getitem (gradiant : gmap nat R) (key : pyval) : M R :=
  match key with
  | VNode n => ret (default 0%R (gradiant !! n))
  | VDual _ | VList _ => raise (TypeError "unhashable type")
  | _ => ret 0%R
  end.

(** [copy.deepcopy(nodes)]: new objects for the nodes and for everything
    they reach, with the same values and the same shape of edges.  The
    model copies the whole store behind the existing one (a copy that no
    reference reaches cannot be observed); the copy of node [n] is node
    [n + length g]. *)
Definition shift (k : nat) (nd : Node.t) : Node.t :=
  Node.mk (Node.real nd)
    ((fun e : nat * R => ((fst e + k)%nat, snd e)) <$> Node.partial_derivs nd).

Definition deepcopy (nodes : list nat) : M (list nat) :=
  fun g =>
    Return ((fun n => (n + length g)%nat) <$> nodes)
           (g ++ (shift (length g) <$> g)).

Definition err_msg : string :=
"Check the following criteria: 
            1) Please use one function that returns a list of functions to define multiple functions. 
            2) Please define the function directly in the returned list, instead of using variable names assigning each function.
            3) Please keep the input function as neat as possible without extra comments and docstrings.".

(** [np.asarray(jacob)] for a list of rows of numbers. *)
Definition asarray_rows (jacob : list (list R)) : ndarray :=
  match jacob with
  | [] => Vector []
  | _ => Matrix jacob
  end.

Definition get_value (self : AutoDiff) (inputs : pyinputs) : M ndarray :=
  let inputs := as_list inputs in
  if decide (length inputs ≠ n_inputs self) then
    raise (mismatch (length inputs) (n_inputs self))
  else
    let* nodes := list_comp inputs node.__init__ in
    let* result := call (funcs self) (VNode <$> nodes) in
    match result with
    | VNode result =>
        let* r := node.real result in
        ret (Scalar r)
    | _ =>
        let* elems := iter result in
        let* v := list_comp elems getattr_real in
        ret (Vector v)
    end.

(** The package names found before the elementary functions in the
    pieces of the source. *)
Definition packages (funcs_lst : list string) : gset string :=
  foldl (fun pkg_names func_str =>
           (* find the package name before elementary functions *)
           let pkg_name := re_findall_pkg func_str in
           (* if found something *)
           if decide (length pkg_name ≠ 0%nat)
           then pkg_names ∪ list_to_set (fst <$> pkg_name)
           else pkg_names)
        ∅ funcs_lst.

Definition exclude_pkg : gset string := list_to_set ["math"; "numpy"; "np"].

(** [for var, val in zip(var_names, input_node): vars()[var] = val] *)
Definition bind_vars (env : list (string * pyval)) (var_names : list string)
    (input_node : list nat) : list (string * pyval) :=
  foldl (fun env '(var, val) => (var, VNode val) :: env)
        env (zip var_names input_node).

(** One turn of the loop over the pieces of the source: bind the
    variables to a set of nodes, evaluate the piece, append the row of the
    jacobian. *)
Definition output_row (eval : py_eval) (var_names : list string)
    (turn : list nat * string)
    (state : list (list R) * list (string * pyval))
    : M (list (list R) * list (string * pyval)) :=
  let '(input_node, function) := turn in
  let '(jacob, env) := state in
  (* execute/assign variable *)
  let env := bind_vars env var_names input_node in
  (* evaluate function (in string) *)
  let* res := eval (strip function) env in
  (* calculate jacobian *)
  let* row :=
    list_comp input_node
      (fun elem => let* gradiant := _gradiant elem in getitem gradiant res) in
  ret (jacob ++ [row], env).

(** The body of the [try] statement of [reverse]. *)
Definition reverse_outputs (eval : py_eval) (self : AutoDiff)
    (inputs : list R) (nodes : list nat) (result : pyval) : M ndarray :=
  (* re-initialize inputs *)
  let* n_func := len result in
  let* input_nodes := list_comp (seq 0 n_func) (fun _ => deepcopy nodes) in
  (* re-initialize functions *)
  let var_names := co_varnames (funcs self) in
  let* funcs_str := lift (getsource (funcs self)) in
  let funcs_str := strip funcs_str in
  let funcs_str := re_sub_space funcs_str in
  let* funcs_lst :=
    match last (re_findall_list funcs_str) with
    | Some m => ret (split ","%char (snd m))
    | None => raise (OtherError "IndexError")
    end in
  (* extract package name, exclude other python packages *)
  let pkg := packages funcs_lst ∖ exclude_pkg in
  (* assign elementary_function to initialized package name *)
  let* env :=
    if decide (size pkg = 0%nat) then ret []
    else if decide (size pkg = 1%nat) then
      ret ((fun name => (name, VModule)) <$> elements pkg)
    else raise (NameError "Please only use our elementary function.") in
  (* calculate jacobian for each function by each set of node(s) *)
  let* st :=
    for_each (zip input_nodes funcs_lst) (output_row eval var_names)
             ([], env) in
  let jacob := fst st in
  if decide (length inputs = 1%nat) then ret (Vector (concat jacob))
  else ret (asarray_rows jacob).

Definition reverse (eval : py_eval) (self : AutoDiff) (inputs : pyinputs)
    : M ndarray :=
  let inputs := as_list inputs in
  if decide (length inputs ≠ n_inputs self) then
    raise (mismatch (length inputs) (n_inputs self))
  else
    let* nodes := list_comp inputs node.__init__ in
    let* result := call (funcs self) (VNode <$> nodes) in
    match result with
    | VNode result =>
        if decide (length inputs = 1%nat) then
          let* gradiant := _gradiant (nodes !!! 0%nat) in
          let* d := getitem gradiant (VNode result) in
          ret (Scalar d)
        else
          let* v :=
            list_comp nodes
              (fun elem =>
                 let* gradiant := _gradiant elem in
                 getitem gradiant (VNode result)) in
          ret (Vector v)
    | _ =>
        try_except (reverse_outputs eval self inputs nodes result)
                   (raise (ValueError err_msg))
    end.

Definition __str__ (self : AutoDiff) : string :=
  let msg := ", computing Automatic Differentiation in reverse mode." in
  but_last (autodiff.__str__ "Reverse" self) +:+ msg.

End reverse.

(** ** Python's binary operators

    [a + b] calls [a.__add__(b)], and [b.__radd__(a)] when [a] is a number
    and [b] is not.  Only the operands of the library are covered: numbers,
    duals and nodes (the methods themselves reject every other kind).  For
    a pair without a dual or a node in first place, such as two texts or
    two lists, Python has operators of its own, which are not modelled:
    [unsupported] stands in for them; the properties are about pairs with
    a dual or a node. *)

Module operator.

Definition unsupported : exn := TypeError "unsupported operand type(s)".

Definition of_dual (r : exn + Dual.t) : M pyval :=
  match r with inl e => raise e | inr d => ret (VDual d) end.

Definition of_node (c : M nat) : M pyval :=
  let* child := c in ret (VNode child).

Definition neg (a : pyval) : M pyval :=
  match a with
  | VNum x => ret (VNum (- x))
  | VDual d => ret (VDual (dual.__neg__ d))
  | VNode n => of_node (node.__neg__ n)
  | _ => raise unsupported
  end.

Definition binary (num : R -> R -> R)
    (dual_op dual_rop : Dual.t -> pyval -> exn + Dual.t)
    (node_op node_rop : nat -> pyval -> M nat) (a b : pyval) : M pyval :=
  match a with
  | VNum x =>
      match b with
      | VNum y => ret (VNum (num x y))
      | VDual d => of_dual (dual_rop d a)
      | VNode n => of_node (node_rop n a)
      | _ => raise unsupported
      end
  | VDual d => of_dual (dual_op d b)
  | VNode n => of_node (node_op n b)
  | _ => raise unsupported
  end.

Definition add : pyval -> pyval -> M pyval :=
  binary Rplus dual.__add__ dual.__radd__ node.__add__ node.__radd__.
Definition sub : pyval -> pyval -> M pyval :=
  binary Rminus dual.__sub__ dual.__rsub__ node.__sub__ node.__rsub__.
Definition mul : pyval -> pyval -> M pyval :=
  binary Rmult dual.__mul__ dual.__rmul__ node.__mul__ node.__rmul__.
Definition truediv : pyval -> pyval -> M pyval :=
  binary Rdiv dual.__truediv__ dual.__rtruediv__
         node.__truediv__ node.__rtruediv__.
Definition pow : pyval -> pyval -> M pyval :=
  binary py_pow dual.__pow__ dual.__rpow__ node.__pow__ node.__rpow__.

End operator.

(** ** The elementary functions as one family *)

Inductive elem_fn : Type :=
| Sin | Cos | Tan | Exp | Sqrt | Log | Logb (base : R)
| Arcsin | Arccos | Arctan | Sinh | Cosh | Tanh | Logistic.

Definition apply_elem (f : elem_fn) (z : pyval) : M pyval :=
  match f with
  | Sin => elem_func.sin z
  | Cos => elem_func.cos z
  | Tan => elem_func.tan z
  | Exp => elem_func.exp z
  | Sqrt => elem_func.sqrt z
  | Log => elem_func.log z
  | Logb base => elem_func.logb z base
  | Arcsin => elem_func.arcsin z
  | Arccos => elem_func.arccos z
  | Arctan => elem_func.arctan z
  | Sinh => elem_func.sinh z
  | Cosh => elem_func.cosh z
  | Tanh => elem_func.tanh z
  | Logistic => elem_func.logistic z
  end.

(** The Python function [lambda x: f(x)] for a library function [f]. *)
Definition unary (f : elem_fn) (source : exn + string) : autodiff.callable :=
  {| autodiff.call := fun args =>
       match args with
       | [x] => apply_elem f x
       | _ => raise (TypeError "wrong number of positional arguments")
       end;
     autodiff.co_argcount := 1;
     autodiff.co_varnames := ["x"];
     autodiff.getsource := source |}.

(** The operations on a node: the operators of [node.py] and the functions
    of [elem_func.py]. *)
Inductive node_op : Type :=
| Neg
| Add (other : pyval) | Radd (other : pyval)
| Mul (other : pyval) | Rmul (other : pyval)
| Sub (other : pyval) | Rsub (other : pyval)
| Truediv (other : pyval) | Rtruediv (other : pyval)
| Pow (other : pyval) | Rpow (other : pyval)
| Elem (f : elem_fn).

Definition apply_op (op : node_op) (self : nat) : M pyval :=
  match op with
  | Neg => operator.of_node (node.__neg__ self)
  | Add other => operator.of_node (node.__add__ self other)
  | Radd other => operator.of_node (node.__radd__ self other)
  | Mul other => operator.of_node (node.__mul__ self other)
  | Rmul other => operator.of_node (node.__rmul__ self other)
  | Sub other => operator.of_node (node.__sub__ self other)
  | Rsub other => operator.of_node (node.__rsub__ self other)
  | Truediv other => operator.of_node (node.__truediv__ self other)
  | Rtruediv other => operator.of_node (node.__rtruediv__ self other)
  | Pow other => operator.of_node (node.__pow__ self other)
  | Rpow other => operator.of_node (node.__rpow__ self other)
  | Elem f => apply_elem f (VNode self)
  end.

(** The second operand of an operation, when it is a node. *)
Definition operand (op : node_op) : option nat :=
  match op with
  | Add (VNode o) | Radd (VNode o) | Mul (VNode o) | Rmul (VNode o)
  | Sub (VNode o) | Truediv (VNode o) | Pow (VNode o) => Some o
  | _ => None
  end.

(** ** The closed forms of the specification

    These two tables follow the words of the specification (section 4.1),
    not the code: the value of each function and its derivative. *)

Module closed_form.
Local Open Scope R_scope.

Definition sigma (x : R) : R := 1 / (1 + exp (- x)).
Definition sec (x : R) : R := 1 / cos x.

Definition value (f : elem_fn) (x : R) : R :=
  match f with
  | Sin => sin x
  | Cos => cos x
  | Tan => tan x
  | Exp => exp x
  | Sqrt => sqrt x
  | Log => ln x
  | Logb base => ln x / ln base
  | Arcsin => asin x
  | Arccos => acos x
  | Arctan => atan x
  | Sinh => sinh x
  | Cosh => cosh x
  | Tanh => tanh x
  | Logistic => sigma x
  end.

Definition derivative (f : elem_fn) (x : R) : R :=
  match f with
  | Sin => cos x
  | Cos => - sin x
  | Tan => (sec x)²
  | Exp => exp x
  | Sqrt => 1 / (2 * sqrt x)
  | Log => 1 / x
  | Logb base => 1 / (x * ln base)
  | Arcsin => 1 / sqrt (1 - x²)
  | Arccos => - (1 / sqrt (1 - x²))
  | Arctan => 1 / (1 + x²)
  | Sinh => cosh x
  | Cosh => sinh x
  | Tanh => 1 - (tanh x)²
  | Logistic => sigma x * (1 - sigma x)
  end.

(** The arguments at which the function and its derivative are defined
    (the interior of the domain). *)
Definition defined_at (f : elem_fn) (x : R) : Prop :=
  match f with
  | Tan => cos x <> 0
  | Sqrt | Log => 0 < x
  | Logb base => 0 < x /\ 0 < base /\ base <> 1
  | Arcsin | Arccos => -1 < x < 1
  | _ => True
  end.

End closed_form.

(** ** Paths of the computation graph *)

(** The edges out of node [i]. *)
Definition edges (g : Graph) (i : nat) : list (nat * R) :=
  Node.partial_derivs (g !!! i).

(** A path is given by its start and the positions, in the successive edge
    lists, of the edges it takes (two edges to one child are two paths).
    [follow] gives the node where it ends and the product of the local
    partials along it. *)
Fixpoint follow (g : Graph) (i : nat) (ks : list nat) : option (nat * R) :=
  match ks with
  | [] => Some (i, 1%R)
  | k :: ks' =>
      match edges g i !! k with
      | Some (child, partial) =>
          match follow g child ks' with
          | Some (n, w) => Some (n, (partial * w)%R)
          | None => None
          end
      | None => None
      end
  end.

(** [ks] is a path of at least one edge from [root] to [n]. *)
Definition is_path (g : Graph) (root : nat) (ks : list nat) (n : nat) : Prop :=
  ks ≠ [] ∧ ∃ w, follow g root ks = Some (n, w).

Definition path_product (g : Graph) (root : nat) (ks : list nat) : R :=
  match follow g root ks with
  | Some (_, w) => w
  | None => 0%R
  end.

Definition sum_R (l : list R) : R := foldr Rplus 0%R l.

(** No path of at least one edge leads from a node back to it. *)
Definition acyclic (g : Graph) : Prop :=
  ∀ i ks, ¬ is_path g i ks i.

(** The invariant of the graphs that the operations build: every edge
    points to a node of the store created after its source. *)
Definition forward_edges (g : Graph) : Prop :=
  ∀ i child partial,
    (child, partial) ∈ edges g i → (i < child < length g)%nat.

(** ** Growing the store

    What an operation does to the store, as one expression: a new node at
    the end, and edges to it appended to nodes that exist. *)

(** A new node, one edge to it from [z]: what every operation with one
    node operand does to the store. *)
Definition one_edge (g : Graph) (z : nat) (value partial : R) : Graph :=
  alter (node.add_edge (length g, partial)) z g ++ [Node.mk value []].

(** Appending to each node [i] of [es] an edge to [child]. *)
Definition add_edges (child : nat) (es : list (nat * R)) (g : Graph) : Graph :=
  foldl (fun acc e => alter (node.add_edge (child, snd e)) (fst e) acc) g es.

Definition grow (g : Graph) (value : R) (es : list (nat * R)) : Graph :=
  add_edges (length g) es g ++ [Node.mk value []].

(** ** The paths that a gradient pass walks *)

(** [gradiant[n] += x] on the dictionary with default [0]. *)
Definition bump (m : gmap nat R) (n : nat) (x : R) : gmap nat R :=
  <[n := (default 0 (m !! n) + x)%R]> m.

(** The contribution of the path [ks] from [i], walked with weight [st]. *)
Definition contribute (g : Graph) (i : nat) (st : R) (m : gmap nat R)
    (ks : list nat) : gmap nat R :=
  match follow g i ks with
  | Some (n, w) => bump m n (st * w)%R
  | None => m
  end.

(** All paths of at least one edge from a node, in the order in which the
    pass walks them: for the edge at position [k], the path of that edge
    alone, then the paths that continue from its child. *)
Fixpoint walk_edges (rec : nat → option (list (list nat))) (k : nat)
    (es : list (nat * R)) : option (list (list nat)) :=
  match es with
  | [] => Some []
  | (child, _) :: es' =>
      match rec child, walk_edges rec (S k) es' with
      | Some ps, Some qs => Some (([k] :: (cons k <$> ps)) ++ qs)
      | _, _ => None
      end
  end.

Fixpoint walk (depth : nat) (g : Graph) (i : nat) : option (list (list nat)) :=
  match depth with
  | O => None
  | S depth => walk_edges (walk depth g) 0 (edges g i)
  end.

(** [paths] lists every path from [root] to [n] exactly once. *)
Definition enumerates (g : Graph) (root n : nat) (paths : list (list nat))
    : Prop :=
  NoDup paths ∧ ∀ ks, ks ∈ paths ↔ is_path g root ks n.

(** ** Exceptions that a computation does not raise *)

Definition never_raises {A} (bad : exn) (c : M A) : Prop :=
  ∀ g, c g ≠ Raise bad.

(** The duals of sweep [idx] of the forward engine: derivative [1] for
    input [idx], [0] for the others. *)
Definition seeds (inputs : list R) (idx : nat) : list Dual.t :=
  imap (fun j input => Dual.mk input (if decide (j = idx) then 1%R else 0%R))
       inputs.

(** The calls of the function that [_dual_forward] makes, with the seeds
    written out: one call for one input, one call per input otherwise. *)
Definition seeded_calls (self : autodiff.AutoDiff) (inputs : list R)
    : M pyval :=
  if decide (length inputs = 1) then
    autodiff.call (autodiff.funcs self) (VDual <$> seeds inputs 0)
  else
    let* jacob :=
      list_comp (seq 0 (length inputs))
        (fun idx =>
           autodiff.call (autodiff.funcs self) (VDual <$> seeds inputs idx)) in
    np_asarray jacob.

(** The Python function [lambda x: x]. *)
Definition identity (source : exn + string) : autodiff.callable :=
  {| autodiff.call := fun args =>
       match args with
       | [x] => ret x
       | _ => raise (TypeError "wrong number of positional arguments")
       end;
     autodiff.co_argcount := 1;
     autodiff.co_varnames := ["x"];
     autodiff.getsource := source |}.

(** The duals of [_dual_forward] between two sweeps: every derivative
    is [0]. *)
Definition zeros (inputs : list R) : list Dual.t :=
  (fun input => forward.Dual__init__ input (Some 0%R)) <$> inputs.

(** ** Shapes of the results *)





(** A list of [M] duals, as a Python list. *)
Definition dual_row (ds : list Dual.t) : pyval := VList (VDual <$> ds).






(** The builtin [eval] on a text that is a name: the value bound to it
    (the latest binding), [NameError] when there is none.  Other
    expressions are not covered by this instance. *)
Definition eval_name : reverse.py_eval :=
  fun text env =>
    match List.find (fun binding => String.eqb text (fst binding)) env with
    | Some binding => ret (snd binding)
    | None => raise (NameError text)
    end.

(** ** The functions of the examples *)

(** [lambda x: x * 2] *)
Definition double : autodiff.callable :=
  {| autodiff.call := fun args =>
       match args with
       | [x] => operator.mul x (VNum 2)
       | _ => raise (TypeError "wrong number of positional arguments")
       end;
     autodiff.co_argcount := 1;
     autodiff.co_varnames := ["x"];
     autodiff.getsource := inr "lambda x: x * 2" |}.

(** [lambda x: f.sqrt(x) + 1] *)
Definition sqrt_plus_one : autodiff.callable :=
  {| autodiff.call := fun args =>
       match args with
       | [x] => let* r := elem_func.sqrt x in operator.add r (VNum 1)
       | _ => raise (TypeError "wrong number of positional arguments")
       end;
     autodiff.co_argcount := 1;
     autodiff.co_varnames := ["x"];
     autodiff.getsource := inr "lambda x: f.sqrt(x) + 1" |}.

(** [lambda x, y: [x * 1.5 + x * y, x**y]] *)
Definition two_outputs : autodiff.callable :=
  {| autodiff.call := fun args =>
       match args with
       | [x; y] =>
           let* a := operator.mul x (VNum 1.5) in
           let* b := operator.mul x y in
           let* c := operator.add a b in
           let* d := operator.pow x y in
           ret (VList [c; d])
       | _ => raise (TypeError "wrong number of positional arguments")
       end;
     autodiff.co_argcount := 2;
     autodiff.co_varnames := ["x"; "y"];
     autodiff.getsource := inr "lambda x, y: [x * 1.5 + x * y, x**y]" |}.

(** ** Functions written as expressions

    The functions that a user hands to the engines are Python code outside
    the library.  The functions covered here are those whose body is an
    expression of the parameters, literal numbers, the unary minus, the
    five binary operators and the calls of the elementary functions.
    Python evaluates such an expression from left to right and dispatches
    each operation on the kinds of its operands. *)

Inductive binop : Type := OpAdd | OpSub | OpMul | OpTruediv | OpPow.

Definition apply_binop (op : binop) : pyval -> pyval -> M pyval :=
  match op with
  | OpAdd => operator.add
  | OpSub => operator.sub
  | OpMul => operator.mul
  | OpTruediv => operator.truediv
  | OpPow => operator.pow
  end.

Inductive expr : Type :=
| EVar (i : nat)
| ENum (c : R)
| ENeg (a : expr)
| EBin (op : binop) (a b : expr)
| ECall (f : elem_fn) (a : expr).

(** The evaluation of the expression with the parameters bound to
    [args]. *)
Fixpoint interp (e : expr) (args : list pyval) : M pyval :=
  match e with
  | EVar i =>
      match args !! i with
      | Some v => ret v
      | None => raise (NameError "name is not defined")
      end
  | ENum c => ret (VNum c)
  | ENeg a => let* x := interp a args in operator.neg x
  | EBin op a b =>
      let* x := interp a args in
      let* y := interp b args in
      apply_binop op x y
  | ECall f a => let* x := interp a args in apply_elem f x
  end.

(** The Python function [lambda params: body]. *)
Definition lambda (params : list string) (body : expr)
    (source : exn + string) : autodiff.callable :=
  {| autodiff.call := fun args =>
       if decide (length args = length params) then interp body args
       else raise (TypeError "wrong number of positional arguments");
     autodiff.co_argcount := length params;
     autodiff.co_varnames := params;
     autodiff.getsource := source |}.

(** The Python function [lambda params: [body1, ..., bodyM]]. *)
Definition lambda_list (params : list string) (bodies : list expr)
    (source : exn + string) : autodiff.callable :=
  {| autodiff.call := fun args =>
       if decide (length args = length params) then
         let* outs := list_comp bodies (fun body => interp body args) in
         ret (VList outs)
       else raise (TypeError "wrong number of positional arguments");
     autodiff.co_argcount := length params;
     autodiff.co_varnames := params;
     autodiff.getsource := source |}.

(** An expression without parameters: its value is a plain number. *)
Fixpoint closed (e : expr) : bool :=
  match e with
  | EVar _ => false
  | ENum _ => true
  | ENeg a => closed a
  | EBin _ a b => closed a && closed b
  | ECall _ a => closed a
  end.

(** ** The rules of calculus

    The value of an expression at a point and its derivative by the rules
    of differentiation (sum, product, quotient, power and chain rule).
    These definitions follow the rules of calculus, not the code; the
    engines are compared with them. *)

Module calculus.
Local Open Scope R_scope.

Definition binary (op : binop) (x y : R) : R :=
  match op with
  | OpAdd => x + y
  | OpSub => x - y
  | OpMul => x * y
  | OpTruediv => x / y
  | OpPow => py_pow x y
  end.

(** The partial derivatives of [x op y] in [x] and in [y]. *)
Definition d_left (op : binop) (x y : R) : R :=
  match op with
  | OpAdd => 1
  | OpSub => 1
  | OpMul => y
  | OpTruediv => 1 / y
  | OpPow => y * py_pow x (y - 1)
  end.

Definition d_right (op : binop) (x y : R) : R :=
  match op with
  | OpAdd => 1
  | OpSub => -1
  | OpMul => x
  | OpTruediv => - x / y²
  | OpPow => py_pow x y * ln x
  end.

Fixpoint value (e : expr) (xs : list R) : R :=
  match e with
  | EVar i => xs !!! i
  | ENum c => c
  | ENeg a => - value a xs
  | EBin op a b => binary op (value a xs) (value b xs)
  | ECall f a => closed_form.value f (value a xs)
  end.

(** The derivative at [xs] along the direction [ts]. *)
Fixpoint tangent (e : expr) (xs ts : list R) : R :=
  match e with
  | EVar i => ts !!! i
  | ENum _ => 0
  | ENeg a => - tangent a xs ts
  | EBin op a b =>
      d_left op (value a xs) (value b xs) * tangent a xs ts
      + d_right op (value a xs) (value b xs) * tangent b xs ts
  | ECall f a => closed_form.derivative f (value a xs) * tangent a xs ts
  end.

(** The direction of parameter [i] among [n]. *)
Definition direction (n i : nat) : list R :=
  (fun j => if decide (j = i) then 1 else 0) <$> seq 0 n.

(** The partial derivative in parameter [i], and the gradient. *)
Definition partial (e : expr) (xs : list R) (i : nat) : R :=
  tangent e xs (direction (length xs) i).

Definition gradient (e : expr) (xs : list R) : list R :=
  partial e xs <$> seq 0 (length xs).

(** The points that the properties of the engines cover: every parameter
    of the expression has an input; no divisor is zero; every power has a
    positive base, or an exponent without parameters whose value is a
    whole number, at least one; every elementary function is applied
    inside its domain.  (Python evaluates some powers outside, such as a
    negative base to a negative whole exponent; they are left out.) *)
Fixpoint defined (e : expr) (xs : list R) : Prop :=
  match e with
  | EVar i => (i < length xs)%nat
  | ENum _ => True
  | ENeg a => defined a xs
  | EBin op a b =>
      defined a xs ∧ defined b xs
      ∧ match op with
        | OpTruediv => value b xs <> 0
        | OpPow =>
            0 < value a xs
            ∨ (closed b = true
               ∧ ∃ n : nat, (1 <= n)%nat ∧ value b xs = INR n)
        | _ => True
        end
  | ECall f a => defined a xs ∧ closed_form.defined_at f (value a xs)
  end.

End calculus.

(** The derivative of a function of one output as the engines return it:
    a number for one input, a vector otherwise. *)
Definition gradient_array (e : expr) (xs : list R) : ndarray :=
  if decide (length xs = 1) then Scalar (calculus.partial e xs 0)
  else Vector (calculus.gradient e xs).

(** ** The entries of a gradient pass *)

(** [self._gradiant(root)[n]]. *)
Definition entry (g : Graph) (root n : nat) : R :=
  match reverse._gradiant root g with
  | Return gradiant _ => default 0%R (gradiant !! n)
  | _ => 0%R
  end.

(** The sum that a pass of bounded depth adds to the entry of [n]: for
    each edge out of [i], its partial times one if it ends at [n], plus
    what the pass adds from its child. *)
Fixpoint chain (depth : nat) (g : Graph) (i n : nat) : R :=
  match depth with
  | O => 0%R
  | S depth =>
      sum_R ((fun e : nat * R =>
                (snd e * ((if decide (fst e = n) then 1 else 0)
                          + chain depth g (fst e) n))%R)
               <$> edges g i)
  end.

(** ** Stores that grow *)

(** No edge of the store ends at node [n]. *)
Definition no_incoming (g : Graph) (n : nat) : Prop :=
  ∀ p e, e ∈ edges g p → e.1 ≠ n.

(** [g'] extends [g]: its edges point forward, it holds the nodes of [g]
    with their values, the entries of the gradient passes of the nodes of
    [g] are those of [g], and no edge to a node of [g] has been added. *)
Definition extends (g g' : Graph) : Prop :=
  forward_edges g' ∧ length g ≤ length g'
  ∧ ∀ x, x < length g →
      Node.real (g' !!! x) = Node.real (g !!! x)
      ∧ (∀ root, entry g' root x = entry g root x)
      ∧ (no_incoming g x → no_incoming g' x).

(** The derivative of node [n] in the node [root]: one for the node
    itself, plus the entry of the gradient pass. *)
Definition sensitivity (g : Graph) (root n : nat) : R :=
  ((if decide (root = n) then 1 else 0) + entry g root n)%R.

(** The store after the engine has created the input nodes:
    [[Node(input) for input in inputs]]. *)
Definition with_inputs (g : Graph) (xs : list R) : Graph :=
  g ++ ((fun x => Node.mk x []) <$> xs).

(** The nodes [ns] are inputs with the values [xs] in the store [g]:
    distinct nodes of the store, with these values, and no edge ends at
    one of them. *)
Definition valid_inputs (g : Graph) (xs : list R) (ns : list nat) : Prop :=
  length ns = length xs ∧ NoDup ns
  ∧ ∀ j c, ns !! j = Some c →
      c < length g ∧ Node.real (g !!! c) = xs !!! j ∧ no_incoming g c.

(** The body of [lambda x, y: x * y + sin(x)]. *)
Definition product_plus_sine : expr :=
  EBin OpAdd (EBin OpMul (EVar 0) (EVar 1)) (ECall Sin (EVar 0)).

#[global] Instance expr_inhabited : Inhabited expr := populate (ENum 0%R).

(** The jacobian of the expressions [bodies] at [xs] as the engines
    return it: the vector of the derivatives for one input, the matrix
    with one row per output and one column per input otherwise. *)
Definition jacobian_array (bodies : list expr) (xs : list R) : ndarray :=
  if decide (length xs = 1) then
    Vector ((fun body => calculus.partial body xs 0) <$> bodies)
  else Matrix ((fun body => calculus.gradient body xs) <$> bodies).

(** What the reverse engine needs of [eval] and of the source of a
    function that returns the list of the expressions [bodies]: the
    source can be read and matches the pattern of a returned list in
    brackets; the text between the brackets has one piece per expression
    between commas; the pieces name at most one package besides the
    excluded ones; and [eval], with the variables bound to nodes,
    evaluates each piece as Python evaluates the expression. *)
Definition pieces_evaluate (eval : reverse.py_eval)
    (self : autodiff.AutoDiff) (bodies : list expr) : Prop :=
  ∃ (source : string) (groups : string * string),
    autodiff.getsource (autodiff.funcs self) = inr source
    ∧ last (reverse.re_findall_list
              (reverse.re_sub_space (reverse.strip source))) = Some groups
    ∧ let funcs_lst := reverse.split ","%char (snd groups) in
      length funcs_lst = length bodies
      ∧ size (reverse.packages funcs_lst ∖ reverse.exclude_pkg) ≤ 1
      ∧ ∀ k function body env input_node g,
          funcs_lst !! k = Some function →
          bodies !! k = Some body →
          length input_node = autodiff.n_inputs self →
          eval (reverse.strip function)
               (reverse.bind_vars env
                  (autodiff.co_varnames (autodiff.funcs self)) input_node) g
          = interp body (VNode <$> input_node) g.

(** The builtin [eval] on the texts of [table], each beside the
    expression that it is the text of, over the variables [var_names]:
    the expression is evaluated with each variable bound to its latest
    binding.  Other texts are not covered by this instance. *)
Definition eval_table (var_names : list string)
    (table : list (string * expr)) : reverse.py_eval :=
  fun text env =>
    match List.find (fun row => String.eqb text (fst row)) table with
    | Some row =>
        let* args := list_comp var_names (fun name => eval_name name env) in
        interp (snd row) args
    | None => raise (OtherError "SyntaxError")
    end.

(** The bodies of [lambda x, y: [x * y, x + y]]. *)
Definition product_and_sum : list expr :=
  [EBin OpMul (EVar 0) (EVar 1); EBin OpAdd (EVar 0) (EVar 1)].

(** * Properties *)

(** ** Powers *)

Section powers.
Local Open Scope R_scope.

Lemma frac_part_int (z : Z) : frac_part (IZR z) = 0.
Proof.
  destruct (Int_part_frac_part_spec (IZR z) z 0) as [_ H]; [lra | lra |].
  symmetry; exact H.
Qed.

Lemma Int_part_int (z : Z) : Int_part (IZR z) = z.
Proof.
  destruct (Int_part_frac_part_spec (IZR z) z 0) as [H _]; [lra | lra |].
  symmetry; exact H.
Qed.

Lemma py_pow_int (x : R) (z : Z) : py_pow x (IZR z) = powerRZ x z.
Proof.
  unfold py_pow. destruct (Req_dec_T (frac_part (IZR z)) 0) as [_ | H].
  - now rewrite Int_part_int.
  - destruct H. apply frac_part_int.
Qed.

Lemma py_pow_2 (x : R) : py_pow x 2 = x².
Proof. rewrite py_pow_int. unfold Rsqr. simpl. lra. Qed.

Lemma frac_part_minus_half : frac_part (-0.5) = 0.5.
Proof.
  destruct (Int_part_frac_part_spec (-0.5) (-1) 0.5) as [_ H]; [lra | lra |].
  symmetry; exact H.
Qed.

Lemma py_pow_minus_half (x : R) : 0 < x -> py_pow x (-0.5) = / sqrt x.
Proof.
  intros Hx. unfold py_pow.
  destruct (Req_dec_T (frac_part (-0.5)) 0) as [H | _].
  - rewrite frac_part_minus_half in H. lra.
  - destruct (Rlt_dec 0 x) as [_ | H]; [| contradiction].
    replace (-0.5) with (- / 2) by lra.
    now rewrite Rpower_Ropp, Rpower_sqrt.
Qed.

End powers.

(** ** C2: the arithmetic of dual numbers *)

Section dual_arithmetic.
Local Open Scope R_scope.
Import Dual.

(** C2.  For all duals [a], [b] and numbers [k] the operators follow the
    table of the specification: sums and differences by component, a
    number contributing derivative [0]; the product rule; the quotient
    rule; the general power rule between two duals; the simple power rule
    for a number as exponent. *)
Theorem dual_arithmetic_table (a b : Dual.t) (k : R) :
  dual.__add__ a (VDual b) = inr (Dual.mk (real a + real b) (dual a + dual b))
  /\ dual.__add__ a (VNum k) = inr (Dual.mk (real a + k) (dual a))
  /\ dual.__radd__ a (VNum k) = inr (Dual.mk (k + real a) (0 + dual a))
  /\ dual.__sub__ a (VDual b) = inr (Dual.mk (real a - real b) (dual a - dual b))
  /\ dual.__sub__ a (VNum k) = inr (Dual.mk (real a - k) (dual a - 0))
  /\ dual.__rsub__ a (VNum k) = inr (Dual.mk (k - real a) (0 - dual a))
  /\ dual.__mul__ a (VDual b) =
       inr (Dual.mk (real a * real b) (real a * dual b + dual a * real b))
  /\ dual.__truediv__ a (VDual b) =
       inr (Dual.mk (real a / real b)
              ((dual a * real b - real a * dual b) / (real b)²))
  /\ dual.__pow__ a (VDual b) =
       inr (Dual.mk (py_pow (real a) (real b))
              (py_pow (real a) (real b)
               * (ln (real a) * dual b + real b * dual a / real a)))
  /\ dual.__pow__ a (VNum k) =
       inr (Dual.mk (py_pow (real a) k)
              (k * py_pow (real a) (k - 1) * dual a)).
Proof.
  unfold dual.__radd__, dual.__add__, dual.__sub__, dual.__rsub__,
    dual.__mul__, dual.__truediv__, dual.__pow__, np.log.
  rewrite py_pow_2.
  repeat split; f_equal; f_equal; try reflexivity; try lra;
    unfold Rdiv; ring.
Qed.

End dual_arithmetic.

(** ** Running an operation on a node *)

Section node_run.
Local Open Scope R_scope.

Lemma lookup_total_old (g : Graph) (nd : Node.t) (z : nat) :
  (z < length g)%nat -> (g ++ [nd]) !!! z = g !!! z.
Proof. intros Hz. now apply lookup_total_app_l. Qed.

Lemma unary_run (v d : R -> R) (z : nat) (g : Graph) :
  (z < length g)%nat ->
  (let* r := node.real z in
   let* child := node.__init__ (v r) in
   let* r' := node.real z in
   node.append z (child, d r') ;;
   ret (VNode child)) g
  = Return (VNode (length g))
      (one_edge g z (v (Node.real (g !!! z))) (d (Node.real (g !!! z)))).
Proof.
  intros Hz. unfold bind, node.real, node.__init__, node.append, ret, one_edge.
  rewrite lookup_total_old by assumption.
  now rewrite alter_app_l.
Qed.

Lemma unary_run_nat (v : R -> R) (d : R) (z : nat) (g : Graph) :
  (z < length g)%nat ->
  (let* a := node.real z in
   let* child := node.__init__ (v a) in
   node.append z (child, d) ;;
   ret child) g
  = Return (length g) (one_edge g z (v (Node.real (g !!! z))) d).
Proof.
  intros Hz. unfold bind, node.real, node.__init__, node.append, ret, one_edge.
  now rewrite alter_app_l.
Qed.

End node_run.

(** ** C8: a number minus a node *)

(** C8.  For every number [s] and every node [n] of the store, [s - n]
    succeeds: it creates exactly one new node, whose value is
    [s - n.real], appends to [n] the single edge [(child, -1)], and
    returns the child. *)
Theorem node_rsub_scalar (s : R) (n : nat) (g : Graph) :
  n < length g →
  node.__rsub__ n (VNum s) g
  = Return (length g)
      (alter (node.add_edge (length g, (-1)%R)) n g
       ++ [Node.mk (s - Node.real (g !!! n))%R []]).
Proof.
  intros Hn. unfold node.__rsub__.
  now rewrite (unary_run_nat (fun a => (s - a)%R) (-1)%R n g Hn).
Qed.

Lemma node_rsub_scalar_witness :
  node.__rsub__ 0 (VNum 5%R) [Node.mk 3%R []]
  = Return 1%nat [Node.mk 3%R [(1%nat, (-1)%R)]; Node.mk (5 - 3)%R []].
Proof. apply (node_rsub_scalar 5%R 0 [Node.mk 3%R []]). simpl. lia. Defined.

(** ** C1: the elementary functions *)

Section elementary_functions.
Local Open Scope R_scope.
Import closed_form.

Lemma half_inv (s : R) : 0.5 / s = 1 / (2 * s).
Proof. unfold Rdiv. rewrite Rinv_mult. lra. Qed.

Lemma sec_sqr (x : R) : 1 / (cos x)² = (sec x)².
Proof. unfold sec, Rsqr, Rdiv. rewrite Rinv_mult. ring. Qed.

(** The local partial that the code computes for a node, for each
    function, is the closed form of the derivative. *)
Ltac closed_form_eq :=
  unfold np.sin, np.cos, np.tan, np.exp, np.sqrt, np.log, np.arcsin,
    np.arccos, np.arctan, np.sinh, np.cosh, np.tanh, sigma;
  rewrite ?py_pow_2, ?half_inv, ?sec_sqr;
  try reflexivity; try (unfold Rdiv; ring).

Lemma elem_dual_run (f : elem_fn) (z : Dual.t) (g : Graph) :
  apply_elem f (VDual z) g
  = Return (VDual (Dual.mk (value f (Dual.real z))
                           (derivative f (Dual.real z) * Dual.dual z))) g.
Proof. destruct f; simpl; unfold ret; do 3 f_equal; closed_form_eq. Qed.

Lemma elem_node_run (f : elem_fn) (z : nat) (g : Graph) :
  (z < length g)%nat ->
  defined_at f (Node.real (g !!! z)) ->
  apply_elem f (VNode z) g
  = Return (VNode (length g))
      (one_edge g z (value f (Node.real (g !!! z)))
                    (derivative f (Node.real (g !!! z)))).
Proof.
  intros Hz Hdef.
  destruct f; simpl in *;
    unfold elem_func.sin, elem_func.cos, elem_func.tan, elem_func.exp,
      elem_func.sqrt, elem_func.log, elem_func.logb, elem_func.arcsin,
      elem_func.arccos, elem_func.arctan, elem_func.sinh, elem_func.cosh,
      elem_func.tanh, elem_func.logistic;
    cbv zeta;
    (etransitivity; [apply unary_run; assumption |]);
    unfold one_edge; cbv beta;
    match goal with
    | |- Return _ (alter (node.add_edge (_, ?a)) _ _ ++ [Node.mk ?b _])
         = Return _ (alter (node.add_edge (_, ?c)) _ _ ++ [Node.mk ?d _]) =>
        replace a with c; [replace b with d; [reflexivity |] |]
    end;
    symmetry;
    try (rewrite py_pow_minus_half by assumption; unfold np.sqrt, Rdiv;
         rewrite Rinv_mult; lra);
    closed_form_eq.
Qed.

(** Whatever the argument, a function applied to a node of the store
    creates one node and appends one edge. *)
Lemma elem_node_shape (f : elem_fn) (z : nat) (g : Graph) :
  (z < length g)%nat ->
  exists v d, apply_elem f (VNode z) g
              = Return (VNode (length g)) (one_edge g z v d).
Proof.
  intros Hz.
  destruct f; simpl;
    unfold elem_func.sin, elem_func.cos, elem_func.tan, elem_func.exp,
      elem_func.sqrt, elem_func.log, elem_func.logb, elem_func.arcsin,
      elem_func.arccos, elem_func.arctan, elem_func.sinh, elem_func.cosh,
      elem_func.tanh, elem_func.logistic;
    cbv zeta; do 2 eexists; apply unary_run; assumption.
Qed.

Lemma elem_num_run (f : elem_fn) (z : R) (g : Graph) :
  apply_elem f (VNum z) g = Return (VNum (value f z)) g.
Proof. destruct f; simpl; unfold ret; closed_form_eq. Qed.

(** C1.  For every elementary function [f] of the library and every
    argument at which [f] and its derivative are defined: on a dual [z]
    the result is the dual of value [f(z.real)] and derivative
    [f'(z.real) * z.dual], with [f'] the closed form listed; on a node [z]
    exactly one new node of value [f(z.real)] is created, the single edge
    [(child, f'(z.real))] is appended to the edge list of [z], and the
    child is returned; on a number the result is the closed-form value. *)
Theorem elementary_function_contract (f : elem_fn) :
  (forall (z : Dual.t) (g : Graph),
      defined_at f (Dual.real z) ->
      apply_elem f (VDual z) g
      = Return (VDual (Dual.mk (value f (Dual.real z))
                               (derivative f (Dual.real z) * Dual.dual z))) g)
  /\ (forall (z : nat) (g : Graph),
      (z < length g)%nat ->
      defined_at f (Node.real (g !!! z)) ->
      apply_elem f (VNode z) g
      = Return (VNode (length g))
          (alter (node.add_edge (length g, derivative f (Node.real (g !!! z))))
                 z g
           ++ [Node.mk (value f (Node.real (g !!! z))) []]))
  /\ (forall (z : R) (g : Graph),
      defined_at f z ->
      apply_elem f (VNum z) g = Return (VNum (value f z)) g).
Proof.
  split; [| split].
  - intros z g _. apply elem_dual_run.
  - intros z g Hz Hdef. now apply elem_node_run.
  - intros z g _. apply elem_num_run.
Qed.

End elementary_functions.

Lemma elementary_function_contract_witness :
  apply_elem Sqrt (VDual (Dual.mk 4 1)) []
  = Return (VDual (Dual.mk (sqrt 4) (1 / (2 * sqrt 4) * 1))) []
  ∧ apply_elem Sqrt (VNode 0) [Node.mk 4 []]
    = Return (VNode 1)
        [Node.mk 4 [(1%nat, (1 / (2 * sqrt 4))%R)]; Node.mk (sqrt 4) []]
  ∧ apply_elem Sqrt (VNum 4) [] = Return (VNum (sqrt 4)) [].
Proof.
  destruct (elementary_function_contract Sqrt) as (HD & HN & HS).
  split; [| split].
  - apply (HD (Dual.mk 4 1) []). simpl. lra.
  - apply (HN 0%nat [Node.mk 4 []]); simpl; [lia | lra].
  - apply (HS 4%R []). simpl. lra.
Defined.

(** ** C7: the invariant of the graph *)

Section graph_invariant.

Lemma add_edges_length child es (g : Graph) :
  length (add_edges child es g) = length g.
Proof.
  unfold add_edges. revert g.
  induction es as [| e es IH]; intros g; simpl; [reflexivity |].
  now rewrite IH, length_alter.
Qed.

Lemma add_edge_lookup child p i j (g : Graph) :
  Node.real (alter (node.add_edge (child, p)) i g !!! j) = Node.real (g !!! j)
  ∧ ∃ new, Node.partial_derivs (alter (node.add_edge (child, p)) i g !!! j)
           = Node.partial_derivs (g !!! j) ++ new
           ∧ ∀ e, e ∈ new → e.1 = child.
Proof.
  rewrite list_lookup_total_alter. case_decide as H.
  - destruct H as [-> _]. split; [reflexivity |].
    exists [(child, p)]. split; [reflexivity |].
    intros e He. apply list_elem_of_singleton in He. now subst.
  - split; [reflexivity |]. exists []. split; [now rewrite app_nil_r |].
    intros e He. now apply elem_of_nil in He.
Qed.

Lemma add_edges_lookup child es (g : Graph) j :
  Node.real (add_edges child es g !!! j) = Node.real (g !!! j)
  ∧ ∃ new, Node.partial_derivs (add_edges child es g !!! j)
           = Node.partial_derivs (g !!! j) ++ new
           ∧ ∀ e, e ∈ new → e.1 = child.
Proof.
  unfold add_edges. revert g.
  induction es as [| [i p] es IH]; intros g; simpl.
  - split; [reflexivity |]. exists []. split; [now rewrite app_nil_r |].
    intros e He. now apply elem_of_nil in He.
  - destruct (IH (alter (node.add_edge (child, p)) i g)) as (Hr & new2 & Hp & Hc).
    destruct (add_edge_lookup child p i j g) as (Hr1 & new1 & Hp1 & Hc1).
    split; [congruence |].
    exists (new1 ++ new2). split.
    + simpl in *. rewrite Hp, Hp1. now rewrite app_assoc.
    + intros e He. apply elem_of_app in He as [He | He]; auto.
Qed.

Lemma grow_length (g : Graph) v es : length (grow g v es) = S (length g).
Proof. unfold grow. rewrite length_app, add_edges_length. simpl. lia. Qed.

Lemma grow_old (g : Graph) v es i :
  i < length g → grow g v es !!! i = add_edges (length g) es g !!! i.
Proof.
  intros Hi. unfold grow. apply lookup_total_app_l.
  now rewrite add_edges_length.
Qed.

Lemma grow_new (g : Graph) v es :
  grow g v es !!! length g = Node.mk v [].
Proof.
  unfold grow. apply list_lookup_total_middle.
  now rewrite add_edges_length.
Qed.

Lemma lookup_total_beyond (g : Graph) i :
  length g ≤ i → g !!! i = Node.mk 0%R [].
Proof.
  intros Hi. rewrite list_lookup_total_alt.
  now rewrite lookup_ge_None_2.
Qed.

Lemma grow_forward (g : Graph) v es :
  forward_edges g → forward_edges (grow g v es).
Proof.
  intros Hg i child partial Hin. unfold edges in Hin.
  rewrite grow_length.
  destruct (Nat.lt_trichotomy i (length g)) as [Hi | [-> | Hi]].
  - rewrite grow_old in Hin by assumption.
    destruct (add_edges_lookup (length g) es g i) as (_ & new & Hp & Hc).
    rewrite Hp in Hin. apply elem_of_app in Hin as [Hin | Hin].
    + specialize (Hg i child partial Hin). lia.
    + apply Hc in Hin. simpl in Hin. lia.
  - rewrite grow_new in Hin. now apply elem_of_nil in Hin.
  - rewrite lookup_total_beyond in Hin by (rewrite grow_length; lia).
    now apply elem_of_nil in Hin.
Qed.

(** Along a path of a graph with forward edges the references grow. *)
Lemma follow_forward (g : Graph) :
  forward_edges g →
  ∀ ks i n w, ks ≠ [] → follow g i ks = Some (n, w) → i < n.
Proof.
  intros Hg. induction ks as [| k ks IH]; intros i n w Hne Hf; [done |].
  simpl in Hf.
  destruct (edges g i !! k) as [[child partial] |] eqn:Hk; [| done].
  destruct (follow g child ks) as [[n' w'] |] eqn:Hc; [| done].
  injection Hf as -> _.
  assert (i < child) as Hic.
  { apply list_elem_of_lookup_2 in Hk. apply Hg in Hk. lia. }
  destruct ks as [| k' ks'].
  - simpl in Hc. injection Hc as <- _. exact Hic.
  - specialize (IH child n w' ltac:(done) Hc). lia.
Qed.

Lemma forward_edges_acyclic (g : Graph) : forward_edges g → acyclic g.
Proof.
  intros Hg i ks [Hne [w Hf]].
  pose proof (follow_forward g Hg ks i i w Hne Hf). lia.
Qed.

Lemma one_edge_grow (g : Graph) z v d : one_edge g z v d = grow g v [(z, d)].
Proof. reflexivity. Qed.

Ltac run_node_op H :=
  cbv [apply_op operator.of_node node.__neg__ node.__add__ node.__radd__
       node.__mul__ node.__rmul__ node.__sub__ node.__rsub__
       node.__truediv__ node.__rtruediv__ node.__pow__ node.__rpow__
       bind raise ret node.real node.__init__ node.append] in H;
  try discriminate H; injection H as <- <-.

(** Every operation on nodes of the store returns the node it creates and
    grows the store: one node more, edges to it appended. *)
Lemma op_grows (op : node_op) (self : nat) (g g' : Graph) (v : pyval) :
  self < length g →
  (∀ o, operand op = Some o → o < length g) →
  apply_op op self g = Return v g' →
  v = VNode (length g) ∧ ∃ value es, g' = grow g value es.
Proof.
  intros Hself Hother Hrun.
  destruct op as [| other | other | other | other | other | other | other
                  | other | other | other | f];
    try (destruct other as [k | d | o | s | l |];
         try (assert (o < length g) as Ho by (apply Hother; reflexivity));
         run_node_op Hrun;
         (split; [reflexivity |]);
         first [ (eexists _, [(self, _); (o, _)]; unfold grow, add_edges; simpl;
                  rewrite !alter_app_l by (rewrite ?length_alter; lia);
                  reflexivity)
               | (eexists _, [(self, _)]; unfold grow, add_edges; simpl;
                  rewrite !alter_app_l by (rewrite ?length_alter; lia);
                  reflexivity) ]).
  - run_node_op Hrun. split; [reflexivity |].
    eexists _, [(self, _)]. unfold grow, add_edges. simpl.
    now rewrite alter_app_l.
  - simpl in Hrun. destruct (elem_node_shape f self g Hself) as (val & d & Hf).
    rewrite Hf in Hrun. injection Hrun as <- <-.
    split; [reflexivity |]. exists val, [(self, d)]. apply one_edge_grow.
Qed.

(** C7.  Every operation on nodes (the arithmetic operators and every
    elementary function applied to a node) preserves the invariant of the
    graph: no value of an existing node is modified; an existing node is
    only changed by edges appended to its own edge list; every appended
    edge points to the node that the operation creates, which comes after
    every existing node; hence edges keep pointing forward and the graph
    stays acyclic. *)
Theorem node_operation_invariant (op : node_op) (self : nat)
    (g g' : Graph) (v : pyval) :
  self < length g →
  (∀ o, operand op = Some o → o < length g) →
  apply_op op self g = Return v g' →
  v = VNode (length g)
  ∧ length g' = S (length g)
  ∧ edges g' (length g) = []
  ∧ (∀ i, i < length g →
       Node.real (g' !!! i) = Node.real (g !!! i)
       ∧ ∃ new, edges g' i = edges g i ++ new
                ∧ ∀ e, e ∈ new → e.1 = length g)
  ∧ (forward_edges g → forward_edges g' ∧ acyclic g').
Proof.
  intros Hself Hother Hrun.
  destruct (op_grows op self g g' v Hself Hother Hrun) as (-> & val & es & ->).
  split; [reflexivity |]. split; [apply grow_length |].
  split; [unfold edges; now rewrite grow_new |].
  split.
  - intros i Hi. unfold edges. rewrite grow_old by assumption.
    apply add_edges_lookup.
  - intros Hg. pose proof (grow_forward g val es Hg) as Hg'.
    split; [exact Hg' | now apply forward_edges_acyclic].
Qed.

Lemma node_operation_invariant_witness :
  let g := [Node.mk 2%R []; Node.mk 3%R []] in
  let g' := [Node.mk 2%R [(2, 3%R)]; Node.mk 3%R [(2, 2%R)];
             Node.mk (2 * 3)%R []] in
  VNode 2 = VNode (length g)
  ∧ length g' = S (length g)
  ∧ edges g' (length g) = []
  ∧ (∀ i, i < length g →
       Node.real (g' !!! i) = Node.real (g !!! i)
       ∧ ∃ new, edges g' i = edges g i ++ new
                ∧ ∀ e, e ∈ new → e.1 = length g)
  ∧ (forward_edges g → forward_edges g' ∧ acyclic g').
Proof.
  intros g g'.
  apply (node_operation_invariant (Mul (VNode 1)) 0 g g' (VNode 2)).
  - simpl. lia.
  - intros o Ho. injection Ho as <-. simpl. lia.
  - reflexivity.
Defined.

End graph_invariant.

(** ** C3: the gradient pass sums over paths *)

Section gradient_pass.
Local Open Scope R_scope.

Lemma follow_cons (g : Graph) i k ks child partial :
  edges g i !! k = Some (child, partial) →
  follow g i (k :: ks)
  = match follow g child ks with
    | Some (n, w) => Some (n, partial * w)
    | None => None
    end.
Proof. intros H. simpl. now rewrite H. Qed.

Lemma contribute_cons (g : Graph) i k ks child partial st m :
  edges g i !! k = Some (child, partial) →
  contribute g i st m (k :: ks) = contribute g child (st * partial) m ks.
Proof.
  intros H. unfold contribute. rewrite (follow_cons g i k ks child partial H).
  destruct (follow g child ks) as [[n w] |]; [| reflexivity].
  unfold bump. now rewrite Rmult_assoc.
Qed.

Lemma contribute_one (g : Graph) i k child partial st m :
  edges g i !! k = Some (child, partial) →
  contribute g i st m [k] = bump m child (st * partial).
Proof.
  intros H. unfold contribute. rewrite (follow_cons g i k [] child partial H).
  simpl. unfold bump. now rewrite Rmult_1_r.
Qed.

Lemma foldl_contribute_cons (g : Graph) i k child partial st ps :
  edges g i !! k = Some (child, partial) →
  ∀ m, foldl (contribute g i st) m (cons k <$> ps)
       = foldl (contribute g child (st * partial)) m ps.
Proof.
  intros H. induction ps as [| ks ps IH]; intros m; simpl; [reflexivity |].
  now rewrite (contribute_cons g i k ks child partial st m H), IH.
Qed.

(** The pass adds, in order, the contribution of every path it walks. *)
Lemma calc_grad_walk (g : Graph) :
  ∀ depth i st m,
    reverse._calc_grad depth g i st m
    = match walk depth g i with
      | Some ps => Some (foldl (contribute g i st) m ps)
      | None => None
      end.
Proof.
  induction depth as [| depth IHd]; intros i st m; [reflexivity |].
  simpl.
  assert (∀ es pre m,
    edges g i = pre ++ es →
    reverse.for_edges
      (fun '(child, partial_deriv) gradiant =>
         reverse._calc_grad depth g child (st * partial_deriv)
           (<[child := default 0 (gradiant !! child) + st * partial_deriv]>
              gradiant))
      es m
    = match walk_edges (walk depth g) (length pre) es with
      | Some ps => Some (foldl (contribute g i st) m ps)
      | None => None
      end) as Hedges.
  { induction es as [| [child partial] es IHe]; intros pre m' Hpre;
      [reflexivity |].
    assert (edges g i !! length pre = Some (child, partial)) as Hk.
    { rewrite Hpre. now rewrite list_lookup_middle. }
    simpl. rewrite IHd.
    destruct (walk depth g child) as [ps |]; [| reflexivity].
    rewrite (IHe (pre ++ [(child, partial)]))
      by (now rewrite <- app_assoc).
    rewrite length_app, Nat.add_1_r.
    destruct (walk_edges (walk depth g) (S (length pre)) es) as [qs |];
      [| reflexivity].
    f_equal. simpl. rewrite foldl_app.
    rewrite (contribute_one g i (length pre) child partial st m' Hk).
    now rewrite (foldl_contribute_cons g i (length pre) child partial st ps Hk). }
  exact (Hedges (edges g i) [] m eq_refl).
Qed.

Lemma follow_app (g : Graph) :
  ∀ ks1 ks2 a j n w1 w2,
    follow g a ks1 = Some (j, w1) →
    follow g j ks2 = Some (n, w2) →
    ∃ w, follow g a (ks1 ++ ks2) = Some (n, w).
Proof.
  induction ks1 as [| k ks1 IH]; intros ks2 a j n w1 w2 H1 H2.
  - simpl in H1. injection H1 as -> _. eauto.
  - simpl in *.
    destruct (edges g a !! k) as [[child partial] |]; [| done].
    destruct (follow g child ks1) as [[j' w'] |] eqn:Hc; [| done].
    injection H1 as -> _.
    destruct (IH ks2 child j n w' w2 Hc H2) as [w ->]. eauto.
Qed.

Lemma follow_is_Some_cons (g : Graph) i k ks :
  is_Some (follow g i (k :: ks)) →
  ∃ child partial,
    edges g i !! k = Some (child, partial) ∧ is_Some (follow g child ks).
Proof.
  simpl. destruct (edges g i !! k) as [[child partial] |]; [| by intros [? ?]].
  destruct (follow g child ks) as [[n w] |] eqn:Hc; [| by intros [? ?]].
  intros _. exists child, partial. split; [reflexivity |].
  rewrite Hc. by eexists.
Qed.

(** The list that [walk] returns holds every path of at least one edge
    from the node, once. *)
Lemma walk_edges_spec (g : Graph) (i depth : nat) :
  (∀ c ps, walk depth g c = Some ps →
     NoDup ps ∧ ∀ ks, ks ∈ ps ↔ ks ≠ [] ∧ is_Some (follow g c ks)) →
  ∀ es pre qs,
    edges g i = pre ++ es →
    walk_edges (walk depth g) (length pre) es = Some qs →
    NoDup qs
    ∧ ∀ ks, ks ∈ qs ↔
        ∃ k ks', ks = k :: ks' ∧ (length pre ≤ k)%nat
                 ∧ is_Some (follow g i ks).
Proof.
  intros IHd. induction es as [| [child partial] es IHe]; intros pre qs Hpre Hw.
  - simpl in Hw. injection Hw as <-. split; [constructor |].
    intros ks. split; [intros H; now apply elem_of_nil in H |].
    intros (k & ks' & -> & Hk & Hsome).
    apply follow_is_Some_cons in Hsome as (c & p & Hlook & _).
    apply lookup_lt_Some in Hlook. rewrite Hpre, app_nil_r in Hlook. lia.
  - assert (edges g i !! length pre = Some (child, partial)) as Hk.
    { rewrite Hpre. now rewrite list_lookup_middle. }
    simpl in Hw.
    destruct (walk depth g child) as [ps |] eqn:Hps; [| done].
    destruct (walk_edges (walk depth g) (S (length pre)) es) as [qs' |] eqn:Hqs;
      [| done].
    injection Hw as <-.
    destruct (IHd child ps Hps) as [Hnd Hin].
    destruct (IHe (pre ++ [(child, partial)]) qs') as [Hnd' Hin'].
    { now rewrite <- app_assoc. }
    { now rewrite length_app, Nat.add_1_r. }
    rewrite length_app, Nat.add_1_r in Hin'.
    split.
    + change (NoDup (([length pre] :: (cons (length pre) <$> ps)) ++ qs')).
      apply NoDup_app. split; [| split]; [| | exact Hnd'].
      * apply NoDup_cons. split.
        -- intros H. apply list_elem_of_fmap in H as (ks & Heq & Hks).
           injection Heq as <-. apply Hin in Hks. now destruct Hks.
        -- apply NoDup_fmap_2; [| exact Hnd]. intros x y Hxy. congruence.
      * intros ks Hks Hks'. apply Hin' in Hks' as (k & ks' & -> & Hle & _).
        apply elem_of_cons in Hks as [Heq | Hks].
        -- injection Heq as -> _. lia.
        -- apply list_elem_of_fmap in Hks as (ks & Heq & _).
           injection Heq as -> _. lia.
    + intros ks.
      change (ks ∈ ([length pre] :: (cons (length pre) <$> ps)) ++ qs'
              ↔ ∃ k ks', ks = k :: ks' ∧ (length pre ≤ k)%nat
                         ∧ is_Some (follow g i ks)).
      rewrite elem_of_app, elem_of_cons, list_elem_of_fmap. split.
      * intros [[-> | (ks' & -> & Hks')] | Hks].
        -- exists (length pre), []. split; [done |]. split; [lia |].
           rewrite (follow_cons g i _ [] child partial Hk). simpl. eauto.
        -- exists (length pre), ks'. split; [done |]. split; [lia |].
           rewrite (follow_cons g i _ ks' child partial Hk).
           apply Hin in Hks' as [_ [[n w] ->]]. eauto.
        -- apply Hin' in Hks as (k & ks' & -> & Hle & Hsome).
           exists k, ks'. split; [done |]. split; [lia | done].
      * intros (k & ks' & -> & Hle & Hsome).
        destruct (decide (k = length pre)) as [-> | Hne].
        -- left. destruct ks' as [| k' ks'']; [now left |]. right.
           exists (k' :: ks''). split; [done |]. apply Hin. split; [done |].
           apply follow_is_Some_cons in Hsome as (c & p & Hlook & Hc).
           rewrite Hk in Hlook. now injection Hlook as <- <-.
        -- right. apply Hin'. exists k, ks'. split; [done |].
           split; [lia | done].
Qed.

Lemma walk_spec (g : Graph) :
  ∀ depth i ps,
    walk depth g i = Some ps →
    NoDup ps ∧ ∀ ks, ks ∈ ps ↔ ks ≠ [] ∧ is_Some (follow g i ks).
Proof.
  induction depth as [| depth IHd]; intros i ps Hw; [done |].
  simpl in Hw.
  destruct (walk_edges_spec g i depth IHd (edges g i) [] ps eq_refl Hw)
    as [Hnd Hin].
  split; [exact Hnd |]. intros ks. rewrite Hin. split.
  - intros (k & ks' & -> & _ & Hsome). done.
  - intros [Hne Hsome]. destruct ks as [| k ks']; [done |].
    exists k, ks'. split; [done |]. split; [simpl; lia | done].
Qed.

Lemma edges_in_store (g : Graph) i e : e ∈ edges g i → (i < length g)%nat.
Proof.
  intros He. destruct (decide (i < length g)%nat) as [| Hge]; [assumption |].
  unfold edges in He. rewrite lookup_total_beyond in He by lia.
  now apply elem_of_nil in He.
Qed.

Lemma NoDup_bounded (l : list nat) (n : nat) :
  NoDup l → (∀ a, a ∈ l → (a < n)%nat) → (length l ≤ n)%nat.
Proof.
  intros Hnd Hlt. replace n with (length (seq 0 n)) by apply length_seq.
  apply submseteq_length, NoDup_submseteq; [exact Hnd |].
  intros a Ha. apply elem_of_seq. specialize (Hlt a Ha). lia.
Qed.

Lemma walk_edges_is_Some (rec : nat → option (list (list nat))) :
  ∀ es k, (∀ e, e ∈ es → is_Some (rec e.1)) → is_Some (walk_edges rec k es).
Proof.
  induction es as [| [child partial] es IH]; intros k Hrec; simpl; [by eexists |].
  destruct (Hrec (child, partial)) as [ps Hps]; [by left |].
  simpl in Hps. rewrite Hps.
  destruct (IH (S k)) as [qs ->]; [| by eexists].
  intros e He. apply Hrec. now right.
Qed.

(** On a graph without cycles the pass ends: the nodes on the way from
    the root to the current node ([anc]) are distinct nodes of the store,
    so there are at most as many of them as nodes. *)
Lemma walk_terminates (g : Graph) :
  acyclic g →
  ∀ depth anc i,
    NoDup anc →
    (∀ a, a ∈ anc → (a < length g)%nat ∧ ∃ ks, is_path g a ks i) →
    (length g < length anc + depth)%nat →
    is_Some (walk depth g i).
Proof.
  intros Hacyc. induction depth as [| depth IHd]; intros anc i Hnd Hanc Hlen.
  - pose proof (NoDup_bounded anc (length g) Hnd (fun a Ha => proj1 (Hanc a Ha))).
    lia.
  - simpl. apply walk_edges_is_Some. intros [child partial] He. simpl.
    pose proof (edges_in_store g i _ He) as Hi.
    apply list_elem_of_lookup in He as [k Hk].
    apply (IHd (i :: anc)).
    + apply NoDup_cons. split; [| exact Hnd].
      intros Hin. destruct (Hanc i Hin) as [_ [ks Hks]].
      exact (Hacyc i ks Hks).
    + intros a Ha. apply elem_of_cons in Ha as [-> | Ha].
      * split; [exact Hi |]. exists [k]. split; [done |].
        rewrite (follow_cons g i k [] child partial Hk). simpl. eauto.
      * destruct (Hanc a Ha) as [Hlt (ks & Hne & w & Hks)].
        split; [exact Hlt |]. exists (ks ++ [k]). split.
        -- intros Heq. now apply app_eq_nil in Heq as [_ ?].
        -- apply (follow_app g ks [k] a i child w (partial * 1)); [exact Hks |].
           now rewrite (follow_cons g i k [] child partial Hk).
    + simpl. lia.
Qed.

(** The entry of [n] after the contributions of a list of paths. *)
Lemma foldl_contribute_entry (g : Graph) i st n :
  ∀ ps m,
    default 0 (foldl (contribute g i st) m ps !! n)
    = default 0 (m !! n)
      + st * sum_R (path_product g i
                      <$> filter (fun ks => fst <$> follow g i ks = Some n) ps).
Proof.
  induction ps as [| ks ps IH]; intros m; cbn [foldl].
  - rewrite filter_nil. simpl. lra.
  - rewrite IH. unfold contribute at 1.
    destruct (follow g i ks) as [[n' w] |] eqn:Hf.
    + destruct (decide (n' = n)) as [-> | Hne].
      * assert (fst <$> follow g i ks = Some n) as HP by (now rewrite Hf).
        rewrite filter_cons_True by exact HP.
        assert (path_product g i ks = w) as Hw
          by (unfold path_product; now rewrite Hf).
        unfold bump. rewrite lookup_insert_eq.
        cbn [fmap list_fmap sum_R foldr default]. rewrite Hw.
        unfold sum_R, Datatypes.id. lra.
      * assert (fst <$> follow g i ks ≠ Some n) as HP
          by (rewrite Hf; simpl; congruence).
        rewrite filter_cons_False by exact HP.
        unfold bump. now rewrite lookup_insert_ne.
    + assert (fst <$> follow g i ks ≠ Some n) as HP by (now rewrite Hf).
      rewrite filter_cons_False by exact HP. reflexivity.
Qed.

Lemma sum_R_Permutation (l k : list R) : l ≡ₚ k → sum_R l = sum_R k.
Proof.
  induction 1 as [| x l k _ IH | x y l | l k k' _ IH1 _ IH2]; simpl in *; lra.
Qed.

(** The sum over all paths does not depend on the order in which they are
    listed. *)
Lemma enumerates_sum (g : Graph) root n (l k : list (list nat)) :
  enumerates g root n l → enumerates g root n k →
  sum_R (path_product g root <$> l) = sum_R (path_product g root <$> k).
Proof.
  intros [Hl Hinl] [Hk Hink].
  apply sum_R_Permutation, fmap_Permutation, NoDup_Permutation; try assumption.
  intros ks. now rewrite Hinl, Hink.
Qed.

Lemma walk_enumerates (g : Graph) depth root ps n :
  walk depth g root = Some ps →
  enumerates g root n (filter (fun ks => fst <$> follow g root ks = Some n) ps).
Proof.
  intros Hw. destruct (walk_spec g depth root ps Hw) as [Hnd Hin].
  split; [now apply NoDup_filter |].
  intros ks. rewrite list_elem_of_filter, Hin. unfold is_path. split.
  - intros [Hn [Hne [[n' w] Hf]]]. split; [exact Hne |].
    rewrite Hf in Hn. simpl in Hn. injection Hn as ->. eauto.
  - intros [Hne [w Hf]]. rewrite Hf. split; [reflexivity |].
    split; [exact Hne | by eexists].
Qed.

(** C3.  For every acyclic graph of nodes and every node [root], the
    gradient pass rooted at [root] returns a mapping in which the entry of
    each node [n] (default [0]) is the sum, over all paths of edges from
    [root] to [n], of the product of the local partials along the path:
    the paths can be listed, and the entry is the sum over any list that
    holds each of them once. *)
Theorem gradient_pass_path_sum (g : Graph) (root : nat) :
  acyclic g →
  ∃ gradiant,
    reverse._gradiant root g = Return gradiant g
    ∧ ∀ n,
        (∃ paths, enumerates g root n paths)
        ∧ ∀ paths,
            enumerates g root n paths →
            default 0 (gradiant !! n) = sum_R (path_product g root <$> paths).
Proof.
  intros Hacyc.
  destruct (walk_terminates g Hacyc (S (length g)) [] root) as [ps Hps].
  { constructor. }
  { intros a Ha. now apply elem_of_nil in Ha. }
  { simpl. lia. }
  exists (foldl (contribute g root 1) ∅ ps). split.
  - unfold reverse._gradiant. now rewrite calc_grad_walk, Hps.
  - intros n. pose proof (walk_enumerates g _ root ps n Hps) as Henum.
    split; [eauto |]. intros paths Hpaths.
    rewrite foldl_contribute_entry, lookup_empty. simpl.
    rewrite (enumerates_sum g root n _ _ Hpaths Henum). lra.
Qed.

End gradient_pass.

Lemma gradient_pass_path_sum_witness :
  let g := [Node.mk 3%R [(1, 3%R); (1, 3%R)]; Node.mk 9%R []] in
  ∃ gradiant,
    reverse._gradiant 0 g = Return gradiant g
    ∧ ∀ n,
        (∃ paths, enumerates g 0 n paths)
        ∧ ∀ paths,
            enumerates g 0 n paths →
            default 0%R (gradiant !! n) = sum_R (path_product g 0 <$> paths).
Proof.
  intros g. apply (gradient_pass_path_sum g 0).
  apply forward_edges_acyclic. intros i child partial Hin.
  destruct i as [| [| i]]; simpl in Hin.
  - apply elem_of_cons in Hin as [Heq | Hin].
    + injection Heq as -> _. simpl. lia.
    + apply list_elem_of_singleton in Hin. injection Hin as -> _. simpl. lia.
  - now apply elem_of_nil in Hin.
  - now apply elem_of_nil in Hin.
Defined.

(** ** C4: forward and reverse mode agree on the elementary functions *)

Section engines_agree.
Local Open Scope R_scope.
Import closed_form.

Lemma gradiant_single_edge (g : Graph) (root child : nat) (d : R) :
  edges g root = [(child, d)] →
  edges g child = [] →
  reverse._gradiant root g
  = Return (<[child := default 0 ((∅ : gmap nat R) !! child) + 1 * d]> ∅) g.
Proof.
  intros Hroot Hchild. unfold reverse._gradiant.
  assert (length g ≠ 0%nat) as Hlen.
  { intros H0. apply length_zero_iff_nil in H0. subst g.
    unfold edges in Hroot. now rewrite lookup_total_beyond in Hroot by (simpl; lia). }
  destruct (length g) as [| k] eqn:Hk; [done |].
  simpl. fold (edges g root). rewrite Hroot. simpl.
  fold (edges g child). now rewrite Hchild.
Qed.

Lemma two_new_nodes (g : Graph) (n0 n1 : Node.t) :
  (g ++ [n0; n1]) !!! length g = n0
  ∧ (g ++ [n0; n1]) !!! S (length g) = n1.
Proof.
  split.
  - now apply list_lookup_total_middle.
  - replace (g ++ [n0; n1]) with ((g ++ [n0]) ++ [n1])
      by (now rewrite <- app_assoc).
    apply list_lookup_total_middle. rewrite length_app. simpl. lia.
Qed.

(** C4.  For every elementary function [f] of the library and every point
    [x] in the interior of its domain, the derivative of the forward
    engine and the derivative of the reverse engine for the function
    [lambda x: f(x)] are both the closed-form derivative [f'(x)], hence
    equal. *)
Theorem forward_reverse_closed_form (f : elem_fn) (x : R)
    (eval : reverse.py_eval) (source : exn + string) (g : Graph) :
  defined_at f x →
  let ad := autodiff.__init__ (unary f source) in
  forward.forward ad (InSeq [x]) g = Return (Scalar (derivative f x)) g
  ∧ ∃ g', reverse.reverse eval ad (InSeq [x]) g
          = Return (Scalar (derivative f x)) g'.
Proof.
  intros Hdef ad. split.
  - unfold forward.forward, forward._dual_forward, bind. simpl.
    rewrite elem_dual_run. simpl. unfold ret. now rewrite Rmult_1_r.
  - unfold reverse.reverse, bind. simpl.
    unfold bind, node.__init__, ret. simpl.
    rewrite elem_node_run.
    + rewrite list_lookup_total_middle by reflexivity. simpl.
      unfold one_edge. rewrite length_app, Nat.add_1_r.
      rewrite alter_app_r_alt by lia. rewrite Nat.sub_diag. simpl.
      rewrite <- app_assoc. simpl.
      destruct (two_new_nodes g
        (node.add_edge (S (length g), derivative f x) (Node.mk x []))
        (Node.mk (value f x) [])) as [H0 H1].
      rewrite (gradiant_single_edge _ (length g) (S (length g)) (derivative f x)).
      * eexists. rewrite lookup_insert_eq. simpl.
        do 2 f_equal. rewrite lookup_empty. simpl. lra.
      * unfold edges. now rewrite H0.
      * unfold edges. now rewrite H1.
    + rewrite length_app. simpl. lia.
    + now rewrite list_lookup_total_middle by reflexivity.
Qed.

Lemma forward_reverse_closed_form_witness :
  let eval : reverse.py_eval := fun _ _ => raise (OtherError "SyntaxError") in
  let ad := autodiff.__init__ (unary Sqrt (inl (OtherError "OSError"))) in
  forward.forward ad (InSeq [4]) [] = Return (Scalar (1 / (2 * sqrt 4))) []
  ∧ ∃ g', reverse.reverse eval ad (InSeq [4]) []
          = Return (Scalar (1 / (2 * sqrt 4))) g'.
Proof.
  intros eval ad.
  apply (forward_reverse_closed_form Sqrt 4 eval (inl (OtherError "OSError")) []).
  simpl. lra.
Defined.

End engines_agree.

(** ** C6: a wrong number of inputs *)

Section dimension_mismatch.
Import autodiff.

Lemma nr_ret {A} bad (a : A) : never_raises bad (ret a).
Proof. intros g. discriminate. Qed.

Lemma nr_raise {A} bad e : e ≠ bad → never_raises bad (@raise A e).
Proof. intros Hne g H. injection H as ->. done. Qed.

Lemma nr_bind {A B} bad (c : M A) (k : A → M B) :
  never_raises bad c → (∀ a, never_raises bad (k a)) →
  never_raises bad (bind c k).
Proof.
  intros Hc Hk g. unfold bind. destruct (c g) as [a g' | e |] eqn:Hcg.
  - apply Hk.
  - intros H. injection H as ->. exact (Hc g Hcg).
  - discriminate.
Qed.

Lemma nr_list_comp {A B} bad (f : A → M B) (l : list A) :
  (∀ x, never_raises bad (f x)) → never_raises bad (list_comp l f).
Proof.
  intros Hf. induction l as [| x l IH]; simpl; [apply nr_ret |].
  apply nr_bind; [apply Hf |]. intros y.
  apply nr_bind; [apply IH |]. intros ys. apply nr_ret.
Qed.

Lemma nr_for_each {A S} bad (body : A → S → M S) (l : list A) :
  (∀ x s, never_raises bad (body x s)) →
  ∀ s, never_raises bad (for_each l body s).
Proof.
  intros Hb. induction l as [| x l IH]; intros s; simpl; [apply nr_ret |].
  apply nr_bind; [apply Hb | apply IH].
Qed.

Lemma nr_try {A} bad (c h : M A) :
  never_raises bad h → never_raises bad (try_except c h).
Proof.
  intros Hh g. unfold try_except. destruct (c g) as [a g' | e |].
  - discriminate.
  - apply Hh.
  - discriminate.
Qed.

Lemma nr_node_real bad n : never_raises bad (node.real n).
Proof. intros g. discriminate. Qed.

Lemma nr_node_init bad r : never_raises bad (node.__init__ r).
Proof. intros g. discriminate. Qed.

Lemma nr_gradiant bad root : never_raises bad (reverse._gradiant root).
Proof.
  intros g. unfold reverse._gradiant.
  destruct (reverse._calc_grad _ _ _ _ _); discriminate.
Qed.

Ltac nr_step :=
  first
    [ apply nr_ret
    | apply nr_raise; discriminate
    | apply nr_node_real
    | apply nr_node_init
    | apply nr_gradiant
    | apply nr_list_comp; intros ?
    | apply nr_bind; [| intros ?]
    | case_decide
    | match goal with
      | |- never_raises _ (match ?v with _ => _ end) => destruct v
      end ].

Lemma nr_getattr_real l n elem : never_raises (mismatch l n) (getattr_real elem).
Proof. unfold getattr_real, mismatch. repeat nr_step. Qed.

Lemma nr_getattr_dual l n elem : never_raises (mismatch l n) (getattr_dual elem).
Proof. unfold getattr_dual, mismatch. repeat nr_step. Qed.

Lemma nr_iter l n v : never_raises (mismatch l n) (iter v).
Proof. unfold iter, mismatch. repeat nr_step. Qed.

Lemma nr_getitem0 l n v : never_raises (mismatch l n) (getitem0 v).
Proof. unfold getitem0, mismatch. repeat nr_step. Qed.

Lemma nr_np_asarray l n jacob : never_raises (mismatch l n) (np_asarray jacob).
Proof.
  unfold np_asarray, mismatch.
  repeat first [ nr_step
               | match goal with
                 | |- never_raises _ (if ?b then _ else _) => destruct b
                 end ].
Qed.

Lemma nr_getitem l n gradiant key :
  never_raises (mismatch l n) (reverse.getitem gradiant key).
Proof. unfold reverse.getitem, mismatch. repeat nr_step. Qed.

Lemma nr_real_parts l n inputs result :
  never_raises (mismatch l n) (forward.real_parts inputs result).
Proof.
  unfold forward.real_parts.
  repeat first [ apply nr_getattr_real | apply nr_iter | apply nr_getitem0
               | (apply nr_raise; unfold mismatch; discriminate)
               | nr_step ].
Qed.

Lemma nr_dual_parts l n inputs result :
  never_raises (mismatch l n) (forward.dual_parts inputs result).
Proof.
  unfold forward.dual_parts.
  repeat first [ apply nr_getattr_dual | apply nr_iter | apply nr_getitem0
               | (apply nr_raise; unfold mismatch; discriminate)
               | nr_step ].
Qed.

Lemma nr_dual_forward l n self inputs :
  length (as_list inputs) = n_inputs self →
  (∀ args, never_raises (mismatch l n) (call (funcs self) args)) →
  never_raises (mismatch l n) (forward._dual_forward self inputs).
Proof.
  intros Hlen Hcall. unfold forward._dual_forward.
  case_decide; [done |]. case_decide; [apply Hcall |].
  apply nr_bind; [| intros ?; apply nr_np_asarray].
  apply nr_for_each. intros idx [jacob duals]. unfold forward.sweep.
  apply nr_bind; [apply Hcall | intros ?; apply nr_ret].
Qed.

Lemma nr_node_append bad n e : never_raises bad (node.append n e).
Proof. intros g. discriminate. Qed.

Lemma nr_apply_elem l n f z : never_raises (mismatch l n) (apply_elem f z).
Proof.
  unfold mismatch.
  destruct f; simpl;
    unfold elem_func.sin, elem_func.cos, elem_func.tan, elem_func.exp,
      elem_func.sqrt, elem_func.log, elem_func.logb, elem_func.arcsin,
      elem_func.arccos, elem_func.arctan, elem_func.sinh, elem_func.cosh,
      elem_func.tanh, elem_func.logistic;
    destruct z; repeat first [apply nr_node_append | nr_step].
Qed.

Lemma nr_unary l n f source args :
  never_raises (mismatch l n) (call (unary f source) args).
Proof.
  simpl. destruct args as [| x [| y args]];
    try (apply nr_raise; unfold mismatch; discriminate).
  apply nr_apply_elem.
Qed.

Lemma nr_reverse_get_value l n self inputs :
  length (as_list inputs) = n_inputs self →
  (∀ args, never_raises (mismatch l n) (call (funcs self) args)) →
  never_raises (mismatch l n) (reverse.get_value self inputs).
Proof.
  intros Hlen Hcall. unfold reverse.get_value.
  case_decide; [done |].
  repeat first [ apply Hcall | apply nr_getattr_real | apply nr_iter | nr_step ].
Qed.

Lemma nr_reverse l n eval self inputs :
  length (as_list inputs) = n_inputs self →
  (∀ args, never_raises (mismatch l n) (call (funcs self) args)) →
  never_raises (mismatch l n) (reverse.reverse eval self inputs).
Proof.
  intros Hlen Hcall. unfold reverse.reverse.
  case_decide; [done |].
  apply nr_bind; [repeat nr_step |]. intros nodes.
  apply nr_bind; [apply Hcall |]. intros result.
  destruct result;
    try (apply nr_try, nr_raise; unfold mismatch; discriminate).
  repeat first [ apply nr_getitem | nr_step ].
Qed.

(** C6.  When the number of inputs (one for a single number) differs from
    the number of arguments of the function, the value and the derivative
    operation of both engines raise the exception for the mismatch,
    whatever the function is: it is raised before the function is called
    and the store is not touched.  When the numbers are equal, no
    operation raises it (as long as the function itself does not). *)
Theorem dimension_mismatch (eval : reverse.py_eval) (self : AutoDiff)
    (inputs : pyinputs) (g : Graph) :
  let len := length (as_list inputs) in
  let err := mismatch len (n_inputs self) in
  (len ≠ n_inputs self →
     forward.get_value self inputs g = Raise err
     ∧ forward.forward self inputs g = Raise err
     ∧ reverse.get_value self inputs g = Raise err
     ∧ reverse.reverse eval self inputs g = Raise err)
  ∧ (len = n_inputs self →
     (∀ args, never_raises err (call (funcs self) args)) →
     forward.get_value self inputs g ≠ Raise err
     ∧ forward.forward self inputs g ≠ Raise err
     ∧ reverse.get_value self inputs g ≠ Raise err
     ∧ reverse.reverse eval self inputs g ≠ Raise err).
Proof.
  intros len err. split.
  - intros Hne.
    unfold forward.get_value, forward.forward, forward._dual_forward,
      reverse.get_value, reverse.reverse, bind.
    fold len. destruct (decide (len ≠ n_inputs self)) as [_ | Heq]; [| done].
    repeat split.
  - intros Heq Hcall. repeat split.
    + apply nr_bind; [now apply nr_dual_forward |].
      intros result. apply nr_real_parts.
    + apply nr_bind; [now apply nr_dual_forward |].
      intros result. apply nr_dual_parts.
    + now apply nr_reverse_get_value.
    + now apply nr_reverse.
Qed.

Lemma dimension_mismatch_witness :
  let eval : reverse.py_eval := fun _ _ => raise (OtherError "SyntaxError") in
  let ad := autodiff.__init__ (unary Sin (inl (OtherError "OSError"))) in
  (forward.get_value ad (InSeq [1%R; 2%R]) [] = Raise (mismatch 2 1)
   ∧ forward.forward ad (InSeq [1%R; 2%R]) [] = Raise (mismatch 2 1)
   ∧ reverse.get_value ad (InSeq [1%R; 2%R]) [] = Raise (mismatch 2 1)
   ∧ reverse.reverse eval ad (InSeq [1%R; 2%R]) [] = Raise (mismatch 2 1))
  ∧ (forward.get_value ad (InNum 1%R) [] ≠ Raise (mismatch 1 1)
     ∧ forward.forward ad (InNum 1%R) [] ≠ Raise (mismatch 1 1)
     ∧ reverse.get_value ad (InNum 1%R) [] ≠ Raise (mismatch 1 1)
     ∧ reverse.reverse eval ad (InNum 1%R) [] ≠ Raise (mismatch 1 1)).
Proof.
  intros eval ad. split.
  - apply (proj1 (dimension_mismatch eval ad (InSeq [1%R; 2%R]) [])).
    simpl. lia.
  - apply (proj2 (dimension_mismatch eval ad (InNum 1%R) [])).
    + reflexivity.
    + intros args. apply nr_unary.
Defined.

End dimension_mismatch.

(** ** C9: the seeds of the value operation of the forward engine *)

Section forward_seeds.
Import autodiff.

Lemma seed_one (inputs : list R) (idx : nat) :
  idx < length inputs →
  <[idx := forward.Dual__init__ (Dual.real (zeros inputs !!! idx)) (Some 1%R)]>
    (zeros inputs)
  = seeds inputs idx.
Proof.
  intros Hidx. apply list_eq. intros j.
  unfold seeds, zeros. rewrite list_lookup_imap, list_lookup_insert.
  rewrite length_fmap.
  destruct (lookup_lt_is_Some_2 inputs idx Hidx) as [x Hx].
  rewrite (list_lookup_total_correct _ idx (forward.Dual__init__ x (Some 0%R)))
    by (now rewrite list_lookup_fmap, Hx).
  case_decide as Hd.
  - destruct Hd as [<- _]. rewrite Hx. simpl. now rewrite decide_True.
  - rewrite list_lookup_fmap. destruct (inputs !! j) as [y |] eqn:Hy; [| done].
    simpl. rewrite decide_False; [done |]. intros ->. apply Hd. done.
Qed.

Lemma seed_back (inputs : list R) (idx : nat) :
  idx < length inputs →
  <[idx := forward.Dual__init__ (Dual.real (seeds inputs idx !!! idx))
             (Some 0%R)]> (seeds inputs idx)
  = zeros inputs.
Proof.
  intros Hidx. apply list_eq. intros j.
  unfold seeds, zeros. rewrite list_lookup_fmap, list_lookup_insert.
  rewrite length_imap.
  destruct (lookup_lt_is_Some_2 inputs idx Hidx) as [x Hx].
  rewrite (list_lookup_total_correct _ idx (Dual.mk x 1%R))
    by (rewrite list_lookup_imap, Hx; simpl; now rewrite decide_True).
  case_decide as Hd.
  - destruct Hd as [<- _]. now rewrite Hx.
  - rewrite list_lookup_imap. destruct (inputs !! j) as [y |] eqn:Hy; [| done].
    simpl. rewrite decide_False; [done |]. intros ->. apply Hd. done.
Qed.

Lemma sweeps_run (self : AutoDiff) (inputs : list R) :
  ∀ (l : list nat) (jacob : list pyval) (g : Graph),
    (∀ idx, idx ∈ l → idx < length inputs) →
    for_each l (forward.sweep self) (jacob, zeros inputs) g
    = (let* rs := list_comp l (fun idx =>
                    call (funcs self) (VDual <$> seeds inputs idx)) in
       ret (jacob ++ rs, zeros inputs)) g.
Proof.
  induction l as [| idx l IH]; intros jacob g Hl.
  - simpl. unfold bind, ret. now rewrite app_nil_r.
  - assert (idx < length inputs) as Hidx by (apply Hl; now left).
    simpl. unfold forward.sweep at 1.
    rewrite (seed_one inputs idx Hidx). unfold bind, ret.
    destruct (call (funcs self) (VDual <$> seeds inputs idx) g)
      as [r g' | e |]; [| reflexivity | reflexivity].
    rewrite (seed_back inputs idx Hidx).
    rewrite IH by (intros i Hi; apply Hl; now right).
    unfold bind, ret.
    destruct (list_comp l _ g') as [rs g'' | e |]; [| reflexivity | reflexivity].
    now rewrite <- app_assoc.
Qed.

Lemma dual_forward_seeded (self : AutoDiff) (inputs : pyinputs) (g : Graph) :
  length (as_list inputs) = n_inputs self →
  forward._dual_forward self inputs g
  = seeded_calls self (as_list inputs) g.
Proof.
  intros Hlen. unfold forward._dual_forward, seeded_calls.
  case_decide; [done |]. case_decide as H1.
  - destruct (as_list inputs) as [| x [| y l]]; [done | | done]. reflexivity.
  - fold (zeros (as_list inputs)). unfold bind at 1.
    rewrite sweeps_run by (intros idx Hidx; apply elem_of_seq in Hidx; lia).
    unfold bind, ret.
    destruct (list_comp _ _ g) as [rs g' | e |]; reflexivity.
Qed.

(** C9 as the specification states it does not hold: the value operation
    starts with [_dual_forward], and for the function [lambda x: x] at
    [3] the function is called with, and returns, [Dual(3, 1)]: the
    derivative of the seed is [1], the default of the constructor, not
    [0]. *)
Lemma forward_value_seed_counterexample :
  let ad := autodiff.__init__ (identity (inr "lambda x: x")) in
  forward._dual_forward ad (InNum 3%R) []
  = Return (VDual (Dual.mk 3%R 1%R)) []
  ∧ forward._dual_forward ad (InNum 3%R) []
    ≠ call (funcs ad) [VDual (Dual.mk 3%R 0%R)] [].
Proof.
  split; [reflexivity |]. simpl. unfold ret. intros H.
  injection H as H. lra.
Qed.

(** C9, amended.  The value operation of the forward engine seeds the
    inputs as the derivative operation does: for a function of one
    argument the dual passed to it has derivative [1]; for a function of
    [N > 1] arguments the function is called once per input [idx], with
    derivative [1] for input [idx] and [0] for every other input.  The
    value returned is made of the real parts of the results. *)
Theorem forward_value_seeds (self : AutoDiff) (inputs : pyinputs) (g : Graph) :
  length (as_list inputs) = n_inputs self →
  forward.get_value self inputs g
  = (let* result := seeded_calls self (as_list inputs) in
     forward.real_parts (as_list inputs) result) g
  ∧ (∀ x, as_list inputs = [x] →
       seeded_calls self (as_list inputs)
       = call (funcs self) [VDual (Dual.mk x 1%R)])
  ∧ (∀ idx j x, as_list inputs !! j = Some x →
       seeds (as_list inputs) idx !! j
       = Some (Dual.mk x (if decide (j = idx) then 1%R else 0%R))).
Proof.
  intros Hlen. split; [| split].
  - unfold forward.get_value, bind.
    now rewrite dual_forward_seeded.
  - intros x Hx. rewrite Hx. reflexivity.
  - intros idx j x Hj. unfold seeds. now rewrite list_lookup_imap, Hj.
Qed.

Lemma forward_value_seeds_witness :
  let ad := autodiff.__init__ (identity (inr "lambda x: x")) in
  forward.get_value ad (InNum 3%R) []
  = (let* result := seeded_calls ad [3%R] in
     forward.real_parts [3%R] result) []
  ∧ (∀ x, [3%R] = [x] →
       seeded_calls ad [3%R] = call (funcs ad) [VDual (Dual.mk x 1%R)])
  ∧ (∀ idx j x, [3%R] !! j = Some x →
       seeds [3%R] idx !! j
       = Some (Dual.mk x (if decide (j = idx) then 1%R else 0%R))).
Proof.
  intros ad. apply (forward_value_seeds ad (InNum 3%R) []). reflexivity.
Defined.

End forward_seeds.

(** ** C10: the errors of the branch for several outputs *)

Section multi_output_errors.
Import autodiff.

(** C10.  When the function has returned something other than one node
    (the branch for several outputs), every exception raised in the body
    of the [try] statement (the extraction of the source of each output
    and its evaluation again, with the [TypeError]s of the operators and
    of the library functions and any error of arithmetic in an output) is
    replaced by the one [ValueError] with the message about the criteria;
    no other exception leaves the branch. *)
Theorem multi_output_value_error (eval : reverse.py_eval) (self : AutoDiff)
    (inputs : pyinputs) (g g1 g2 : Graph) (nodes : list nat)
    (result : pyval) :
  length (as_list inputs) = n_inputs self →
  list_comp (as_list inputs) node.__init__ g = Return nodes g1 →
  call (funcs self) (VNode <$> nodes) g1 = Return result g2 →
  (∀ n, result ≠ VNode n) →
  (∀ e,
     reverse.reverse_outputs eval self (as_list inputs) nodes result g2
     = Raise e →
     reverse.reverse eval self inputs g = Raise (ValueError reverse.err_msg))
  ∧ (∀ e,
       reverse.reverse eval self inputs g = Raise e →
       e = ValueError reverse.err_msg).
Proof.
  intros Hlen Hnodes Hcall Hmulti.
  assert (reverse.reverse eval self inputs g
          = try_except
              (reverse.reverse_outputs eval self (as_list inputs) nodes result)
              (raise (ValueError reverse.err_msg)) g2) as Hrev.
  { unfold reverse.reverse. case_decide; [done |].
    unfold bind. rewrite Hnodes, Hcall.
    destruct result; try reflexivity. now destruct (Hmulti n). }
  rewrite Hrev. unfold try_except, raise. split.
  - intros e He. now rewrite He.
  - intros e.
    destruct (reverse.reverse_outputs eval self (as_list inputs) nodes result g2);
      [discriminate | | discriminate].
    intros H. now injection H as <-.
Qed.

Lemma multi_output_value_error_witness :
  let eval : reverse.py_eval := fun _ _ => raise (OtherError "SyntaxError") in
  let constant :=
    {| call := fun _ => ret (VNum 5%R);
       co_argcount := 1;
       co_varnames := ["x"];
       getsource := inr "lambda x: 5" |} in
  let ad := autodiff.__init__ constant in
  let g1 := [Node.mk 2%R []] in
  (∀ e,
     reverse.reverse_outputs eval ad [2%R] [0] (VNum 5%R) g1 = Raise e →
     reverse.reverse eval ad (InNum 2%R) []
     = Raise (ValueError reverse.err_msg))
  ∧ (∀ e,
       reverse.reverse eval ad (InNum 2%R) [] = Raise e →
       e = ValueError reverse.err_msg).
Proof.
  intros eval constant ad g1.
  apply (multi_output_value_error eval ad (InNum 2%R) [] g1 g1 [0] (VNum 5%R)).
  - reflexivity.
  - reflexivity.
  - reflexivity.
  - intros n. discriminate.
Defined.

End multi_output_errors.

(** ** C5: the shape of the derivative *)

Section jacobian_shape.
Import autodiff.



Lemma list_comp_getattr_dual (ds : list Dual.t) (g : Graph) :
  list_comp (VDual <$> ds) getattr_dual g = Return (Dual.dual <$> ds) g.
Proof.
  induction ds as [| d ds IH]; [reflexivity |].
  cbn [fmap list_fmap list_comp] in *. unfold bind at 1. cbn [getattr_dual].
  unfold ret at 1, bind at 1. now rewrite IH.
Qed.





Lemma rows_dual (dss : list (list Dual.t)) (g : Graph) :
  list_comp (dual_row <$> dss)
    (fun sets => let* elems := iter sets in list_comp elems getattr_dual) g
  = Return ((fun ds : list Dual.t => Dual.dual <$> ds) <$> dss) g.
Proof.
  induction dss as [| ds dss IH]; [reflexivity |].
  cbn [fmap list_fmap list_comp] in *. unfold bind at 1 2.
  unfold dual_row at 1. cbn [iter].
  unfold ret at 1. rewrite list_comp_getattr_dual.
  unfold bind at 1. now rewrite IH.
Qed.



Lemma np_asarray_duals (ds : list Dual.t) (g : Graph) :
  np_asarray (VDual <$> ds) g = Return (VList (VDual <$> ds)) g.
Proof.
  unfold np_asarray.
  assert (existsb is_list (VDual <$> ds) = false) as ->.
  { induction ds as [| d ds IH]; [reflexivity | exact IH]. }
  destruct ds; reflexivity.
Qed.

Lemma forallb_dual_rows (M : nat) (dss : list (list Dual.t)) :
  Forall (fun ds => length ds = M) dss →
  forallb (list_of_length M) (dual_row <$> dss) = true.
Proof.
  induction 1 as [| ds dss Hds _ IH]; [reflexivity |].
  cbn [fmap list_fmap forallb]. unfold dual_row at 1. cbn [list_of_length].
  rewrite length_fmap, bool_decide_eq_true_2 by exact Hds. exact IH.
Qed.

Lemma np_asarray_rows (row : list pyval) (rest : list pyval) (g : Graph) :
  forallb (list_of_length (length row)) (VList row :: rest) = true →
  np_asarray (VList row :: rest) g = Return (VList (VList row :: rest)) g.
Proof. intros H. unfold np_asarray. now rewrite H. Qed.

Lemma np_asarray_lists (M : nat) (dss : list (list Dual.t)) (g : Graph) :
  Forall (fun ds => length ds = M) dss →
  np_asarray (dual_row <$> dss) g = Return (VList (dual_row <$> dss)) g.
Proof.
  intros Hdss. pose proof (forallb_dual_rows M dss Hdss) as Hall.
  destruct dss as [| ds0 dss]; [reflexivity |].
  apply Forall_cons in Hdss as [H0 _].
  change (dual_row <$> ds0 :: dss)
    with (VList (VDual <$> ds0) :: (dual_row <$> dss)) in *.
  apply np_asarray_rows. now rewrite length_fmap, H0.
Qed.

Lemma dual_parts_one_scalar (xs : list R) (d : Dual.t) (g : Graph) :
  length xs = 1 →
  forward.dual_parts xs (VDual d) g = Return (Scalar (Dual.dual d)) g.
Proof.
  intros H1. unfold forward.dual_parts.
  destruct (decide (length xs = 1)) as [_ | Hc]; [| contradiction].
  reflexivity.
Qed.

Lemma dual_parts_one_list (xs : list R) (ds : list Dual.t) (g : Graph) :
  length xs = 1 →
  forward.dual_parts xs (VList (VDual <$> ds)) g
  = Return (Vector (Dual.dual <$> ds)) g.
Proof.
  intros H1. unfold forward.dual_parts.
  destruct (decide (length xs = 1)) as [_ | Hc]; [| contradiction].
  unfold bind at 1. cbn [iter]. unfold ret at 1. cbv beta iota.
  unfold bind. rewrite list_comp_getattr_dual. reflexivity.
Qed.

Lemma dual_parts_many_duals (xs : list R) (d : Dual.t) (ds : list Dual.t)
    (g : Graph) :
  length xs ≠ 1 →
  forward.dual_parts xs (VList (VDual <$> d :: ds)) g
  = Return (Vector (Dual.dual <$> d :: ds)) g.
Proof.
  intros H1. unfold forward.dual_parts.
  destruct (decide (length xs = 1)) as [Hc | _]; [contradiction |].
  unfold bind at 1. cbn [fmap list_fmap getitem0]. unfold ret at 1.
  cbv beta iota. unfold bind at 1. cbn [iter]. unfold ret at 1.
  cbv beta iota.
  unfold bind.
  rewrite (list_comp_getattr_dual (d :: ds) g
           : list_comp (VDual d :: (VDual <$> ds)) getattr_dual g = _).
  reflexivity.
Qed.

Lemma dual_parts_many_rows (xs : list R) (ds0 : list Dual.t)
    (dss : list (list Dual.t)) (g : Graph) :
  length xs ≠ 1 →
  forward.dual_parts xs (VList (dual_row <$> ds0 :: dss)) g
  = Return (Matrix (transpose
                      ((fun ds : list Dual.t => Dual.dual <$> ds)
                         <$> ds0 :: dss))) g.
Proof.
  intros H1. unfold forward.dual_parts.
  destruct (decide (length xs = 1)) as [Hc | _]; [contradiction |].
  unfold bind at 1. cbn [fmap list_fmap getitem0]. unfold ret at 1.
  cbv beta iota. unfold dual_row at 1. cbv beta iota.
  unfold bind at 1. cbn [iter]. unfold ret at 1. cbv beta iota.
  unfold bind at 1.
  rewrite (rows_dual (ds0 :: dss) g
           : list_comp (VList (VDual <$> ds0) :: (dual_row <$> dss)) _ g = _).
  reflexivity.
Qed.


Lemma gradiant_returns (g : Graph) (root : nat) :
  acyclic g → ∃ gradiant, reverse._gradiant root g = Return gradiant g.
Proof.
  intros Hacyc.
  destruct (walk_terminates g Hacyc (S (length g)) [] root) as [ps Hps].
  { constructor. }
  { intros a Ha. now apply elem_of_nil in Ha. }
  { simpl. lia. }
  eexists. unfold reverse._gradiant. now rewrite calc_grad_walk, Hps.
Qed.

Lemma init_nodes_run (xs : list R) :
  ∀ g : Graph,
    list_comp xs node.__init__ g
    = Return (seq (length g) (length xs))
             (g ++ ((fun x => Node.mk x []) <$> xs)).
Proof.
  induction xs as [| x xs IH]; intros g.
  - simpl. unfold ret. now rewrite app_nil_r.
  - cbn [list_comp]. unfold bind at 1. unfold node.__init__ at 1.
    unfold bind at 1. rewrite IH. unfold ret.
    rewrite length_app, Nat.add_1_r. cbn [length seq fmap list_fmap].
    now rewrite <- app_assoc.
Qed.

Lemma edges_app_old (g l : Graph) (i : nat) :
  i < length g → edges (g ++ l) i = edges g i.
Proof. intros Hi. unfold edges. now rewrite lookup_total_app_l. Qed.

Lemma edges_app_new (g l : Graph) (i : nat) :
  length g ≤ i → edges (g ++ l) i = edges l (i - length g).
Proof. intros Hi. unfold edges. now rewrite lookup_total_app_r. Qed.

Lemma forward_edges_new_nodes (g : Graph) (xs : list R) :
  forward_edges g → forward_edges (g ++ ((fun x => Node.mk x []) <$> xs)).
Proof.
  intros Hg i child partial Hin. rewrite length_app.
  destruct (decide (i < length g)) as [Hi | Hi].
  - rewrite edges_app_old in Hin by assumption.
    specialize (Hg i child partial Hin). lia.
  - rewrite edges_app_new in Hin by lia. unfold edges in Hin.
    rewrite list_lookup_total_alt, list_lookup_fmap in Hin.
    destruct (xs !! (i - length g)); simpl in Hin;
      now apply elem_of_nil in Hin.
Qed.

Lemma deepcopy_forward (g : Graph) :
  forward_edges g → forward_edges (g ++ (reverse.shift (length g) <$> g)).
Proof.
  intros Hg i child partial Hin. rewrite length_app, length_fmap.
  destruct (decide (i < length g)) as [Hi | Hi].
  - rewrite edges_app_old in Hin by assumption.
    specialize (Hg i child partial Hin). lia.
  - rewrite edges_app_new in Hin by lia. unfold edges in Hin.
    rewrite list_lookup_total_alt, list_lookup_fmap in Hin.
    destruct (g !! (i - length g)) as [nd |] eqn:Hnd; simpl in Hin;
      [| now apply elem_of_nil in Hin].
    apply list_elem_of_fmap in Hin as ([c p] & Heq & Hcp).
    simpl in Heq. injection Heq as -> ->.
    assert (edges g (i - length g) = Node.partial_derivs nd) as He.
    { unfold edges. now rewrite (list_lookup_total_correct _ _ _ Hnd). }
    rewrite <- He in Hcp. specialize (Hg _ c p Hcp). lia.
Qed.















Lemma forward_edges_nil : forward_edges [].
Proof. intros i child partial Hin. now apply elem_of_nil in Hin. Qed.


End jacobian_shape.

(** ** The examples of the specification, run on the model *)

Section examples.
Local Open Scope R_scope.

(** [f(x) = 2x]: the value at [3] is [6], the derivative is [2] in both
    modes. *)
Lemma double_example :
  let ad := autodiff.__init__ double in
  (∃ v, forward.get_value ad (InNum 3) [] = Return (Scalar v) [] ∧ v = 6)
  ∧ (∃ v g, reverse.get_value ad (InNum 3) [] = Return (Scalar v) g ∧ v = 6)
  ∧ (∃ d, forward.forward ad (InNum 3) [] = Return (Scalar d) [] ∧ d = 2)
  ∧ (∃ d g, reverse.reverse eval_name ad (InNum 3) [] = Return (Scalar d) g
            ∧ d = 2).
Proof.
  intros ad. split; [| split; [| split]].
  - eexists. split; [reflexivity | simpl; lra].
  - eexists _, _. split; [reflexivity | simpl; lra].
  - eexists. split; [reflexivity | simpl; lra].
  - eexists _, _. split; [vm_compute; reflexivity | lra].
Qed.

Lemma sqrt_4 : sqrt 4 = 2.
Proof. replace 4 with (2 * 2) by lra. apply sqrt_square. lra. Qed.

(** [f(x) = sqrt(x) + 1] at [4] in reverse mode: the derivative is
    [0.25]. *)
Lemma sqrt_plus_one_example :
  ∃ d g, reverse.reverse eval_name (autodiff.__init__ sqrt_plus_one)
           (InNum 4) [] = Return (Scalar d) g
         ∧ d = 0.25.
Proof.
  eexists _, _. split; [reflexivity |].
  with_strategy transparent [gmap_empty]
    cbv -[py_pow Rplus Rmult Rdiv Rinv Ropp Rminus IZR].
  rewrite py_pow_minus_half by lra.
  rewrite sqrt_4. lra.
Qed.

(** [f(x, y) = [1.5x + xy, x^y]] at [(1, 2)]: the value is [[3.5, 1]]
    and the jacobian of the forward engine is [[[3.5, 1], [2, 0]]]. *)
Lemma two_outputs_example :
  let ad := autodiff.__init__ two_outputs in
  (∃ v, forward.get_value ad (InSeq [1; 2]) [] = Return (Vector v) []
        ∧ v = [3.5; 1])
  ∧ (∃ rows, forward.forward ad (InSeq [1; 2]) [] = Return (Matrix rows) []
             ∧ rows = [[3.5; 1]; [2; 0]]).
Proof.
  intros ad. split.
  - eexists. split; [reflexivity |]. simpl.
    rewrite py_pow_2. unfold Rsqr. repeat f_equal; lra.
  - eexists. split; [reflexivity |]. simpl.
    rewrite py_pow_2. unfold np.log, Rsqr. rewrite ln_1.
    cbv -[Rplus Rmult Rdiv Rinv Ropp Rminus IZR].
    repeat f_equal; lra.
Qed.

End examples.

(** ** The comparisons of duals *)

Section dual_comparisons.
Local Open Scope R_scope.
Import Dual.

Lemma py_eq_true (x y : R) : py_eq x y = true ↔ x = y.
Proof. unfold py_eq. destruct (Req_dec_T x y); split; intros; congruence. Qed.

Lemma py_ne_eq (x y : R) : py_ne x y = negb (py_eq x y).
Proof. unfold py_ne, py_eq. now destruct (Req_dec_T x y). Qed.

Lemma py_le_gt (x y : R) : py_le x y = negb (py_gt x y).
Proof.
  unfold py_le, py_gt.
  destruct (Rle_dec x y), (Rgt_dec x y); simpl; try reflexivity; lra.
Qed.

Lemma py_ge_lt (x y : R) : py_ge x y = negb (py_lt x y).
Proof.
  unfold py_ge, py_lt.
  destruct (Rge_dec x y), (Rlt_dec x y); simpl; try reflexivity; lra.
Qed.

Lemma py_lt_true (x y : R) : py_lt x y = true ↔ x < y.
Proof. unfold py_lt. destruct (Rlt_dec x y); split; intros; congruence. Qed.

Lemma py_gt_true (x y : R) : py_gt x y = true ↔ x > y.
Proof. unfold py_gt. destruct (Rgt_dec x y); split; intros; congruence. Qed.

(** X1.  [!=] on a dual is the negation of [==] for every operand
    (both raise the same [TypeError] for an operand that is neither a
    number nor a dual); a dual is never equal to a plain number; two duals
    are equal exactly when their real parts and their dual parts are
    equal. *)
Theorem dual_eq_ne (a : Dual.t) (other : pyval) :
  dual.__ne__ a other
  = match dual.__eq__ a other with
    | inr b => inr (negb b)
    | inl e => inl e
    end
  ∧ (∀ k, dual.__eq__ a (VNum k) = inr false)
  ∧ (∀ b, dual.__eq__ a (VDual b) = inr true ↔ a = b)
  ∧ (match other with VNum _ | VDual _ => True | _ => False end
     ∨ ∃ msg, dual.__eq__ a other = inl (TypeError msg)).
Proof.
  split; [| split; [| split]].
  - destruct other; try reflexivity. simpl. rewrite !py_ne_eq.
    destruct (py_eq (real a) (real d)), (py_eq (dual a) (dual d)); reflexivity.
  - reflexivity.
  - intros b. simpl. destruct a as [ar ad], b as [br bd]. simpl.
    destruct (py_eq ar br) eqn:Hr, (py_eq ad bd) eqn:Hd; simpl;
      split; intros H; try discriminate; try reflexivity.
    + apply py_eq_true in Hr, Hd. congruence.
    + injection H as -> ->. assert (py_eq bd bd = true) by now apply py_eq_true.
      congruence.
    + injection H as -> ->. assert (py_eq br br = true) by now apply py_eq_true.
      congruence.
    + injection H as -> ->. assert (py_eq br br = true) by now apply py_eq_true.
      congruence.
  - destruct other; auto; right; eexists; reflexivity.
Qed.

(** X2.  The order comparisons of a dual look at the real parts
    only: [<=] is the negation of [>] and [>=] the negation of [<] for
    every operand, [<] and [>] hold exactly when they hold of the real
    parts, and two duals with equal real parts and different dual parts
    are [<=] and [>=] each other without being [==]. *)
Theorem dual_order (a : Dual.t) (other : pyval) :
  dual.__le__ a other
  = match dual.__gt__ a other with
    | inr b => inr (negb b)
    | inl e => inl e
    end
  ∧ dual.__ge__ a other
    = match dual.__lt__ a other with
      | inr b => inr (negb b)
      | inl e => inl e
      end
  ∧ (∀ b, (dual.__lt__ a (VDual b) = inr true ↔ real a < real b)
          ∧ (dual.__gt__ a (VDual b) = inr true ↔ real a > real b))
  ∧ (∀ k, (dual.__lt__ a (VNum k) = inr true ↔ real a < k)
          ∧ (dual.__gt__ a (VNum k) = inr true ↔ real a > k))
  ∧ (∀ b, real a = real b → dual a ≠ dual b →
          dual.__le__ a (VDual b) = inr true
          ∧ dual.__ge__ a (VDual b) = inr true
          ∧ dual.__eq__ a (VDual b) = inr false).
Proof.
  split; [| split; [| split; [| split]]].
  - destruct other; try reflexivity; simpl; rewrite py_le_gt;
      now destruct (py_gt _ _).
  - destruct other; try reflexivity; simpl; rewrite py_ge_lt;
      now destruct (py_lt _ _).
  - intros b. simpl. split.
    + rewrite <- py_lt_true. destruct (py_lt _ _); split; congruence.
    + rewrite <- py_gt_true. destruct (py_gt _ _); split; congruence.
  - intros k. simpl. split.
    + rewrite <- py_lt_true. destruct (py_lt _ _); split; congruence.
    + rewrite <- py_gt_true. destruct (py_gt _ _); split; congruence.
  - intros b Hr Hd. simpl. rewrite py_le_gt, py_ge_lt.
    destruct (py_gt (real a) (real b)) eqn:Hgt.
    { apply py_gt_true in Hgt. lra. }
    destruct (py_lt (real a) (real b)) eqn:Hlt.
    { apply py_lt_true in Hlt. lra. }
    simpl. split; [reflexivity | split; [reflexivity |]].
    destruct (py_eq (dual a) (dual b)) eqn:He.
    { apply py_eq_true in He. contradiction. }
    now rewrite andb_false_r.
Qed.

Lemma dual_order_witness :
  dual.__le__ (Dual.mk 1 2) (VDual (Dual.mk 1 3)) = inr true
  ∧ dual.__ge__ (Dual.mk 1 2) (VDual (Dual.mk 1 3)) = inr true
  ∧ dual.__eq__ (Dual.mk 1 2) (VDual (Dual.mk 1 3)) = inr false.
Proof.
  apply (dual_order (Dual.mk 1 2) (VNum 0)); simpl; [reflexivity | lra].
Defined.

End dual_comparisons.

(** ** The algebra of duals *)

Section dual_algebra.
Local Open Scope R_scope.
Import Dual.

Lemma frac_part_pred (y : R) : frac_part (y - 1) = frac_part y.
Proof.
  rewrite Rminus_fp1.
  - change 1 with (IZR 1). rewrite frac_part_int. lra.
  - change 1 with (IZR 1). rewrite frac_part_int. apply base_fp.
Qed.

Lemma Int_part_pred (y : R) : Int_part (y - 1) = (Int_part y - 1)%Z.
Proof.
  rewrite Rminus_Int_part1.
  - change 1 with (IZR 1). now rewrite Int_part_int.
  - change 1 with (IZR 1). rewrite frac_part_int. apply base_fp.
Qed.

(** [x ** (y - 1) = x ** y / x] for a base that is not zero, when the
    power is an integer power or the base is positive. *)
Lemma py_pow_pred (x y : R) : 0 < x -> py_pow x (y - 1) = py_pow x y / x.
Proof.
  intros Hx. unfold py_pow. rewrite frac_part_pred, Int_part_pred.
  destruct (Req_dec_T (frac_part y) 0).
  - unfold Z.sub. rewrite powerRZ_add by lra. simpl. unfold Rdiv.
    now rewrite Rmult_1_r.
  - destruct (Rlt_dec 0 x); [| contradiction].
    unfold Rminus. rewrite Rpower_plus, Rpower_Ropp, Rpower_1 by assumption.
    reflexivity.
Qed.

Lemma py_pow_0 (x : R) : py_pow x 0 = 1.
Proof. change 0 with (IZR 0). now rewrite py_pow_int. Qed.

Lemma py_pow_1 (x : R) : py_pow x 1 = x.
Proof. change 1 with (IZR 1). rewrite py_pow_int. simpl. lra. Qed.

Lemma py_pow_opp_1 (x : R) : py_pow x (-1) = / x.
Proof. change (-1) with (IZR (-1)). rewrite py_pow_int. simpl. now rewrite Rmult_1_r. Qed.

Lemma py_pow_opp_2 (x : R) : py_pow x (-2) = / x².
Proof.
  change (-2) with (IZR (-2)). rewrite py_pow_int. simpl. unfold Rsqr.
  now rewrite Rmult_1_r.
Qed.

Ltac run_dual :=
  cbv [operator.add operator.sub operator.mul operator.truediv operator.pow
       operator.neg operator.binary operator.of_dual
       dual.__add__ dual.__radd__ dual.__sub__ dual.__rsub__ dual.__mul__
       dual.__rmul__ dual.__truediv__ dual.__rtruediv__ dual.__pow__
       dual.__rpow__ dual.__neg__ bind ret raise real dual].

Ltac dual_eq :=
  run_dual; f_equal; f_equal; f_equal;
  rewrite ?py_pow_2; unfold Rsqr, Rdiv; try ring; try (field; assumption).

(** X3.  On duals, [+] and [*] are commutative and
    associative, [*] distributes over [+], [a - b] is [a + (-b)],
    [a - a] is [Dual(0, 0)] and [-(-a)] is [a]. *)
Theorem dual_ring_laws (a b c : Dual.t) (g : Graph) :
  operator.add (VDual a) (VDual b) g = operator.add (VDual b) (VDual a) g
  ∧ operator.mul (VDual a) (VDual b) g = operator.mul (VDual b) (VDual a) g
  ∧ (let* ab := operator.add (VDual a) (VDual b) in
     operator.add ab (VDual c)) g
    = (let* bc := operator.add (VDual b) (VDual c) in
       operator.add (VDual a) bc) g
  ∧ (let* ab := operator.mul (VDual a) (VDual b) in
     operator.mul ab (VDual c)) g
    = (let* bc := operator.mul (VDual b) (VDual c) in
       operator.mul (VDual a) bc) g
  ∧ (let* bc := operator.add (VDual b) (VDual c) in
     operator.mul (VDual a) bc) g
    = (let* ab := operator.mul (VDual a) (VDual b) in
       let* ac := operator.mul (VDual a) (VDual c) in
       operator.add ab ac) g
  ∧ operator.sub (VDual a) (VDual b) g
    = (let* nb := operator.neg (VDual b) in operator.add (VDual a) nb) g
  ∧ operator.sub (VDual a) (VDual a) g = Return (VDual (Dual.mk 0 0)) g
  ∧ (let* na := operator.neg (VDual a) in operator.neg na) g
    = Return (VDual a) g.
Proof.
  destruct a as [ar ad], b as [br bd], c as [cr cd].
  repeat split; dual_eq.
Qed.

(** X4.  In an operation with a dual, a plain
    number [k] acts as [Dual(k, 0)], on either side of [+], [-] and [*];
    of [/] when the divisor is not zero; of [**] when the base is
    positive. *)
Theorem dual_number_promotion (a : Dual.t) (k : R) (g : Graph) :
  let K := VDual (Dual.mk k 0) in
  operator.add (VDual a) (VNum k) g = operator.add (VDual a) K g
  ∧ operator.add (VNum k) (VDual a) g = operator.add K (VDual a) g
  ∧ operator.sub (VDual a) (VNum k) g = operator.sub (VDual a) K g
  ∧ operator.sub (VNum k) (VDual a) g = operator.sub K (VDual a) g
  ∧ operator.mul (VDual a) (VNum k) g = operator.mul (VDual a) K g
  ∧ operator.mul (VNum k) (VDual a) g = operator.mul K (VDual a) g
  ∧ (k ≠ 0 →
     operator.truediv (VDual a) (VNum k) g = operator.truediv (VDual a) K g)
  ∧ (real a ≠ 0 →
     operator.truediv (VNum k) (VDual a) g = operator.truediv K (VDual a) g)
  ∧ (0 < real a →
     operator.pow (VDual a) (VNum k) g = operator.pow (VDual a) K g)
  ∧ (0 < k →
     operator.pow (VNum k) (VDual a) g = operator.pow K (VDual a) g).
Proof.
  destruct a as [ar ad]. intros K. unfold K.
  split; [| split; [| split; [| split; [| split; [| split; [| split;
    [| split; [| split]]]]]]]]; try (dual_eq; fail).
  - intros Hk. dual_eq.
  - intros Hr. dual_eq.
  - intros Hr. run_dual. rewrite py_pow_pred by assumption.
    f_equal. f_equal. f_equal. unfold np.log, Rdiv. ring.
  - intros Hk. run_dual. f_equal. f_equal. f_equal. unfold np.log, Rdiv. ring.
Qed.

Lemma dual_number_promotion_witness :
  let a := Dual.mk 2 1 in
  let K := VDual (Dual.mk 3 0) in
  operator.truediv (VDual a) (VNum 3) [] = operator.truediv (VDual a) K []
  ∧ operator.truediv (VNum 3) (VDual a) [] = operator.truediv K (VDual a) []
  ∧ operator.pow (VDual a) (VNum 3) [] = operator.pow (VDual a) K []
  ∧ operator.pow (VNum 3) (VDual a) [] = operator.pow K (VDual a) [].
Proof.
  pose proof (dual_number_promotion (Dual.mk 2 1) 3 []) as H. simpl in H.
  destruct H as (_ & _ & _ & _ & _ & _ & H1 & H2 & H3 & H4).
  split; [apply H1; lra | split; [apply H2; lra | split;
    [apply H3; lra | apply H4; lra]]].
Defined.

(** X5.  On duals, subtraction undoes addition
    and addition undoes subtraction; division by a dual whose real part is
    not zero undoes the multiplication by it, and the multiplication
    undoes the division. *)
Theorem dual_inverse_operations (a b : Dual.t) (g : Graph) :
  (let* s := operator.add (VDual a) (VDual b) in
   operator.sub s (VDual b)) g = Return (VDual a) g
  ∧ (let* d := operator.sub (VDual a) (VDual b) in
     operator.add d (VDual b)) g = Return (VDual a) g
  ∧ (real b ≠ 0 →
     (let* p := operator.mul (VDual a) (VDual b) in
      operator.truediv p (VDual b)) g = Return (VDual a) g
     ∧ (let* q := operator.truediv (VDual a) (VDual b) in
        operator.mul q (VDual b)) g = Return (VDual a) g).
Proof.
  destruct a as [ar ad], b as [br bd]. simpl.
  split; [dual_eq | split; [dual_eq |]].
  intros Hb. split; dual_eq.
Qed.

Lemma dual_inverse_operations_witness :
  let a := Dual.mk 3 4 in
  let b := Dual.mk 1 2 in
  (let* p := operator.mul (VDual a) (VDual b) in
   operator.truediv p (VDual b)) [] = Return (VDual a) []
  ∧ (let* q := operator.truediv (VDual a) (VDual b) in
     operator.mul q (VDual b)) [] = Return (VDual a) [].
Proof.
  apply (dual_inverse_operations (Dual.mk 3 4) (Dual.mk 1 2) []). simpl. lra.
Defined.

(** X6.  For a dual [a]: [a ** 1] is [a] and
    [a ** 2] is [a * a]; when the real part of [a] is not zero, [a ** 0]
    is [Dual(1, 0)] and [a ** -1] is [1 / a].  (The derivative of
    [a ** k] is computed from [a.real ** (k - 1)], which Python refuses
    for a zero real part and [k] at most zero.) *)
Theorem dual_small_powers (a : Dual.t) (g : Graph) :
  operator.pow (VDual a) (VNum 1) g = Return (VDual a) g
  ∧ operator.pow (VDual a) (VNum 2) g = operator.mul (VDual a) (VDual a) g
  ∧ (real a ≠ 0 →
     operator.pow (VDual a) (VNum 0) g = Return (VDual (Dual.mk 1 0)) g
     ∧ operator.pow (VDual a) (VNum (-1)) g
       = operator.truediv (VNum 1) (VDual a) g).
Proof.
  destruct a as [ar ad]. simpl.
  split; [| split].
  - run_dual. replace (1 - 1) with 0 by lra. rewrite py_pow_0, py_pow_1.
    f_equal. f_equal. f_equal. ring.
  - run_dual. replace (2 - 1) with 1 by lra. rewrite py_pow_2, py_pow_1.
    unfold Rsqr. f_equal. f_equal. f_equal. ring.
  - intros Hr. split.
    + run_dual. rewrite py_pow_0. f_equal. f_equal. f_equal. ring.
    + run_dual. replace (-1 - 1) with (-2) by lra.
      rewrite py_pow_opp_1, py_pow_opp_2, py_pow_2.
      f_equal. f_equal. f_equal; unfold Rdiv; ring.
Qed.

Lemma dual_small_powers_witness :
  operator.pow (VDual (Dual.mk 2 4)) (VNum 0) []
  = Return (VDual (Dual.mk 1 0)) []
  ∧ operator.pow (VDual (Dual.mk 2 4)) (VNum (-1)) []
    = operator.truediv (VNum 1) (VDual (Dual.mk 2 4)) [].
Proof.
  apply (dual_small_powers (Dual.mk 2 4) []). simpl. lra.
Defined.

End dual_algebra.

(** ** The chain rule of the gradient pass *)

Section chain_rule.
Local Open Scope R_scope.

Lemma sum_R_cons (x : R) (l : list R) : sum_R (x :: l) = x + sum_R l.
Proof. reflexivity. Qed.

Lemma sum_R_app (l k : list R) : sum_R (l ++ k) = sum_R l + sum_R k.
Proof. induction l as [| x l IH]; simpl; [lra | rewrite IH; lra]. Qed.

Lemma sum_R_ext {A} (f h : A → R) (l : list A) :
  (∀ x, x ∈ l → f x = h x) → sum_R (f <$> l) = sum_R (h <$> l).
Proof.
  induction l as [| x l IH]; intros H; [reflexivity |].
  rewrite !fmap_cons, !sum_R_cons. rewrite (H x) by apply list_elem_of_here.
  rewrite IH; [reflexivity |]. intros y Hy. apply H. now apply list_elem_of_further.
Qed.

Lemma sum_R_scale {A} (c : R) (f : A → R) (l : list A) :
  sum_R ((fun x => c * f x) <$> l) = c * sum_R (f <$> l).
Proof.
  induction l as [| x l IH]; [simpl; lra |].
  rewrite !fmap_cons, !sum_R_cons, IH. lra.
Qed.

Lemma sum_R_plus {A} (f h : A → R) (l : list A) :
  sum_R ((fun x => f x + h x) <$> l) = sum_R (f <$> l) + sum_R (h <$> l).
Proof.
  induction l as [| x l IH]; [simpl; lra |].
  rewrite !fmap_cons, !sum_R_cons, IH. lra.
Qed.

Lemma sum_R_zero {A} (l : list A) : sum_R ((fun _ => 0) <$> l) = 0.
Proof.
  induction l as [| x l IH]; [reflexivity |].
  rewrite !fmap_cons, !sum_R_cons, IH. lra.
Qed.

Lemma sum_R_all_zero {A} (f : A → R) (l : list A) :
  (∀ x, x ∈ l → f x = 0) → sum_R (f <$> l) = 0.
Proof.
  intros H. rewrite (sum_R_ext f (fun _ => 0) l H). apply sum_R_zero.
Qed.

Lemma sum_R_swap {A B} (F : A → B → R) (l : list A) (k : list B) :
  sum_R ((fun x => sum_R ((fun y => F x y) <$> k)) <$> l)
  = sum_R ((fun y => sum_R ((fun x => F x y) <$> l)) <$> k).
Proof.
  induction l as [| x l IH].
  - simpl. now rewrite sum_R_zero.
  - rewrite fmap_cons, sum_R_cons, IH. rewrite <- sum_R_plus.
    apply sum_R_ext. intros y _. now rewrite fmap_cons, sum_R_cons.
Qed.

Lemma sum_R_filter {A} (P : A → Prop) `{∀ x, Decision (P x)} (f : A → R)
    (l : list A) :
  sum_R (f <$> filter P l)
  = sum_R ((fun x => if decide (P x) then f x else 0) <$> l).
Proof.
  induction l as [| x l IH]; [reflexivity |].
  rewrite fmap_cons, sum_R_cons. destruct (decide (P x)) as [Hx | Hx].
  - rewrite filter_cons_True by assumption.
    now rewrite fmap_cons, sum_R_cons, IH.
  - rewrite filter_cons_False by assumption. rewrite IH. lra.
Qed.

(** What a pass of bounded depth adds to an entry. *)
Lemma for_edges_chain (g : Graph) (depth : nat) (st : R) (n : nat) :
  (∀ i st m m',
     reverse._calc_grad depth g i st m = Some m' →
     default 0 (m' !! n) = default 0 (m !! n) + st * chain depth g i n) →
  ∀ es m m',
    reverse.for_edges
      (fun '(child, partial_deriv) gradiant =>
         let chain_grad := st * partial_deriv in
         let gradiant :=
           <[child := default 0 (gradiant !! child) + chain_grad]> gradiant in
         reverse._calc_grad depth g child chain_grad gradiant) es m = Some m' →
    default 0 (m' !! n)
    = default 0 (m !! n)
      + st * sum_R ((fun e : nat * R =>
                       e.2 * ((if decide (e.1 = n) then 1 else 0)
                              + chain depth g e.1 n)) <$> es).
Proof.
  intros IH es. induction es as [| [c w] es IHes]; intros m m' H.
  - simpl in H. injection H as <-. simpl. lra.
  - simpl in H.
    destruct (reverse._calc_grad depth g c (st * w)
                (<[c := default 0 (m !! c) + st * w]> m)) as [m1 |] eqn:H1;
      [| discriminate].
    rewrite (IHes _ _ H). rewrite (IH _ _ _ _ H1).
    rewrite fmap_cons, sum_R_cons. cbn [fst snd].
    destruct (decide (c = n)) as [-> | Hne].
    + rewrite lookup_insert_eq. cbv [from_option Datatypes.id]. ring.
    + rewrite lookup_insert_ne by assumption. ring.
Qed.

Lemma calc_grad_chain (g : Graph) (n : nat) :
  ∀ depth i st m m',
    reverse._calc_grad depth g i st m = Some m' →
    default 0 (m' !! n) = default 0 (m !! n) + st * chain depth g i n.
Proof.
  induction depth as [| depth IH]; intros i st m m' H; [discriminate |].
  simpl in H. apply (for_edges_chain g depth st n IH) in H. exact H.
Qed.

Lemma edges_beyond (g : Graph) (i : nat) : (length g ≤ i)%nat → edges g i = [].
Proof. intros H. unfold edges. now rewrite lookup_total_beyond. Qed.

Lemma chain_no_edges (g : Graph) (depth i n : nat) :
  edges g i = [] → chain depth g i n = 0.
Proof. intros H. destruct depth; simpl; [| rewrite H]; reflexivity. Qed.

(** On a store whose edges point forward the sum does not depend on the
    bound, once it is large enough. *)
Lemma chain_fuel (g : Graph) (n : nat) :
  forward_edges g →
  ∀ d d' i, (length g ≤ i + d)%nat → (length g ≤ i + d')%nat →
            chain d g i n = chain d' g i n.
Proof.
  intros Hg. induction d as [| d IH]; intros d' i Hd Hd'.
  - rewrite !chain_no_edges; [reflexivity | |]; apply edges_beyond; lia.
  - destruct d' as [| d'].
    + rewrite !chain_no_edges; [reflexivity | |]; apply edges_beyond; lia.
    + simpl. apply sum_R_ext. intros [c w] Hin. simpl.
      apply Hg in Hin. rewrite (IH d' c) by lia. reflexivity.
Qed.

Lemma entry_chain (g : Graph) (root n : nat) :
  forward_edges g → entry g root n = chain (S (length g)) g root n.
Proof.
  intros Hg.
  destruct (gradiant_returns g root (forward_edges_acyclic g Hg)) as [m Hm].
  unfold entry. rewrite Hm. unfold reverse._gradiant in Hm.
  destruct (reverse._calc_grad (S (length g)) g root 1 ∅) as [m' |] eqn:H;
    [| discriminate].
  injection Hm as ->.
  rewrite (calc_grad_chain g n _ _ _ _ _ H). rewrite lookup_empty. simpl. lra.
Qed.

(** The chain rule: the entry of [n] in the pass from [i] is the sum, over
    the edges out of [i], of the partial times one if the edge ends at
    [n], plus the entry of [n] in the pass from its child. *)
Lemma entry_step (g : Graph) (i n : nat) :
  forward_edges g →
  entry g i n
  = sum_R ((fun e : nat * R =>
              e.2 * ((if decide (e.1 = n) then 1 else 0) + entry g e.1 n))
             <$> edges g i).
Proof.
  intros Hg. rewrite entry_chain by assumption. simpl.
  apply sum_R_ext. intros [c w] Hin. simpl.
  rewrite entry_chain by assumption.
  rewrite (chain_fuel g n Hg (length g) (S (length g)) c) by lia.
  reflexivity.
Qed.

Lemma entry_no_edges (g : Graph) (i n : nat) :
  forward_edges g → edges g i = [] → entry g i n = 0.
Proof. intros Hg H. rewrite entry_step by assumption. now rewrite H. Qed.

End chain_rule.

(** ** The entries after an operation *)

Section growth.
Local Open Scope R_scope.

(** The edges of a node after edges to [child] have been appended. *)
Lemma add_edges_edges (child : nat) (es : list (nat * R)) :
  ∀ (g : Graph) (i : nat),
    (i < length g)%nat →
    edges (add_edges child es g) i
    = edges g i
      ++ ((fun e : nat * R => (child, e.2)) <$> filter (fun e => e.1 = i) es).
Proof.
  induction es as [| [p w] es IH]; intros g i Hi.
  - simpl. now rewrite app_nil_r.
  - change (add_edges child ((p, w) :: es) g)
      with (add_edges child es (alter (node.add_edge (child, w)) p g)).
    rewrite IH by now rewrite length_alter.
    unfold edges at 1. destruct (decide (p = i)) as [-> | Hne].
    + rewrite list_lookup_total_alter_eq by assumption.
      rewrite filter_cons_True by reflexivity.
      simpl. now rewrite <- app_assoc.
    + rewrite list_lookup_total_alter_ne by assumption.
      rewrite filter_cons_False by (simpl; congruence). reflexivity.
Qed.

Lemma grow_edges_old (g : Graph) v es i :
  (i < length g)%nat →
  edges (grow g v es) i
  = edges g i
    ++ ((fun e : nat * R => (length g, e.2)) <$> filter (fun e => e.1 = i) es).
Proof.
  intros Hi. unfold edges at 1. rewrite grow_old by assumption.
  now apply add_edges_edges.
Qed.

Lemma grow_edges_new (g : Graph) v es i :
  (length g ≤ i)%nat → edges (grow g v es) i = [].
Proof.
  intros Hi. unfold edges. destruct (decide (i = length g)) as [-> | Hne].
  - now rewrite grow_new.
  - rewrite lookup_total_beyond; [reflexivity |]. rewrite grow_length. lia.
Qed.

Lemma grow_real_old (g : Graph) v es i :
  (i < length g)%nat →
  Node.real (grow g v es !!! i) = Node.real (g !!! i).
Proof.
  intros Hi. rewrite grow_old by assumption.
  now destruct (add_edges_lookup (length g) es g i) as [H _].
Qed.

(** What an operation does to the entries of the gradient passes: the
    entries of the nodes that existed are unchanged, and the entry of the
    new node is the sum, over the edges to it, of the partial times one if
    the edge starts at the root, plus the entry of its source. *)
Lemma grow_entries (g : Graph) v es :
  forward_edges g →
  (∀ e, e ∈ es → (e.1 < length g)%nat) →
  ∀ k i, (length g ≤ i + k)%nat →
    (∀ n, (n < length g)%nat → entry (grow g v es) i n = entry g i n)
    ∧ entry (grow g v es) i (length g)
      = sum_R ((fun e : nat * R =>
                  e.2 * ((if decide (e.1 = i) then 1 else 0) + entry g i e.1))
                 <$> es).
Proof.
  intros Hg Hes. pose proof (grow_forward g v es Hg) as Hg'.
  induction k as [| k IH]; intros i Hi.
  - assert (edges (grow g v es) i = []) as Hnew by (apply grow_edges_new; lia).
    assert (edges g i = []) as Hold by (apply edges_beyond; lia).
    split.
    + intros n _. now rewrite !entry_no_edges.
    + rewrite entry_no_edges by assumption.
      symmetry. apply sum_R_all_zero. intros e He.
      rewrite entry_no_edges by assumption.
      specialize (Hes e He). destruct (decide (e.1 = i)); [lia | ring].
  - destruct (decide (length g ≤ i)%nat) as [Hge | Hlt]; [apply IH; lia |].
    assert (i < length g)%nat as Hi' by lia.
    assert (∀ e, e ∈ edges g i →
              (∀ n, (n < length g)%nat →
                 entry (grow g v es) e.1 n = entry g e.1 n)
              ∧ entry (grow g v es) e.1 (length g)
                = sum_R ((fun p : nat * R =>
                            p.2 * ((if decide (p.1 = e.1) then 1 else 0)
                                   + entry g e.1 p.1)) <$> es)) as IHc.
    { intros [c w] Hin. apply IH. apply Hg in Hin. simpl. lia. }
    assert (entry (grow g v es) (length g) (length g) = 0) as Hself.
    { apply entry_no_edges; [assumption |]. now apply grow_edges_new. }
    split.
    + intros n Hn. rewrite (entry_step (grow g v es)) by assumption.
      rewrite grow_edges_old by assumption.
      rewrite fmap_app, sum_R_app.
      rewrite (entry_step g) by assumption.
      rewrite <- list_fmap_compose.
      rewrite (sum_R_all_zero _ (filter (fun e => e.1 = i) es)).
      2:{ intros e _. simpl.
          rewrite entry_no_edges; [| assumption | now apply grow_edges_new].
          destruct (decide (length g = n)); [lia | ring]. }
      rewrite Rplus_0_r. apply sum_R_ext. intros e He.
      destruct (IHc e He) as [Hold _]. now rewrite Hold.
    + rewrite (entry_step (grow g v es)) by assumption.
      rewrite grow_edges_old by assumption.
      rewrite fmap_app, sum_R_app.
      (* the edges that existed *)
      rewrite (sum_R_ext _
                 (fun e : nat * R =>
                    sum_R ((fun p : nat * R =>
                              e.2 * (p.2 * ((if decide (p.1 = e.1) then 1 else 0)
                                            + entry g e.1 p.1))) <$> es))
                 (edges g i)).
      2:{ intros e He. destruct (IHc e He) as [_ Hnew]. rewrite Hnew.
          pose proof (Hg i e.1 e.2) as Hc.
          destruct e as [c w]. simpl in *. specialize (Hc He).
          destruct (decide (c = length g)); [lia |].
          rewrite Rplus_0_l. now rewrite sum_R_scale. }
      rewrite sum_R_swap.
      (* the new edges *)
      rewrite <- list_fmap_compose.
      rewrite (sum_R_ext _ (fun e : nat * R => e.2)
                 (filter (fun e => e.1 = i) es)).
      2:{ intros e _. simpl. rewrite Hself.
          destruct (decide (length g = length g)); [ring | congruence]. }
      rewrite sum_R_filter. rewrite <- sum_R_plus.
      apply sum_R_ext. intros p Hp.
      rewrite (entry_step g i) by assumption.
      rewrite (sum_R_ext
                 (fun x : nat * R =>
                    x.2 * (p.2 * ((if decide (p.1 = x.1) then 1 else 0)
                                  + entry g x.1 p.1)))
                 (fun x : nat * R =>
                    p.2 * (x.2 * ((if decide (x.1 = p.1) then 1 else 0)
                                  + entry g x.1 p.1)))).
      2:{ intros x _. destruct (decide (p.1 = x.1)), (decide (x.1 = p.1));
            try congruence; ring. }
      rewrite sum_R_scale. destruct (decide (p.1 = i)); ring.
Qed.

End growth.

(** ** The operators on nodes *)

Section node_table.
Local Open Scope R_scope.

Lemma real_add_edge (e : nat * R) (i j : nat) (g : Graph) :
  Node.real (alter (node.add_edge e) i g !!! j) = Node.real (g !!! j).
Proof. destruct e as [child p]. apply add_edge_lookup. Qed.

Ltac run_binop :=
  cbv [apply_binop operator.add operator.sub operator.mul operator.truediv
       operator.pow operator.neg operator.binary operator.of_node
       node.__neg__ node.__add__ node.__radd__
       node.__mul__ node.__rmul__ node.__sub__ node.__rsub__
       node.__truediv__ node.__rtruediv__ node.__pow__ node.__rpow__
       bind raise ret node.real node.__init__ node.append];
  unfold grow, add_edges; cbn [foldl fst snd];
  rewrite ?alter_app_l by (rewrite ?length_alter; lia);
  repeat (rewrite real_add_edge
          || rewrite lookup_total_old by (rewrite ?length_alter; lia)).

Lemma binop_node_node (op : binop) (a b : nat) (g : Graph) :
  (a < length g)%nat → (b < length g)%nat →
  let x := Node.real (g !!! a) in
  let y := Node.real (g !!! b) in
  apply_binop op (VNode a) (VNode b) g
  = Return (VNode (length g))
      (grow g (calculus.binary op x y)
         [(a, calculus.d_left op x y); (b, calculus.d_right op x y)]).
Proof.
  intros Ha Hb x y. subst x y. destruct op; run_binop; cbn [calculus.binary calculus.d_left calculus.d_right].
  all: try reflexivity.
  rewrite py_pow_2. do 3 f_equal. f_equal. f_equal. f_equal. unfold Rdiv. ring.
Qed.

Lemma binop_node_num (op : binop) (a : nat) (c : R) (g : Graph) :
  (a < length g)%nat →
  let x := Node.real (g !!! a) in
  apply_binop op (VNode a) (VNum c) g
  = Return (VNode (length g))
      (grow g (calculus.binary op x c) [(a, calculus.d_left op x c)]).
Proof.
  intros Ha x. subst x. destruct op; run_binop;
    cbn [calculus.binary calculus.d_left calculus.d_right]; reflexivity.
Qed.

Lemma binop_num_node (op : binop) (c : R) (b : nat) (g : Graph) :
  (b < length g)%nat →
  let y := Node.real (g !!! b) in
  apply_binop op (VNum c) (VNode b) g
  = Return (VNode (length g))
      (grow g (calculus.binary op c y) [(b, calculus.d_right op c y)]).
Proof.
  intros Hb y. subst y. destruct op; run_binop;
    cbn [calculus.binary calculus.d_left calculus.d_right];
    try reflexivity;
    match goal with
    | |- Return _ (alter (node.add_edge (_, ?p)) _ _ ++ [Node.mk ?r _])
         = Return _ (alter (node.add_edge (_, ?p')) _ _ ++ [Node.mk ?r' _]) =>
        replace p with p' by (rewrite ?py_pow_2; unfold Rdiv, Rsqr; ring);
        replace r with r' by ring;
        reflexivity
    end.
Qed.

Lemma neg_node (a : nat) (g : Graph) :
  (a < length g)%nat →
  operator.neg (VNode a) g
  = Return (VNode (length g)) (grow g (- Node.real (g !!! a)) [(a, -1)]).
Proof.
  intros Ha. run_binop.
  replace (-1 * Node.real (g !!! a)) with (- Node.real (g !!! a)) by ring.
  reflexivity.
Qed.
End node_table.

(** ** Expressions on duals *)

Section expressions_on_duals.
Local Open Scope R_scope.

Lemma tangent_closed (e : expr) (xs ts : list R) :
  closed e = true → calculus.tangent e xs ts = 0.
Proof.
  induction e as [i | c | a IHa | op a IHa b IHb | f a IHa]; simpl; intros H.
  - discriminate.
  - reflexivity.
  - rewrite IHa by assumption. ring.
  - apply andb_prop in H as [Ha Hb]. rewrite IHa, IHb by assumption. ring.
  - rewrite IHa by assumption. ring.
Qed.

Lemma binop_num_num (op : binop) (x y : R) (g : Graph) :
  apply_binop op (VNum x) (VNum y) g = Return (VNum (calculus.binary op x y)) g.
Proof. destruct op; reflexivity. Qed.

(** An expression without parameters evaluates to its value, a number. *)
Lemma interp_closed (e : expr) (args : list pyval) (xs : list R) (g : Graph) :
  closed e = true →
  interp e args g = Return (VNum (calculus.value e xs)) g.
Proof.
  revert g.
  induction e as [i | c | a IHa | op a IHa b IHb | f a IHa]; simpl;
    intros g H.
  - discriminate.
  - reflexivity.
  - unfold bind. rewrite IHa by assumption. reflexivity.
  - apply andb_prop in H as [Ha Hb]. unfold bind.
    rewrite IHa by assumption. rewrite IHb by assumption.
    apply binop_num_num.
  - unfold bind. rewrite IHa by assumption. apply elem_num_run.
Qed.

Ltac run_dual_op :=
  cbv [apply_binop operator.add operator.sub operator.mul operator.truediv
       operator.pow operator.neg operator.binary operator.of_dual
       dual.__add__ dual.__radd__ dual.__sub__ dual.__rsub__ dual.__mul__
       dual.__rmul__ dual.__truediv__ dual.__rtruediv__ dual.__pow__
       dual.__rpow__ dual.__neg__ bind ret raise Dual.real Dual.dual
       calculus.binary calculus.d_left calculus.d_right].

Lemma Return_dual_eq (r r' d d' : R) (g : Graph) :
  r = r' → d = d' →
  Return (VDual (Dual.mk r d)) g = Return (VDual (Dual.mk r' d')) g.
Proof. now intros -> ->. Qed.

Ltac dual_parts_eq :=
  apply Return_dual_eq;
  rewrite ?py_pow_2; unfold np.log, Rsqr, Rdiv;
  try ring; try (field; first [assumption | lra]).

Lemma binop_dual_dual (op : binop) (x tx y ty : R) (g : Graph) :
  match op with OpTruediv => y ≠ 0 | OpPow => 0 < x | _ => True end →
  apply_binop op (VDual (Dual.mk x tx)) (VDual (Dual.mk y ty)) g
  = Return (VDual (Dual.mk (calculus.binary op x y)
                     (calculus.d_left op x y * tx
                      + calculus.d_right op x y * ty))) g.
Proof.
  intros H. destruct op; simpl in H; run_dual_op;
    rewrite ?(py_pow_pred x y) by assumption; dual_parts_eq.
Qed.

Lemma binop_dual_num (op : binop) (x tx c : R) (g : Graph) :
  match op with OpTruediv => c ≠ 0 | _ => True end →
  apply_binop op (VDual (Dual.mk x tx)) (VNum c) g
  = Return (VDual (Dual.mk (calculus.binary op x c)
                     (calculus.d_left op x c * tx))) g.
Proof. intros H. destruct op; run_dual_op; dual_parts_eq. Qed.

Lemma binop_num_dual (op : binop) (c y ty : R) (g : Graph) :
  apply_binop op (VNum c) (VDual (Dual.mk y ty)) g
  = Return (VDual (Dual.mk (calculus.binary op c y)
                     (calculus.d_right op c y * ty))) g.
Proof. destruct op; run_dual_op; dual_parts_eq. Qed.

Lemma lookup_dual_args (xs ts : list R) (i : nat) :
  length ts = length xs → (i < length xs)%nat →
  (VDual <$> zip_with Dual.mk xs ts) !! i
  = Some (VDual (Dual.mk (xs !!! i) (ts !!! i))).
Proof.
  intros Hlen Hi. rewrite list_lookup_fmap, lookup_zip_with.
  rewrite (list_lookup_lookup_total_lt xs i) by assumption.
  rewrite (list_lookup_lookup_total_lt ts i) by lia. reflexivity.
Qed.

(** The evaluation on duals with the real parts [xs] and the dual parts
    [ts]: the value of the expression and its derivative along [ts]. *)
Lemma interp_dual (e : expr) (xs ts : list R) :
  length ts = length xs →
  ∀ g, calculus.defined e xs → closed e = false →
    interp e (VDual <$> zip_with Dual.mk xs ts) g
    = Return (VDual (Dual.mk (calculus.value e xs)
                             (calculus.tangent e xs ts))) g.
Proof.
  intros Hlen.
  induction e as [i | c | a IHa | op a IHa b IHb | f a IHa];
    intros g Hdef Hcl; simpl in *.
  - now rewrite lookup_dual_args.
  - discriminate.
  - unfold bind. rewrite IHa by assumption. reflexivity.
  - destruct Hdef as (Hda & Hdb & Hop). unfold bind.
    destruct (closed a) eqn:Ha, (closed b) eqn:Hb; try discriminate.
    + rewrite (interp_closed a _ xs) by assumption.
      rewrite IHb by auto. rewrite binop_num_dual.
      rewrite (tangent_closed a) by assumption.
      do 3 f_equal. ring.
    + rewrite IHa by auto.
      rewrite (interp_closed b _ xs) by assumption.
      rewrite binop_dual_num by (destruct op; auto).
      rewrite (tangent_closed b) by assumption.
      do 3 f_equal. ring.
    + rewrite IHa by auto. rewrite IHb by auto.
      apply binop_dual_dual. destruct op; simpl; auto.
      destruct Hop as [H | [H _]]; [assumption | discriminate].
  - destruct Hdef as [Hda Hf]. unfold bind. rewrite IHa by assumption.
    apply elem_dual_run.
Qed.

End expressions_on_duals.

(** ** The forward engine on expressions *)

Section forward_engine.
Local Open Scope R_scope.
Import autodiff.

Lemma seeds_direction (xs : list R) (idx : nat) :
  seeds xs idx = zip_with Dual.mk xs (calculus.direction (length xs) idx).
Proof.
  apply list_eq. intros j. unfold seeds, calculus.direction.
  rewrite list_lookup_imap, lookup_zip_with, list_lookup_fmap.
  destruct (xs !! j) as [x |] eqn:Hx; [| reflexivity].
  apply lookup_lt_Some in Hx as Hj.
  rewrite lookup_seq_lt by assumption. reflexivity.
Qed.

Lemma length_direction (n i : nat) : length (calculus.direction n i) = n.
Proof. unfold calculus.direction. now rewrite length_fmap, length_seq. Qed.

Lemma list_comp_pure {A B} (f : A → M B) (h : A → B) (g : Graph) :
  ∀ l : list A,
    (∀ x, x ∈ l → f x g = Return (h x) g) →
    list_comp l f g = Return (h <$> l) g.
Proof.
  induction l as [| x l IH]; intros H; [reflexivity |].
  simpl. unfold bind. rewrite (H x) by apply list_elem_of_here.
  rewrite IH; [reflexivity |].
  intros y Hy. apply H. now apply list_elem_of_further.
Qed.

Lemma defined_inputs (e : expr) (xs : list R) :
  calculus.defined e xs → closed e = false → (0 < length xs)%nat.
Proof.
  induction e as [i | c | a IHa | op a IHa b IHb | f a IHa]; simpl.
  - lia.
  - discriminate.
  - assumption.
  - intros (Ha & Hb & _) H. apply andb_false_iff in H as [H | H]; auto.
  - intros [Ha _]. auto.
Qed.

(** The call of the function on the duals of sweep [idx]. *)
Lemma lambda_dual_sweep (params : list string) (body : expr)
    (source : exn + string) (xs : list R) (idx : nat) (g : Graph) :
  length xs = length params →
  calculus.defined body xs → closed body = false →
  call (lambda params body source) (VDual <$> seeds xs idx) g
  = Return (VDual (Dual.mk (calculus.value body xs)
                           (calculus.partial body xs idx))) g.
Proof.
  intros Hlen Hdef Hcl. simpl.
  rewrite length_fmap. unfold seeds. rewrite length_imap.
  destruct (decide (length xs = length params)); [| contradiction].
  fold (seeds xs idx). rewrite seeds_direction.
  apply interp_dual; auto using length_direction.
Qed.

Lemma list_comp_getattr_real (ds : list Dual.t) (g : Graph) :
  list_comp (VDual <$> ds) getattr_real g = Return (Dual.real <$> ds) g.
Proof.
  rewrite (list_comp_pure getattr_real
             (fun v => match v with VDual d => Dual.real d | _ => 0 end) g).
  - rewrite <- list_fmap_compose. reflexivity.
  - intros v Hv. apply list_elem_of_fmap in Hv as (d & -> & _). reflexivity.
Qed.

(** The result of [_dual_forward] for a function of one output. *)
Lemma lambda_dual_forward (params : list string) (body : expr)
    (source : exn + string) (inputs : pyinputs) (g : Graph) :
  let xs := as_list inputs in
  length xs = length params →
  calculus.defined body xs → closed body = false →
  forward._dual_forward (autodiff.__init__ (lambda params body source))
    inputs g
  = Return
      (if decide (length xs = 1%nat) then
         VDual (Dual.mk (calculus.value body xs) (calculus.partial body xs 0))
       else
         VList (VDual <$> ((fun idx =>
                              Dual.mk (calculus.value body xs)
                                      (calculus.partial body xs idx))
                             <$> seq 0 (length xs)))) g.
Proof.
  intros xs Hlen Hdef Hcl. rewrite dual_forward_seeded by exact Hlen.
  fold xs. unfold seeded_calls.
  destruct (decide (length xs = 1%nat)) as [H1 | H1].
  - now apply lambda_dual_sweep.
  - unfold bind.
    rewrite (list_comp_pure _
               (fun idx => VDual (Dual.mk (calculus.value body xs)
                                          (calculus.partial body xs idx))) g).
    + rewrite <- np_asarray_duals. f_equal.
      now rewrite <- list_fmap_compose.
    + intros idx _. now apply lambda_dual_sweep.
Qed.

Lemma dual_parts_duals (xs : list R) (ds : list Dual.t) (g : Graph) :
  length xs ≠ 1%nat → ds ≠ [] →
  forward.dual_parts xs (VList (VDual <$> ds)) g
  = Return (Vector (Dual.dual <$> ds)) g.
Proof.
  intros H1 Hne. destruct ds as [| d ds]; [contradiction |].
  now apply dual_parts_many_duals.
Qed.

Lemma fmap_seq_nonempty {A} (f : nat → A) (n : nat) :
  (0 < n)%nat → f <$> seq 0 n ≠ [].
Proof. destruct n; [lia |]. discriminate. Qed.

(** The derivative operation of the forward engine on a function of one
    output. *)
Lemma lambda_forward (params : list string) (body : expr)
    (source : exn + string) (inputs : pyinputs) (g : Graph) :
  let xs := as_list inputs in
  length xs = length params →
  calculus.defined body xs → closed body = false →
  forward.forward (autodiff.__init__ (lambda params body source)) inputs g
  = Return (gradient_array body xs) g.
Proof.
  intros xs Hlen Hdef Hcl. unfold forward.forward, bind.
  rewrite lambda_dual_forward by assumption. fold xs.
  unfold gradient_array.
  destruct (decide (length xs = 1%nat)) as [H1 | H1].
  - now rewrite dual_parts_one_scalar.
  - pose proof (defined_inputs body xs Hdef Hcl) as Hpos.
    rewrite dual_parts_duals by auto using fmap_seq_nonempty.
    unfold calculus.gradient. rewrite <- list_fmap_compose. reflexivity.
Qed.

(** X7.  For a function of one output whose body is an expression in its
    parameters and an input given as a list, at a point where no divisor is
    zero, every power has a positive base or an exponent without parameters
    that is a whole number at least one, and every elementary function is
    applied inside its domain, the derivative operation of the forward
    engine returns the derivative given by the rules of calculus: the
    derivative for one input, the vector of the partial derivatives
    otherwise. The store is not touched. *)
Theorem forward_gradient (params : list string) (body : expr)
    (source : exn + string) (xs : list R) (g : Graph) :
  length xs = length params →
  calculus.defined body xs → closed body = false →
  forward.forward (autodiff.__init__ (lambda params body source))
    (InSeq xs) g
  = Return (gradient_array body xs) g.
Proof. exact (lambda_forward params body source (InSeq xs) g). Qed.

End forward_engine.

(** ** Expressions on nodes *)

Section expressions_on_nodes.
Local Open Scope R_scope.

Lemma extends_refl (g : Graph) : forward_edges g → extends g g.
Proof. intros Hg. split; [assumption |]. split; [lia |]. auto. Qed.

Lemma extends_trans (g1 g2 g3 : Graph) :
  extends g1 g2 → extends g2 g3 → extends g1 g3.
Proof.
  intros (H1 & Hl1 & Hx1) (H2 & Hl2 & Hx2).
  split; [assumption |]. split; [lia |].
  intros x Hx. destruct (Hx1 x Hx) as (Hr1 & He1 & Hn1).
  destruct (Hx2 x ltac:(lia)) as (Hr2 & He2 & Hn2).
  split; [congruence |]. split; [| auto].
  intros root. rewrite He2. apply He1.
Qed.

Lemma grow_no_incoming (g : Graph) v es (n : nat) :
  (n < length g)%nat → no_incoming g n → no_incoming (grow g v es) n.
Proof.
  intros Hn Hno p e He.
  destruct (decide (p < length g)%nat) as [Hp | Hp].
  - rewrite grow_edges_old in He by assumption.
    apply elem_of_app in He as [He | He]; [now apply (Hno p) |].
    apply list_elem_of_fmap in He as (e' & -> & _). simpl. lia.
  - rewrite grow_edges_new in He by lia. now apply elem_of_nil in He.
Qed.

Lemma extends_grow (g : Graph) v es :
  forward_edges g → (∀ e, e ∈ es → (e.1 < length g)%nat) →
  extends g (grow g v es).
Proof.
  intros Hg Hes. split; [now apply grow_forward |].
  split; [rewrite grow_length; lia |].
  intros x Hx. split; [now apply grow_real_old |].
  split; [| now apply grow_no_incoming].
  intros root.
  destruct (grow_entries g v es Hg Hes (length g) root ltac:(lia)) as [H _].
  now apply H.
Qed.

Lemma extends_sensitivity (g g' : Graph) (root n : nat) :
  extends g g' → (n < length g)%nat →
  sensitivity g' root n = sensitivity g root n.
Proof.
  intros (_ & _ & H) Hn. unfold sensitivity.
  destruct (H n Hn) as (_ & He & _). now rewrite He.
Qed.

(** The derivative of the node that an operation creates. *)
Lemma grow_sensitivity (g : Graph) v es (root : nat) :
  forward_edges g → (∀ e, e ∈ es → (e.1 < length g)%nat) →
  (root < length g)%nat →
  sensitivity (grow g v es) root (length g)
  = sum_R ((fun e : nat * R => e.2 * sensitivity g root e.1) <$> es).
Proof.
  intros Hg Hes Hroot. unfold sensitivity.
  destruct (grow_entries g v es Hg Hes (length g) root ltac:(lia)) as [_ H].
  rewrite H. destruct (decide (root = length g)); [lia |].
  rewrite Rplus_0_l. apply sum_R_ext. intros e _.
  destruct (decide (e.1 = root)), (decide (root = e.1)); congruence || ring.
Qed.

Lemma lookup_node_args (ns : list nat) (i : nat) :
  (VNode <$> ns) !! i = VNode <$> (ns !! i).
Proof. apply list_lookup_fmap. Qed.

Lemma interp_node (e : expr) (xs : list R) (ns : list nat) :
  length ns = length xs →
  ∀ g, forward_edges g →
    (∀ j n, ns !! j = Some n →
            (n < length g)%nat ∧ Node.real (g !!! n) = xs !!! j) →
    calculus.defined e xs → closed e = false →
    ∃ r g',
      interp e (VNode <$> ns) g = Return (VNode r) g'
      ∧ extends g g'
      ∧ (r < length g')%nat
      ∧ Node.real (g' !!! r) = calculus.value e xs
      ∧ ((∃ j, e = EVar j ∧ ns !! j = Some r) ∨ (length g ≤ r)%nat)
      ∧ ∀ root ts,
          (root < length g)%nat →
          (∀ j n, ns !! j = Some n → sensitivity g root n = ts !!! j) →
          sensitivity g' root r = calculus.tangent e xs ts.
Proof.
  intros Hlen.
  induction e as [i | c | a IHa | op a IHa b IHb | f a IHa];
    intros g Hg Hns Hdef Hcl; simpl in Hdef, Hcl.
  - (* a parameter *)
    destruct (ns !! i) as [n |] eqn:Hn.
    2:{ apply lookup_ge_None in Hn. lia. }
    destruct (Hns i n Hn) as [Hlt Hreal].
    exists n, g. simpl. rewrite lookup_node_args, Hn. simpl.
    split; [reflexivity |]. split; [now apply extends_refl |].
    split; [assumption |]. split; [assumption |].
    split; [left; eauto |]. intros root ts _ Hts. now apply Hts.
  - discriminate.
  - (* unary minus *)
    destruct (IHa g Hg Hns Hdef Hcl) as (ra & ga & Hrun & Hext & Hra & Hval & _ & Htan).
    pose proof Hext as (Hga & Hl & _).
    exists (length ga), (grow ga (- Node.real (ga !!! ra)) [(ra, -1)]).
    simpl. unfold bind. rewrite Hrun. rewrite neg_node by assumption.
    assert (∀ e : nat * R, e ∈ [(ra, -1)] → (e.1 < length ga)%nat) as Hes.
    { intros e He. apply list_elem_of_singleton in He as ->. assumption. }
    split; [reflexivity |].
    split; [eapply extends_trans; [eassumption | now apply extends_grow] |].
    split; [rewrite grow_length; lia |].
    split; [rewrite grow_new; simpl; now rewrite Hval |].
    split; [right; lia |].
    intros root ts Hroot Hts.
    rewrite grow_sensitivity by (assumption || lia).
    cbn [fmap list_fmap sum_R foldr fst snd].
    rewrite (Htan root ts Hroot Hts). ring.
  - (* a binary operator *)
    destruct Hdef as (Hda & Hdb & Hop).
    destruct (closed a) eqn:Hca, (closed b) eqn:Hcb; try discriminate.
    + (* number op node *)
      destruct (IHb g Hg Hns Hdb eq_refl)
        as (rb & gb & Hrun & Hext & Hrb & Hval & _ & Htan).
      pose proof Hext as (Hgb & Hl & _).
      exists (length gb),
        (grow gb (calculus.binary op (calculus.value a xs)
                    (Node.real (gb !!! rb)))
           [(rb, calculus.d_right op (calculus.value a xs)
                   (Node.real (gb !!! rb)))]).
      simpl. unfold bind. rewrite (interp_closed a _ xs) by assumption.
      rewrite Hrun. rewrite binop_num_node by assumption.
      assert (∀ e : nat * R,
                e ∈ [(rb, calculus.d_right op (calculus.value a xs)
                            (Node.real (gb !!! rb)))] →
                (e.1 < length gb)%nat) as Hes.
      { intros e He. apply list_elem_of_singleton in He as ->. assumption. }
      split; [reflexivity |].
      split; [eapply extends_trans; [eassumption | now apply extends_grow] |].
      split; [rewrite grow_length; lia |].
      split; [rewrite grow_new; simpl; now rewrite Hval |].
      split; [right; lia |].
      intros root ts Hroot Hts.
      rewrite grow_sensitivity by (assumption || lia).
      cbn [fmap list_fmap sum_R foldr fst snd].
      rewrite (Htan root ts Hroot Hts), Hval.
      rewrite (tangent_closed a) by assumption. ring.
    + (* node op number *)
      destruct (IHa g Hg Hns Hda eq_refl)
        as (ra & ga & Hrun & Hext & Hra & Hval & _ & Htan).
      pose proof Hext as (Hga & Hl & _).
      exists (length ga),
        (grow ga (calculus.binary op (Node.real (ga !!! ra))
                    (calculus.value b xs))
           [(ra, calculus.d_left op (Node.real (ga !!! ra))
                   (calculus.value b xs))]).
      simpl. unfold bind. rewrite Hrun.
      rewrite (interp_closed b _ xs) by assumption.
      rewrite binop_node_num by assumption.
      assert (∀ e : nat * R,
                e ∈ [(ra, calculus.d_left op (Node.real (ga !!! ra))
                            (calculus.value b xs))] →
                (e.1 < length ga)%nat) as Hes.
      { intros e He. apply list_elem_of_singleton in He as ->. assumption. }
      split; [reflexivity |].
      split; [eapply extends_trans; [eassumption | now apply extends_grow] |].
      split; [rewrite grow_length; lia |].
      split; [rewrite grow_new; simpl; now rewrite Hval |].
      split; [right; lia |].
      intros root ts Hroot Hts.
      rewrite grow_sensitivity by (assumption || lia).
      cbn [fmap list_fmap sum_R foldr fst snd].
      rewrite (Htan root ts Hroot Hts), Hval.
      rewrite (tangent_closed b) by assumption. ring.
    + (* node op node *)
      destruct (IHa g Hg Hns Hda eq_refl)
        as (ra & ga & Hruna & Hexta & Hra & Hvala & _ & Htana).
      pose proof Hexta as (Hga & Hla & Hxa).
      assert (∀ j n, ns !! j = Some n →
                (n < length ga)%nat ∧ Node.real (ga !!! n) = xs !!! j) as Hnsa.
      { intros j n Hn. destruct (Hns j n Hn) as [Hlt Hreal].
        destruct (Hxa n Hlt) as [Hr _]. split; [lia | congruence]. }
      destruct (IHb ga Hga Hnsa Hdb eq_refl)
        as (rb & gb & Hrunb & Hextb & Hrb & Hvalb & _ & Htanb).
      pose proof Hextb as (Hgb & Hlb & Hxb).
      assert (Node.real (gb !!! ra) = calculus.value a xs) as Hvala'.
      { destruct (Hxb ra Hra) as [Hr _]. congruence. }
      exists (length gb),
        (grow gb (calculus.binary op (Node.real (gb !!! ra))
                    (Node.real (gb !!! rb)))
           [(ra, calculus.d_left op (Node.real (gb !!! ra))
                   (Node.real (gb !!! rb)));
            (rb, calculus.d_right op (Node.real (gb !!! ra))
                   (Node.real (gb !!! rb)))]).
      simpl. unfold bind. rewrite Hruna, Hrunb.
      rewrite binop_node_node by (assumption || lia).
      assert (∀ e : nat * R,
                e ∈ [(ra, calculus.d_left op (Node.real (gb !!! ra))
                            (Node.real (gb !!! rb)));
                     (rb, calculus.d_right op (Node.real (gb !!! ra))
                            (Node.real (gb !!! rb)))] →
                (e.1 < length gb)%nat) as Hes.
      { intros e He. apply elem_of_cons in He as [-> | He]; [simpl; lia |].
        apply list_elem_of_singleton in He as ->. assumption. }
      split; [reflexivity |].
      split.
      { eapply extends_trans; [eassumption |].
        eapply extends_trans; [eassumption | now apply extends_grow]. }
      split; [rewrite grow_length; lia |].
      split; [rewrite grow_new; simpl; now rewrite Hvala', Hvalb |].
      split; [right; lia |].
      intros root ts Hroot Hts.
      rewrite grow_sensitivity by (assumption || lia).
      cbn [fmap list_fmap sum_R foldr fst snd].
      rewrite (extends_sensitivity ga gb root ra Hextb Hra).
      rewrite (Htana root ts Hroot Hts).
      rewrite (Htanb root ts ltac:(lia)).
      2:{ intros j n Hn. destruct (Hns j n Hn) as [Hlt _].
          rewrite (extends_sensitivity g ga root n Hexta Hlt). now apply Hts. }
      rewrite Hvala', Hvalb. ring.
  - (* an elementary function *)
    destruct Hdef as [Hda Hf].
    destruct (IHa g Hg Hns Hda Hcl)
      as (ra & ga & Hrun & Hext & Hra & Hval & _ & Htan).
    pose proof Hext as (Hga & Hl & _).
    exists (length ga),
      (grow ga (closed_form.value f (Node.real (ga !!! ra)))
         [(ra, closed_form.derivative f (Node.real (ga !!! ra)))]).
    simpl. unfold bind. rewrite Hrun.
    rewrite elem_node_run by (assumption || now rewrite Hval).
    rewrite one_edge_grow.
    assert (∀ e : nat * R,
              e ∈ [(ra, closed_form.derivative f (Node.real (ga !!! ra)))] →
              (e.1 < length ga)%nat) as Hes.
    { intros e He. apply list_elem_of_singleton in He as ->. assumption. }
    split; [reflexivity |].
    split; [eapply extends_trans; [eassumption | now apply extends_grow] |].
    split; [rewrite grow_length; lia |].
    split; [rewrite grow_new; simpl; now rewrite Hval |].
    split; [right; lia |].
    intros root ts Hroot Hts.
    rewrite grow_sensitivity by (assumption || lia).
    cbn [fmap list_fmap sum_R foldr fst snd].
    rewrite (Htan root ts Hroot Hts), Hval. ring.
Qed.

End expressions_on_nodes.

(** ** The reverse engine on expressions *)

Section reverse_engine.
Local Open Scope R_scope.
Import autodiff.

Lemma with_inputs_length g xs :
  length (with_inputs g xs) = (length g + length xs)%nat.
Proof. unfold with_inputs. now rewrite length_app, length_fmap. Qed.

Lemma with_inputs_node (g : Graph) (xs : list R) (j : nat) :
  (j < length xs)%nat →
  with_inputs g xs !!! (length g + j)%nat = Node.mk (xs !!! j) [].
Proof.
  intros Hj. unfold with_inputs. rewrite lookup_total_app_r by lia.
  replace (length g + j - length g)%nat with j by lia.
  now rewrite (list_lookup_total_fmap (fun x => Node.mk x []) xs j).
Qed.

Lemma with_inputs_forward g xs :
  forward_edges g → forward_edges (with_inputs g xs).
Proof. apply forward_edges_new_nodes. Qed.

(** Between the input nodes, before the function is called: the
    derivative of an input in another is zero. *)
Lemma with_inputs_sensitivity (g : Graph) (xs : list R) (i j : nat) :
  forward_edges g → (i < length xs)%nat → (j < length xs)%nat →
  sensitivity (with_inputs g xs) (length g + i) (length g + j)
  = calculus.direction (length xs) i !!! j.
Proof.
  intros Hg Hi Hj. unfold sensitivity.
  rewrite entry_no_edges.
  - unfold calculus.direction.
    rewrite (list_lookup_total_fmap _ (seq 0 (length xs)) j)
      by (rewrite length_seq; lia).
    rewrite lookup_total_seq_lt by assumption. simpl.
    destruct (decide (length g + i = length g + j)%nat), (decide (j = i));
      try lia; ring.
  - now apply with_inputs_forward.
  - unfold edges. now rewrite with_inputs_node.
Qed.

Lemma gradiant_run (g : Graph) (root : nat) :
  forward_edges g →
  ∃ m, reverse._gradiant root g = Return m g
       ∧ ∀ n, default 0 (m !! n) = entry g root n.
Proof.
  intros Hg.
  destruct (gradiant_returns g root (forward_edges_acyclic g Hg)) as [m Hm].
  exists m. split; [exact Hm |]. intros n. unfold entry. now rewrite Hm.
Qed.

Lemma gradiant_entry (g : Graph) (root : nat) (key : nat) :
  forward_edges g →
  (let* gradiant := reverse._gradiant root in
   reverse.getitem gradiant (VNode key)) g
  = Return (entry g root key) g.
Proof.
  intros Hg.
  destruct (gradiant_returns g root (forward_edges_acyclic g Hg)) as [m Hm].
  unfold bind, entry. rewrite Hm. reflexivity.
Qed.

(** The call of the function on the input nodes. *)
Lemma lambda_node_call (params : list string) (body : expr)
    (source : exn + string) (xs : list R) (g : Graph) :
  length xs = length params →
  forward_edges g →
  calculus.defined body xs → closed body = false →
  ∃ r g',
    call (lambda params body source)
      (VNode <$> seq (length g) (length xs)) (with_inputs g xs)
    = Return (VNode r) g'
    ∧ forward_edges g'
    ∧ Node.real (g' !!! r) = calculus.value body xs
    ∧ ((∃ j, body = EVar j ∧ r = (length g + j)%nat ∧ (j < length xs)%nat)
       ∨ (length g + length xs ≤ r)%nat)
    ∧ ∀ i, (i < length xs)%nat →
           sensitivity g' (length g + i) r = calculus.partial body xs i.
Proof.
  intros Hlen Hg Hdef Hcl. simpl.
  rewrite length_fmap, length_seq.
  destruct (decide (length xs = length params)); [| contradiction].
  destruct (interp_node body xs (seq (length g) (length xs))
              ltac:(now rewrite length_seq) (with_inputs g xs)
              (with_inputs_forward g xs Hg))
    as (r & g' & Hrun & Hext & Hr & Hval & Hnew & Htan); try assumption.
  { intros j n Hn. apply lookup_seq in Hn as [-> Hj].
    rewrite with_inputs_length, with_inputs_node by assumption.
    split; [lia | reflexivity]. }
  exists r, g'. split; [exact Hrun |].
  split; [apply Hext |]. split; [exact Hval |].
  split.
  { destruct Hnew as [(j & -> & Hj) | Hnew].
    - apply lookup_seq in Hj as [-> Hj]. left. eauto.
    - right. rewrite with_inputs_length in Hnew. lia. }
  intros i Hi. unfold calculus.partial. apply Htan.
  - rewrite with_inputs_length. lia.
  - intros j n Hn. apply lookup_seq in Hn as [-> Hj].
    now apply with_inputs_sensitivity.
Qed.

Lemma sensitivity_new (g : Graph) (root n : nat) :
  root ≠ n → sensitivity g root n = entry g root n.
Proof.
  intros H. unfold sensitivity. destruct (decide (root = n)); [contradiction |].
  ring.
Qed.

(** The derivative operation of the reverse engine on a function of one
    output. *)
Lemma lambda_reverse (eval : reverse.py_eval) (params : list string)
    (body : expr) (source : exn + string) (inputs : pyinputs) (g : Graph) :
  let xs := as_list inputs in
  length xs = length params →
  forward_edges g →
  calculus.defined body xs → closed body = false →
  (∀ j, body ≠ EVar j) →
  ∃ g',
    reverse.reverse eval (autodiff.__init__ (lambda params body source))
      inputs g
    = Return (gradient_array body xs) g'.
Proof.
  intros xs Hlen Hg Hdef Hcl Hvar.
  destruct (lambda_node_call params body source xs g Hlen Hg Hdef Hcl)
    as (r & g' & Hcall & Hg' & _ & Hnew & Htan).
  destruct Hnew as [(j & Hj & _) | Hnew]; [now destruct (Hvar j) |].
  exists g'. unfold reverse.reverse. fold xs.
  destruct (decide (length xs ≠ n_inputs (autodiff.__init__
                                            (lambda params body source))))
    as [Hne | _]; [now destruct Hne |].
  unfold bind at 1. rewrite init_nodes_run. fold (with_inputs g xs).
  unfold bind at 1.
  change (funcs (autodiff.__init__ (lambda params body source)))
    with (lambda params body source).
  rewrite Hcall. unfold gradient_array.
  pose proof (defined_inputs body xs Hdef Hcl) as Hpos.
  destruct (decide (length xs = 1%nat)) as [H1 | H1].
  - rewrite lookup_total_seq_lt by lia.
    destruct (gradiant_run g' (length g + 0) Hg') as (m & Hm & Hentry).
    unfold bind. rewrite Hm. cbn [reverse.getitem]. unfold ret.
    rewrite Hentry. rewrite <- (Htan 0%nat) by lia.
    rewrite sensitivity_new by lia. reflexivity.
  - unfold bind.
    rewrite (list_comp_pure _ (fun n => entry g' n r) g').
    2:{ intros n _. now apply gradiant_entry. }
    unfold ret. do 2 f_equal. unfold calculus.gradient.
    replace (seq (length g) (length xs))
      with (Nat.add (length g) <$> seq 0 (length xs))
      by (rewrite fmap_add_seq; f_equal; lia).
    rewrite <- list_fmap_compose.
    apply list_fmap_ext. intros k i Hk. apply lookup_seq in Hk as [-> Hk].
    simpl. rewrite <- Htan by assumption.
    rewrite sensitivity_new by lia. reflexivity.
Qed.

(** X8.  For a function of one output whose body is an expression in its
    parameters, other than a bare parameter, and an input given as a list,
    at a point where no divisor is zero, every power has a positive base or
    an exponent without parameters that is a whole number at least one, and
    every elementary function is applied inside its domain, the derivative
    operation of the reverse engine returns the derivative given by the
    rules of calculus (the same result as the forward engine): a shared
    subexpression or a parameter used several times contributes once per
    path. *)
Theorem reverse_gradient (eval : reverse.py_eval) (params : list string)
    (body : expr) (source : exn + string) (xs : list R) (g : Graph) :
  length xs = length params →
  forward_edges g →
  calculus.defined body xs → closed body = false →
  (∀ j, body ≠ EVar j) →
  ∃ g',
    reverse.reverse eval (autodiff.__init__ (lambda params body source))
      (InSeq xs) g
    = Return (gradient_array body xs) g'.
Proof. exact (lambda_reverse eval params body source (InSeq xs) g). Qed.

End reverse_engine.

(** ** The values of expressions *)

Section engine_values.
Local Open Scope R_scope.
Import autodiff.

Lemma real_parts_duals (xs : list R) (d : Dual.t) (ds : list Dual.t)
    (g : Graph) :
  length xs ≠ 1%nat → ds !! 0%nat = Some d →
  forward.real_parts xs (VList (VDual <$> ds)) g
  = Return (Scalar (Dual.real d)) g.
Proof.
  intros H1 Hd. destruct ds as [| d' ds]; [discriminate |].
  injection Hd as ->. unfold forward.real_parts.
  destruct (decide (length xs = 1%nat)) as [Hc | _]; [contradiction |].
  unfold bind at 1. cbn [fmap list_fmap getitem0]. unfold ret at 1.
  cbv beta iota. unfold bind at 1. cbn [iter]. unfold ret at 1.
  cbv beta iota. unfold bind.
  rewrite (list_comp_getattr_real (d :: ds) g
           : list_comp (VDual d :: (VDual <$> ds)) getattr_real g = _).
  reflexivity.
Qed.

(** The value operations of both engines on a function of one output. *)
Lemma lambda_values (params : list string) (body : expr)
    (source : exn + string) (inputs : pyinputs) (g : Graph) :
  let xs := as_list inputs in
  let ad := autodiff.__init__ (lambda params body source) in
  length xs = length params →
  calculus.defined body xs → closed body = false →
  forward.get_value ad inputs g
  = Return (Scalar (calculus.value body xs)) g
  ∧ (forward_edges g →
     ∃ g', reverse.get_value ad inputs g
           = Return (Scalar (calculus.value body xs)) g').
Proof.
  intros xs ad Hlen Hdef Hcl. split.
  - unfold forward.get_value, bind. unfold ad.
    rewrite lambda_dual_forward by assumption. fold xs.
    destruct (decide (length xs = 1%nat)) as [H1 | H1].
    + unfold forward.real_parts.
      destruct (decide (length xs = 1%nat)); [reflexivity | contradiction].
    + pose proof (defined_inputs body xs Hdef Hcl) as Hpos.
      rewrite (real_parts_duals xs
                 (Dual.mk (calculus.value body xs)
                          (calculus.partial body xs 0))); [reflexivity | lia |].
      rewrite list_lookup_fmap, lookup_seq_lt by lia. reflexivity.
  - intros Hg.
    destruct (lambda_node_call params body source xs g Hlen Hg Hdef Hcl)
      as (r & g' & Hcall & Hg' & Hval & _ & _).
    exists g'. unfold reverse.get_value. fold xs.
    destruct (decide (length xs ≠ n_inputs ad)) as [Hne | _];
      [now destruct Hne |].
    unfold bind at 1. rewrite init_nodes_run. fold (with_inputs g xs).
    unfold bind at 1.
    change (funcs ad) with (lambda params body source).
    rewrite Hcall. unfold bind, node.real, ret. now rewrite Hval.
Qed.

(** X9.  For a function of one output whose body is an expression in its
    parameters and an input given as a list, at a point where no divisor is
    zero, every power has a positive base or an exponent without parameters
    that is a whole number at least one, and every elementary function is
    applied inside its domain, the value operations of both engines return
    the value of the expression, also for several inputs (where the forward
    engine evaluates the function once per input and returns the first
    result). *)
Theorem engines_value (params : list string) (body : expr)
    (source : exn + string) (xs : list R) (g : Graph) :
  let ad := autodiff.__init__ (lambda params body source) in
  length xs = length params →
  calculus.defined body xs → closed body = false →
  forward.get_value ad (InSeq xs) g
  = Return (Scalar (calculus.value body xs)) g
  ∧ (forward_edges g →
     ∃ g', reverse.get_value ad (InSeq xs) g
           = Return (Scalar (calculus.value body xs)) g').
Proof. exact (lambda_values params body source (InSeq xs) g). Qed.

End engine_values.

(** ** A function that returns a parameter *)

Section engine_edges.
Local Open Scope R_scope.
Import autodiff.

Lemma forward_gradient_witness :
  forward.forward
    (autodiff.__init__
       (lambda ["x"; "y"] product_plus_sine (inl (OtherError "OSError"))))
    (InSeq [2; 3]) []
  = Return (gradient_array product_plus_sine [2; 3]) [].
Proof.
  apply (forward_gradient ["x"; "y"] product_plus_sine
           (inl (OtherError "OSError")) [2; 3] []).
  - reflexivity.
  - simpl. repeat split; lia.
  - reflexivity.
Defined.

Lemma reverse_gradient_witness :
  ∃ g',
    reverse.reverse eval_name
      (autodiff.__init__
         (lambda ["x"; "y"] product_plus_sine (inl (OtherError "OSError"))))
      (InSeq [2; 3]) []
    = Return (gradient_array product_plus_sine [2; 3]) g'.
Proof.
  apply (reverse_gradient eval_name ["x"; "y"] product_plus_sine
           (inl (OtherError "OSError")) [2; 3] []).
  - reflexivity.
  - apply forward_edges_nil.
  - simpl. repeat split; lia.
  - reflexivity.
  - intros j. discriminate.
Defined.

Lemma engines_value_witness :
  let ad := autodiff.__init__
              (lambda ["x"; "y"] product_plus_sine
                 (inl (OtherError "OSError"))) in
  forward.get_value ad (InSeq [2; 3]) []
  = Return (Scalar (calculus.value product_plus_sine [2; 3])) []
  ∧ (forward_edges [] →
     ∃ g', reverse.get_value ad (InSeq [2; 3]) []
           = Return (Scalar (calculus.value product_plus_sine [2; 3])) g').
Proof.
  apply (engines_value ["x"; "y"] product_plus_sine
           (inl (OtherError "OSError")) [2; 3] []).
  - reflexivity.
  - simpl. repeat split; lia.
  - reflexivity.
Defined.

(** X10.  For a function that returns one of its
    parameters unchanged ([lambda x, y: x]), the forward engine returns
    the derivative (one for that parameter, zero for the others), but the
    reverse engine returns zero for every parameter: the gradient pass
    adds nothing to the entry of its own root. *)
Theorem reverse_of_parameter (eval : reverse.py_eval) (params : list string)
    (k : nat) (source : exn + string) (inputs : pyinputs) (g : Graph) :
  let xs := as_list inputs in
  let ad := autodiff.__init__ (lambda params (EVar k) source) in
  length xs = length params →
  (k < length xs)%nat →
  forward_edges g →
  forward.forward ad inputs g
  = Return (if decide (length xs = 1%nat) then Scalar 1
            else Vector ((fun i => if decide (i = k) then 1 else 0)
                           <$> seq 0 (length xs))) g
  ∧ ∃ g',
      reverse.reverse eval ad inputs g
      = Return (if decide (length xs = 1%nat) then Scalar 0
                else Vector ((fun _ => 0) <$> seq 0 (length xs))) g'.
Proof.
  intros xs ad Hlen Hk Hg. split.
  - unfold ad. rewrite lambda_forward; [| assumption | exact Hk | reflexivity].
    fold xs. unfold gradient_array, calculus.gradient, calculus.partial.
    cbn [calculus.tangent].
    assert (∀ i, (i < length xs)%nat →
              calculus.direction (length xs) i !!! k
              = if decide (i = k) then 1 else 0) as Hdir.
    { intros i Hi. unfold calculus.direction.
      rewrite (list_lookup_total_fmap _ (seq 0 (length xs)) k)
        by (rewrite length_seq; lia).
      rewrite lookup_total_seq_lt by assumption. simpl.
      destruct (decide (k = i)), (decide (i = k)); congruence. }
    destruct (decide (length xs = 1%nat)) as [H1 | H1].
    + rewrite Hdir by lia. destruct (decide (0%nat = k)); [reflexivity | lia].
    + do 2 f_equal. apply list_fmap_ext. intros j i Hj.
      apply lookup_seq in Hj as [-> Hj]. simpl. now apply Hdir.
  - destruct (lambda_node_call params (EVar k) source xs g Hlen Hg Hk eq_refl)
      as (r & g' & Hcall & Hg' & _ & _ & _).
    simpl in Hcall. rewrite length_fmap, length_seq in Hcall.
    destruct (decide (length xs = length params)); [| contradiction].
    rewrite list_lookup_fmap, lookup_seq_lt in Hcall by assumption.
    simpl in Hcall. injection Hcall as <- <-.
    pose proof (with_inputs_forward g xs Hg) as Hg0.
    assert (∀ i, (i < length xs)%nat →
              entry (with_inputs g xs) (length g + i) (length g + k) = 0)
      as Hzero.
    { intros i Hi. apply entry_no_edges; [assumption |].
      unfold edges. now rewrite with_inputs_node. }
    exists (with_inputs g xs). unfold reverse.reverse. fold xs.
    destruct (decide (length xs ≠ n_inputs ad)) as [Hne | _];
      [now destruct Hne |].
    unfold bind at 1. rewrite init_nodes_run. fold (with_inputs g xs).
    unfold bind at 1.
    change (funcs ad) with (lambda params (EVar k) source).
    cbn [call lambda]. rewrite length_fmap, length_seq.
    destruct (decide (length xs = length params)); [| contradiction].
    cbn [interp]. rewrite list_lookup_fmap, lookup_seq_lt by assumption.
    cbn [fmap option_fmap option_map]. unfold ret at 1.
    destruct (decide (length xs = 1%nat)) as [H1 | H1].
    + rewrite lookup_total_seq_lt by lia.
      destruct (gradiant_run (with_inputs g xs) (length g + 0) Hg0)
        as (m & Hm & Hentry).
      unfold bind. rewrite Hm. cbn [reverse.getitem]. unfold ret.
      rewrite Hentry, Hzero by lia. reflexivity.
    + unfold bind.
      rewrite (list_comp_pure _
                 (fun n => entry (with_inputs g xs) n (length g + k))
                 (with_inputs g xs)).
      2:{ intros n _. now apply gradiant_entry. }
      unfold ret. do 2 f_equal.
      replace (seq (length g) (length xs))
        with (Nat.add (length g) <$> seq 0 (length xs))
        by (rewrite fmap_add_seq; f_equal; lia).
      rewrite <- list_fmap_compose.
      apply list_fmap_ext. intros j i Hj. apply lookup_seq in Hj as [-> Hj].
      simpl. now apply Hzero.
Qed.

Lemma reverse_of_parameter_witness :
  let ad := autodiff.__init__ (lambda ["x"] (EVar 0) (inr "lambda x: x")) in
  forward.forward ad (InNum 3) [] = Return (Scalar 1) []
  ∧ ∃ g', reverse.reverse eval_name ad (InNum 3) [] = Return (Scalar 0) g'.
Proof.
  apply (reverse_of_parameter eval_name ["x"] 0 (inr "lambda x: x")
           (InNum 3) []).
  - reflexivity.
  - simpl. lia.
  - apply forward_edges_nil.
Defined.

End engine_edges.

(** ** Functions that return a number *)

Section constant_functions.
Local Open Scope R_scope.
Import autodiff.

Lemma existsb_is_list_nums (cs : list R) :
  existsb is_list (VNum <$> cs) = false.
Proof. induction cs as [| c cs IH]; [reflexivity |]. simpl. exact IH. Qed.

Lemma np_asarray_nums (cs : list R) (g : Graph) :
  np_asarray (VNum <$> cs) g = Return (VList (VNum <$> cs)) g.
Proof.
  unfold np_asarray. destruct cs as [| c cs]; [reflexivity |].
  cbn [fmap list_fmap].
  rewrite (existsb_is_list_nums (c :: cs)
           : existsb is_list (VNum c :: (VNum <$> cs)) = false).
  reflexivity.
Qed.

(** The result of [_dual_forward] for a function that returns a number. *)
Lemma constant_dual_forward (params : list string) (body : expr)
    (source : exn + string) (inputs : pyinputs) (g : Graph) :
  let xs := as_list inputs in
  length xs = length params → closed body = true →
  forward._dual_forward (autodiff.__init__ (lambda params body source))
    inputs g
  = Return
      (if decide (length xs = 1%nat) then VNum (calculus.value body xs)
       else VList (VNum <$> ((fun _ => calculus.value body xs)
                               <$> seq 0 (length xs)))) g.
Proof.
  intros xs Hlen Hcl. rewrite dual_forward_seeded by exact Hlen.
  fold xs. unfold seeded_calls.
  assert (∀ idx g,
            call (lambda params body source) (VDual <$> seeds xs idx) g
            = Return (VNum (calculus.value body xs)) g) as Hcall.
  { intros idx g0. simpl. rewrite length_fmap. unfold seeds.
    rewrite length_imap.
    destruct (decide (length xs = length params)); [| contradiction].
    now apply interp_closed. }
  destruct (decide (length xs = 1%nat)) as [H1 | H1].
  - apply Hcall.
  - unfold bind.
    rewrite (list_comp_pure _ (fun _ => VNum (calculus.value body xs)) g).
    2:{ intros idx _. apply Hcall. }
    rewrite <- np_asarray_nums. f_equal. now rewrite <- list_fmap_compose.
Qed.

(** X11.  A function whose body has no
    parameter in it (it returns a plain number) is not supported: the
    value and derivative operations of the forward engine and the value
    operation of the reverse engine raise [TypeError] (a number is not
    iterable), and the derivative operation of the reverse engine raises
    the [ValueError] of its branch for several outputs.  (The expression
    is taken at a point where Python evaluates it without an error of
    arithmetic.) *)
Theorem constant_function_unsupported (eval : reverse.py_eval)
    (params : list string) (body : expr) (source : exn + string)
    (inputs : pyinputs) (g : Graph) :
  let xs := as_list inputs in
  let ad := autodiff.__init__ (lambda params body source) in
  length xs = length params → (0 < length xs)%nat →
  calculus.defined body xs → closed body = true →
  (∃ msg, forward.get_value ad inputs g = Raise (TypeError msg))
  ∧ (∃ msg, forward.forward ad inputs g = Raise (TypeError msg))
  ∧ (∃ msg, reverse.get_value ad inputs g = Raise (TypeError msg))
  ∧ reverse.reverse eval ad inputs g = Raise (ValueError reverse.err_msg).
Proof.
  intros xs ad Hlen Hpos _ Hcl.
  assert (∀ g0, call (lambda params body source)
                  (VNode <$> seq (length g) (length xs)) g0
                = Return (VNum (calculus.value body xs)) g0) as Hnode.
  { intros g0. simpl. rewrite length_fmap, length_seq.
    destruct (decide (length xs = length params)); [| contradiction].
    now apply interp_closed. }
  assert (∃ rest, (fun _ : nat => calculus.value body xs)
                    <$> seq 0 (length xs)
                  = calculus.value body xs :: rest) as [rest Hrest].
  { destruct (length xs); [lia |]. eexists. reflexivity. }
  split; [| split; [| split]].
  - unfold forward.get_value, bind. unfold ad.
    rewrite constant_dual_forward by assumption. fold xs.
    unfold forward.real_parts.
    destruct (decide (length xs = 1%nat)) as [H1 | H1].
    + eexists. reflexivity.
    + rewrite Hrest. eexists. reflexivity.
  - unfold forward.forward, bind. unfold ad.
    rewrite constant_dual_forward by assumption. fold xs.
    unfold forward.dual_parts.
    destruct (decide (length xs = 1%nat)) as [H1 | H1].
    + eexists. reflexivity.
    + rewrite Hrest. eexists. reflexivity.
  - unfold reverse.get_value. fold xs.
    destruct (decide (length xs ≠ n_inputs ad)) as [Hne | _];
      [now destruct Hne |].
    unfold bind at 1. rewrite init_nodes_run.
    unfold bind at 1. change (funcs ad) with (lambda params body source).
    rewrite Hnode. eexists. reflexivity.
  - unfold reverse.reverse. fold xs.
    destruct (decide (length xs ≠ n_inputs ad)) as [Hne | _];
      [now destruct Hne |].
    unfold bind at 1. rewrite init_nodes_run.
    unfold bind at 1. change (funcs ad) with (lambda params body source).
    rewrite Hnode. reflexivity.
Qed.

Lemma constant_function_unsupported_witness :
  let ad := autodiff.__init__ (lambda ["x"] (ENum 5) (inr "lambda x: 5")) in
  (∃ msg, forward.get_value ad (InNum 2) [] = Raise (TypeError msg))
  ∧ (∃ msg, forward.forward ad (InNum 2) [] = Raise (TypeError msg))
  ∧ (∃ msg, reverse.get_value ad (InNum 2) [] = Raise (TypeError msg))
  ∧ reverse.reverse eval_name ad (InNum 2) []
    = Raise (ValueError reverse.err_msg).
Proof.
  apply (constant_function_unsupported eval_name ["x"] (ENum 5)
           (inr "lambda x: 5") (InNum 2) []).
  - reflexivity.
  - simpl. lia.
  - exact I.
  - reflexivity.
Defined.

End constant_functions.

(** ** Operands that are not supported; [str] *)

Section operand_kinds.
Local Open Scope R_scope.

(** X12.  Every binary operator on nodes creates one node
    that holds the value of the operation and appends, to each operand
    that is a node, one edge to it that carries the partial derivative of
    the operation in that operand (sum, difference, product, quotient and
    power rule); a number operand gets no edge; when both operands are the
    same node both edges are appended to it.  The unary minus appends one
    edge with partial [-1]. *)
Theorem node_arithmetic (op : binop) (a b : nat) (c : R) (g : Graph) :
  (a < length g)%nat → (b < length g)%nat →
  let x := Node.real (g !!! a) in
  let y := Node.real (g !!! b) in
  apply_binop op (VNode a) (VNode b) g
  = Return (VNode (length g))
      (grow g (calculus.binary op x y)
         [(a, calculus.d_left op x y); (b, calculus.d_right op x y)])
  ∧ apply_binop op (VNode a) (VNum c) g
    = Return (VNode (length g))
        (grow g (calculus.binary op x c) [(a, calculus.d_left op x c)])
  ∧ apply_binop op (VNum c) (VNode b) g
    = Return (VNode (length g))
        (grow g (calculus.binary op c y) [(b, calculus.d_right op c y)])
  ∧ operator.neg (VNode a) g
    = Return (VNode (length g)) (grow g (- x) [(a, -1)]).
Proof.
  intros Ha Hb x y.
  split; [now apply binop_node_node |].
  split; [now apply binop_node_num |].
  split; [now apply binop_num_node | now apply neg_node].
Qed.

Lemma node_arithmetic_witness :
  let g := [Node.mk 2 []] in
  apply_binop OpMul (VNode 0) (VNode 0) g
  = Return (VNode 1) (grow g (2 * 2) [(0%nat, 2); (0%nat, 2)])
  ∧ apply_binop OpMul (VNode 0) (VNum 5) g
    = Return (VNode 1) (grow g (2 * 5) [(0%nat, 5)])
  ∧ apply_binop OpMul (VNum 5) (VNode 0) g
    = Return (VNode 1) (grow g (5 * 2) [(0%nat, 5)])
  ∧ operator.neg (VNode 0) g = Return (VNode 1) (grow g (- 2) [(0%nat, -1)]).
Proof.
  apply (node_arithmetic OpMul 0 0 5 [Node.mk 2 []]); simpl; lia.
Defined.

(** X13.  A dual as the first operand of a binary
    operator accepts a number or a dual, a node as the first operand a
    number or a node: for every other second operand (a node with a dual,
    a dual with a node, a text, a list, a module) the method of the
    library raises [TypeError].  An elementary function raises [TypeError]
    for an argument that is not a number, a dual or a node. *)
Theorem unsupported_operands (op : binop) (f : elem_fn) (a b : pyval)
    (g : Graph) :
  (∀ d : Dual.t,
     match b with
     | VNum _ | VDual _ => True
     | _ => ∃ msg, apply_binop op (VDual d) b g = Raise (TypeError msg)
     end)
  ∧ (∀ n : nat,
       match b with
       | VNum _ | VNode _ => True
       | _ => ∃ msg, apply_binop op (VNode n) b g = Raise (TypeError msg)
       end)
  ∧ match a with
    | VNum _ | VDual _ | VNode _ => True
    | _ => ∃ msg, apply_elem f a g = Raise (TypeError msg)
    end.
Proof.
  split; [| split].
  - intros d. destruct b; try exact I; destruct op; eexists; reflexivity.
  - intros n. destruct b; try exact I; destruct op; eexists; reflexivity.
  - destruct a; try exact I; destruct f; eexists; reflexivity.
Qed.

End operand_kinds.

Section string_representation.
Import autodiff.

Lemma but_last_cons (x : Ascii.ascii) (t : string) :
  t ≠ EmptyString → but_last (String x t) = String x (but_last t).
Proof. destruct t; [contradiction | reflexivity]. Qed.

Lemma but_last_app_r (s t : string) :
  t ≠ EmptyString → but_last (s +:+ t) = s +:+ but_last t.
Proof.
  intros Ht. induction s as [| x s IH]; [reflexivity |].
  change (String x s +:+ ?u) with (String x (s +:+ u)).
  rewrite but_last_cons by (destruct s; [exact Ht | discriminate]).
  now rewrite IH.
Qed.

Lemma string_app_assoc (s t u : string) :
  s +:+ (t +:+ u) = (s +:+ t) +:+ u.
Proof.
  induction s as [| x s IH]; [reflexivity |].
  change (String x s +:+ ?v) with (String x (s +:+ v)). now rewrite IH.
Qed.

(** X14.  [str] of a forward or reverse engine is the sentence
    of the base class without its final full stop, followed by the mode:
    one sentence that ends with one full stop. *)
Theorem engine_str (self : AutoDiff) :
  forward.__str__ self
  = "This is Forward class with function(s) of " +:+ pretty (n_inputs self)
    +:+ " inputs, computing Automatic Differentiation in forward mode."
  ∧ reverse.__str__ self
    = "This is Reverse class with function(s) of " +:+ pretty (n_inputs self)
      +:+ " inputs, computing Automatic Differentiation in reverse mode.".
Proof.
  unfold forward.__str__, reverse.__str__, autodiff.__str__.
  rewrite !but_last_app_r by discriminate.
  rewrite !but_last_app_r by (destruct (pretty (n_inputs self)); discriminate).
  cbn [String.app but_last]. rewrite <- !string_app_assoc.
  split; reflexivity.
Qed.

End string_representation.

(** ** Operations and the entries of the gradient passes *)

Section entries_of_operations.
Local Open Scope R_scope.

(** X15.  On a store whose edges point forward, the
    entry of node [n] in the gradient pass from [root] is the sum, over the
    edges out of [root], of the partial of the edge times: one if the edge
    ends at [n], plus the entry of [n] in the pass from the child.  The
    pass from a node without edges returns the empty dictionary. *)
Theorem gradient_chain_rule (g : Graph) (root n : nat) :
  forward_edges g →
  entry g root n
  = sum_R ((fun e : nat * R =>
              e.2 * ((if decide (e.1 = n) then 1 else 0) + entry g e.1 n))
             <$> edges g root)
  ∧ (edges g root = [] → reverse._gradiant root g = Return ∅ g).
Proof.
  intros Hg. split; [now apply entry_step |].
  intros Hnil. unfold reverse._gradiant. cbn [reverse._calc_grad].
  unfold edges in Hnil. now rewrite Hnil.
Qed.

Lemma two_edges_forward :
  forward_edges [Node.mk 3 [(1%nat, 3); (1%nat, 3)]; Node.mk 9 []].
Proof.
  change (forward_edges (grow (with_inputs [] [3]) 9 [(0%nat, 3); (0%nat, 3)])).
  apply grow_forward, with_inputs_forward, forward_edges_nil.
Qed.

Lemma gradient_chain_rule_witness :
  let g := [Node.mk 3 [(1%nat, 3); (1%nat, 3)]; Node.mk 9 []] in
  entry g 0 1
  = sum_R ((fun e : nat * R =>
              e.2 * ((if decide (e.1 = 1%nat) then 1 else 0) + entry g e.1 1))
             <$> edges g 0)
  ∧ (edges g 0 = [] → reverse._gradiant 0 g = Return ∅ g).
Proof.
  apply (gradient_chain_rule
           [Node.mk 3 [(1%nat, 3); (1%nat, 3)]; Node.mk 9 []] 0 1).
  apply two_edges_forward.
Defined.

(** Every operation on nodes of the store grows it by edges that start
    at nodes of the store. *)
Lemma op_grows_sources (op : node_op) (self : nat) (g g' : Graph) (v : pyval) :
  (self < length g)%nat →
  (∀ o, operand op = Some o → (o < length g)%nat) →
  apply_op op self g = Return v g' →
  ∃ value es, g' = grow g value es ∧ ∀ e, e ∈ es → (e.1 < length g)%nat.
Proof.
  intros Hself Hother Hrun.
  assert (∀ p q : R, ∀ e : nat * R, e ∈ [(self, p)] → (e.1 < length g)%nat)
    as Hone.
  { intros p _ e He. apply list_elem_of_singleton in He as ->. assumption. }
  assert (∀ o p q, (o < length g)%nat →
            ∀ e : nat * R, e ∈ [(self, p); (o, q)] → (e.1 < length g)%nat)
    as Htwo.
  { intros o p q Ho e He. apply elem_of_cons in He as [-> | He]; [assumption |].
    apply list_elem_of_singleton in He as ->. assumption. }
  destruct op as [| other | other | other | other | other | other | other
                  | other | other | other | f];
    try (destruct other as [k | d | o | s | l |];
         try (assert (o < length g)%nat as Ho by (apply Hother; reflexivity));
         cbv [apply_op operator.of_node node.__neg__ node.__add__ node.__radd__
              node.__mul__ node.__rmul__ node.__sub__ node.__rsub__
              node.__truediv__ node.__rtruediv__ node.__pow__ node.__rpow__
              bind raise ret node.real node.__init__ node.append] in Hrun;
         try discriminate Hrun; injection Hrun as <- <-;
         first [ (eexists _, [(self, _); (o, _)];
                  split; [| now apply Htwo];
                  unfold grow, add_edges; simpl;
                  rewrite !alter_app_l by (rewrite ?length_alter; lia);
                  reflexivity)
               | (eexists _, [(self, _)];
                  split; [| now apply (Hone _ 0)];
                  unfold grow, add_edges; simpl;
                  rewrite !alter_app_l by (rewrite ?length_alter; lia);
                  reflexivity) ]).
  - cbv [apply_op operator.of_node node.__neg__ bind raise ret node.real
         node.__init__ node.append] in Hrun.
    injection Hrun as <- <-.
    eexists _, [(self, _)]. split; [| now apply (Hone _ 0)].
    unfold grow, add_edges. simpl. now rewrite alter_app_l.
  - simpl in Hrun. destruct (elem_node_shape f self g Hself) as (val & d & Hf).
    rewrite Hf in Hrun. injection Hrun as <- <-.
    exists val, [(self, d)]. split; [apply one_edge_grow | now apply (Hone _ 0)].
Qed.

(** X16.  An operation on nodes does not change
    the derivatives that the graph already holds: every entry of a node
    that existed, in the gradient pass from any root, is the same after
    the operation as before; the pass from the node that the operation
    creates, or from a reference beyond the store, has no entry other
    than zero. *)
Theorem operation_keeps_entries (op : node_op) (self : nat)
    (g g' : Graph) (v : pyval) (root : nat) :
  (self < length g)%nat →
  (∀ o, operand op = Some o → (o < length g)%nat) →
  forward_edges g →
  apply_op op self g = Return v g' →
  (∀ n, (n < length g)%nat → entry g' root n = entry g root n)
  ∧ (∀ n, entry g' (length g) n = 0)
  ∧ ((length g ≤ root)%nat → ∀ n, entry g' root n = 0).
Proof.
  intros Hself Hother Hg Hrun.
  destruct (op_grows_sources op self g g' v Hself Hother Hrun)
    as (val & es & -> & Hes).
  pose proof (grow_forward g val es Hg) as Hg'.
  split; [| split].
  - intros n Hn.
    destruct (grow_entries g val es Hg Hes (length g) root ltac:(lia))
      as [H _].
    now apply H.
  - intros n. apply entry_no_edges; [assumption |]. now apply grow_edges_new.
  - intros Hroot n. apply entry_no_edges; [assumption |].
    now apply grow_edges_new.
Qed.

Lemma operation_keeps_entries_witness :
  let g := [Node.mk 3 [(1%nat, 3); (1%nat, 3)]; Node.mk 9 []] in
  let g' := [Node.mk 3 [(1%nat, 3); (1%nat, 3)]; Node.mk 9 [(2%nat, cos 9)];
             Node.mk (sin 9) []] in
  (∀ n, (n < length g)%nat → entry g' 0 n = entry g 0 n)
  ∧ (∀ n, entry g' (length g) n = 0)
  ∧ ((length g ≤ 0)%nat → ∀ n, entry g' 0 n = 0).
Proof.
  apply (operation_keeps_entries (Elem Sin) 1
           [Node.mk 3 [(1%nat, 3); (1%nat, 3)]; Node.mk 9 []] _
           (VNode 2) 0).
  - simpl. lia.
  - intros o Ho. discriminate.
  - apply two_edges_forward.
  - reflexivity.
Defined.

End entries_of_operations.

(** ** The derivatives of the elementary functions *)

Section analytic_derivatives.
Local Open Scope R_scope.
Import closed_form.

Lemma derivable_pt_lim_eq (f : R → R) (x l l' : R) :
  l = l' → derivable_pt_lim f x l → derivable_pt_lim f x l'.
Proof. now intros ->. Qed.

Lemma derivable_pt_lim_tan_closed (x : R) :
  cos x ≠ 0 → derivable_pt_lim tan x (sec x)².
Proof.
  intros Hc.
  apply (derivable_pt_lim_eq _ _
           ((cos x * cos x - (- sin x) * sin x) / (cos x)²)).
  - unfold sec, Rsqr. pose proof (sin2_cos2 x) as H. unfold Rsqr in H.
    field_simplify; [| assumption | assumption].
    replace (cos x ^ 2 + sin x ^ 2) with 1 by (simpl; lra).
    field. assumption.
  - apply (derivable_pt_lim_div sin cos x (cos x) (- sin x)).
    + apply derivable_pt_lim_sin.
    + apply derivable_pt_lim_cos.
    + assumption.
Qed.

Lemma cosh_pos (x : R) : 0 < cosh x.
Proof.
  unfold cosh. pose proof (exp_pos x). pose proof (exp_pos (- x)). lra.
Qed.

Lemma cosh2_sinh2 (x : R) : cosh x * cosh x - sinh x * sinh x = 1.
Proof.
  unfold cosh, sinh. rewrite exp_Ropp. pose proof (exp_pos x). field. lra.
Qed.

Lemma derivable_pt_lim_tanh_closed (x : R) :
  derivable_pt_lim tanh x (1 - (tanh x)²).
Proof.
  pose proof (cosh_pos x) as Hc.
  apply (derivable_pt_lim_eq _ _
           ((cosh x * cosh x - sinh x * sinh x) / (cosh x)²)).
  - unfold tanh, Rsqr. field. lra.
  - apply (derivable_pt_lim_div sinh cosh x (cosh x) (sinh x)).
    + apply derivable_pt_lim_sinh.
    + apply derivable_pt_lim_cosh.
    + lra.
Qed.

Lemma derivable_pt_lim_sigma (x : R) :
  derivable_pt_lim sigma x (sigma x * (1 - sigma x)).
Proof.
  pose proof (exp_pos (- x)) as He.
  assert (derivable_pt_lim (fun t => exp (- t)) x (- exp (- x))) as Hexp.
  { apply (derivable_pt_lim_eq _ _ (exp (- x) * -1)); [ring |].
    apply (derivable_pt_lim_comp (fun t => - t) exp x (-1) (exp (- x))).
    - apply (derivable_pt_lim_eq _ _ (- 1)); [ring |].
      apply (derivable_pt_lim_opp id x 1), derivable_pt_lim_id.
    - apply derivable_pt_lim_exp. }
  assert (derivable_pt_lim (fun t => 1 + exp (- t)) x (- exp (- x))) as Hden.
  { apply (derivable_pt_lim_eq _ _ (0 + - exp (- x))); [ring |].
    apply (derivable_pt_lim_plus (fct_cte 1) (fun t => exp (- t)) x 0 _).
    - apply derivable_pt_lim_const.
    - exact Hexp. }
  apply (derivable_pt_lim_eq _ _
           ((0 * (1 + exp (- x)) - (- exp (- x)) * 1) / (1 + exp (- x))²)).
  - unfold sigma, Rsqr. field. lra.
  - apply (derivable_pt_lim_div (fct_cte 1) (fun t => 1 + exp (- t)) x 0 _).
    + apply derivable_pt_lim_const.
    + exact Hden.
    + lra.
Qed.

(** The closed form of the derivative of each elementary function is the
    derivative of its value. *)
Lemma elem_derivable (f : elem_fn) (x : R) :
  defined_at f x → derivable_pt_lim (value f) x (derivative f x).
Proof.
  destruct f; simpl; intros Hdef.
  - apply derivable_pt_lim_sin.
  - apply derivable_pt_lim_cos.
  - now apply derivable_pt_lim_tan_closed.
  - apply derivable_pt_lim_exp.
  - apply (derivable_pt_lim_eq _ _ (/ (2 * sqrt x))).
    + unfold Rdiv. ring.
    + now apply derivable_pt_lim_sqrt.
  - apply (derivable_pt_lim_eq _ _ (/ x)).
    + unfold Rdiv. ring.
    + now apply derivable_pt_lim_ln.
  - destruct Hdef as (Hx & Hb & Hb1).
    assert (ln base ≠ 0) as Hln.
    { intros H0. apply Hb1. rewrite <- (exp_ln base Hb), H0. apply exp_0. }
    apply (derivable_pt_lim_eq _ _ (/ x / ln base)).
    + field. split; [assumption | lra].
    + apply (derivable_pt_lim_div_scal ln x (/ x) (ln base)).
      now apply derivable_pt_lim_ln.
  - apply (derivable_pt_lim_eq _ _ (1 / sqrt (1 - x²))); [reflexivity |].
    rewrite <- (derive_pt_asin x Hdef). apply derive_pt_eq_1 with (pr := derivable_pt_asin x Hdef). reflexivity.
  - apply (derivable_pt_lim_eq _ _ (-1 / sqrt (1 - x²))).
    + unfold Rdiv. ring.
    + rewrite <- (derive_pt_acos x Hdef). apply derive_pt_eq_1 with (pr := derivable_pt_acos x Hdef). reflexivity.
  - apply (derivable_pt_lim_eq _ _ (/ (1 + x ^ 2))).
    + unfold Rsqr, Rdiv. simpl. f_equal. 
      replace (1 + x * (x * 1)) with (1 + x * x) by ring. ring.
    + apply derivable_pt_lim_atan.
  - apply derivable_pt_lim_sinh.
  - apply derivable_pt_lim_cosh.
  - apply derivable_pt_lim_tanh_closed.
  - apply derivable_pt_lim_sigma.
Qed.

End analytic_derivatives.

(** ** The derivative of an expression *)

Section analytic_expressions.
Local Open Scope R_scope.

Lemma py_pow_Rpower (x y : R) : 0 < x → py_pow x y = Rpower x y.
Proof.
  intros Hx. unfold py_pow.
  destruct (Req_dec_T (frac_part y) 0) as [Hf | Hf].
  - rewrite powerRZ_Rpower by assumption. f_equal.
    unfold frac_part in Hf. lra.
  - destruct (Rlt_dec 0 x); [reflexivity | contradiction].
Qed.

Lemma py_pow_INR (x : R) (n : nat) : py_pow x (INR n) = x ^ n.
Proof. now rewrite INR_IZR_INZ, py_pow_int, <- pow_powerRZ. Qed.

(** The value of an expression without parameters does not depend on the
    point. *)
Lemma value_closed (e : expr) (xs ys : list R) :
  closed e = true → calculus.value e xs = calculus.value e ys.
Proof.
  induction e as [i | c | a IHa | op a IHa b IHb | f a IHa]; simpl; intros H.
  - discriminate.
  - reflexivity.
  - now rewrite IHa.
  - apply andb_prop in H as [Ha Hb]. now rewrite IHa, IHb.
  - now rewrite IHa.
Qed.

(** A function with a derivative at a point where it is positive is
    positive around the point. *)
Lemma positive_nearby (F : R → R) (x l : R) :
  derivable_pt_lim F x l → 0 < F x →
  ∃ d : R, 0 < d ∧ ∀ z, x - d < z < x + d → 0 < F z.
Proof.
  intros HF Hpos.
  pose proof (derivable_continuous_pt F x (exist _ l HF)) as Hc.
  destruct (Hc (F x) Hpos) as (alp & Halp & Hnear).
  exists alp. split; [lra |]. intros z Hz.
  destruct (Req_dec x z) as [<- | Hne]; [assumption |].
  specialize (Hnear z). simpl in Hnear. unfold R_dist, D_x, no_cond in Hnear.
  assert (Rabs (z - x) < alp) as Hd by (apply Rabs_def1; lra).
  specialize (Hnear (conj (conj I Hne) Hd)).
  apply Rabs_def2 in Hnear. lra.
Qed.

(** The derivative of [F ** G] at a point where [F] is positive. *)
Lemma derivable_pt_lim_py_pow (F G : R → R) (x lf lg : R) :
  derivable_pt_lim F x lf → derivable_pt_lim G x lg → 0 < F x →
  derivable_pt_lim (fun t => py_pow (F t) (G t)) x
    (G x * py_pow (F x) (G x - 1) * lf + py_pow (F x) (G x) * ln (F x) * lg).
Proof.
  intros HF HG Hpos.
  destruct (positive_nearby F x lf HF Hpos) as (d & Hd & Hnear).
  apply (derivable_pt_lim_locally_ext
           (fun t => exp (G t * ln (F t))) _ x (x - d) (x + d)).
  - lra.
  - intros z Hz. rewrite py_pow_Rpower by now apply Hnear. reflexivity.
  - apply (derivable_pt_lim_eq _ _
             (exp (G x * ln (F x)) * (lg * ln (F x) + G x * (/ F x * lf)))).
    + rewrite py_pow_pred by assumption.
      rewrite py_pow_Rpower by assumption. unfold Rpower. field. lra.
    + apply (derivable_pt_lim_comp (fun t => G t * ln (F t)) exp x).
      * apply (derivable_pt_lim_mult G (fun t => ln (F t)) x).
        -- exact HG.
        -- apply (derivable_pt_lim_comp F ln x lf (/ F x)).
           ++ exact HF.
           ++ now apply derivable_pt_lim_ln.
      * apply derivable_pt_lim_exp.
Qed.

Lemma direction_lookup (n i j : nat) :
  (j < n)%nat →
  calculus.direction n i !!! j = if decide (j = i) then 1 else 0.
Proof.
  intros Hj. unfold calculus.direction.
  rewrite (list_lookup_total_fmap _ (seq 0 n) j) by (rewrite length_seq; lia).
  now rewrite lookup_total_seq_lt.
Qed.

Lemma partial_is_derivative (e : expr) (xs : list R) (i : nat) :
  (i < length xs)%nat →
  calculus.defined e xs →
  derivable_pt_lim (fun t => calculus.value e (<[i := t]> xs)) (xs !!! i)
    (calculus.partial e xs i).
Proof.
  intros Hi. unfold calculus.partial.
  set (x := xs !!! i). set (ts := calculus.direction (length xs) i).
  assert (<[i := x]> xs = xs) as Hid.
  { apply list_insert_id. now apply list_lookup_lookup_total_lt. }
  induction e as [j | c | a IHa | op a IHa b IHb | f a IHa];
    intros Hdef; simpl in Hdef.
  - (* a parameter *)
    cbn [calculus.value calculus.tangent]. unfold ts.
    rewrite direction_lookup by assumption.
    destruct (decide (j = i)) as [-> | Hne].
    + apply (derivable_pt_lim_ext id).
      * intros z. rewrite list_lookup_total_insert_eq by assumption. reflexivity.
      * apply derivable_pt_lim_id.
    + apply (derivable_pt_lim_ext (fct_cte (xs !!! j))).
      * intros z. rewrite list_lookup_total_insert_ne by congruence. reflexivity.
      * apply derivable_pt_lim_const.
  - apply (derivable_pt_lim_const c).
  - cbn [calculus.value calculus.tangent].
    apply (derivable_pt_lim_opp (fun t => calculus.value a (<[i:=t]> xs))).
    now apply IHa.
  - destruct Hdef as (Hda & Hdb & Hop).
    specialize (IHa Hda). specialize (IHb Hdb).
    cbn [calculus.value calculus.tangent].
    set (Fa := fun t => calculus.value a (<[i:=t]> xs)) in *.
    set (Fb := fun t => calculus.value b (<[i:=t]> xs)) in *.
    assert (Fa x = calculus.value a xs) as Hax by (unfold Fa; now rewrite Hid).
    assert (Fb x = calculus.value b xs) as Hbx by (unfold Fb; now rewrite Hid).
    destruct op; cbn [calculus.binary calculus.d_left calculus.d_right].
    + apply (derivable_pt_lim_eq _ _
               (calculus.tangent a xs ts + calculus.tangent b xs ts));
        [ring |].
      apply (derivable_pt_lim_plus Fa Fb x); assumption.
    + apply (derivable_pt_lim_eq _ _
               (calculus.tangent a xs ts - calculus.tangent b xs ts));
        [ring |].
      apply (derivable_pt_lim_minus Fa Fb x); assumption.
    + apply (derivable_pt_lim_eq _ _
               (calculus.tangent a xs ts * Fb x
                + Fa x * calculus.tangent b xs ts));
        [rewrite Hax, Hbx; ring |].
      apply (derivable_pt_lim_mult Fa Fb x); assumption.
    + apply (derivable_pt_lim_eq _ _
               ((calculus.tangent a xs ts * Fb x
                 - calculus.tangent b xs ts * Fa x) / (Fb x)²)).
      * rewrite Hax, Hbx. unfold Rsqr. field. assumption.
      * apply (derivable_pt_lim_div Fa Fb x); [assumption .. |].
        now rewrite Hbx.
    + destruct Hop as [Hpos | (Hcl & n & Hn & Hvb)].
      * rewrite <- Hax, <- Hbx.
        apply (derivable_pt_lim_py_pow Fa Fb x); try assumption.
        now rewrite Hax.
      * apply (derivable_pt_lim_ext (fun t => Fa t ^ n)).
        { intros z. unfold Fb.
          rewrite (value_closed b (<[i:=z]> xs) xs Hcl), Hvb.
          now rewrite py_pow_INR. }
        rewrite (tangent_closed b) by assumption. rewrite Hvb.
        destruct n as [| m]; [lia |].
        rewrite S_INR. replace (INR m + 1 - 1) with (INR m) by ring.
        rewrite py_pow_INR, <- S_INR.
        apply (derivable_pt_lim_eq _ _
                 (INR (S m) * Fa x ^ pred (S m) * calculus.tangent a xs ts)).
        { rewrite Hax. simpl pred. ring. }
        apply (derivable_pt_lim_comp Fa (fun y => y ^ S m) x).
        { assumption. }
        apply derivable_pt_lim_pow.
  - destruct Hdef as [Hda Hf]. specialize (IHa Hda).
    cbn [calculus.value calculus.tangent].
    set (Fa := fun t => calculus.value a (<[i:=t]> xs)) in *.
    assert (Fa x = calculus.value a xs) as Hax by (unfold Fa; now rewrite Hid).
    apply (derivable_pt_lim_comp Fa (closed_form.value f) x).
    + assumption.
    + rewrite Hax. now apply elem_derivable.
Qed.

End analytic_expressions.

(** ** The engines and the derivative of analysis *)

Section derivatives_of_analysis.
Local Open Scope R_scope.
Import closed_form.

(** X17.  An elementary function applied
    to [Dual(t, d)] returns a dual whose real part is a function [v] of
    [t] alone and whose dual part is [dv t * d]; at every point inside the
    domain of the function, [dv] is the derivative of [v] in the sense of
    analysis: the dual part returned for [Dual(x, 1)] is the slope of the
    function at [x]. *)
Theorem elementary_derivative_is_analytic (f : elem_fn) (x : R) :
  defined_at f x →
  ∃ v dv : R → R,
    (∀ t d g,
       apply_elem f (VDual (Dual.mk t d)) g
       = Return (VDual (Dual.mk (v t) (dv t * d))) g)
    ∧ (∀ t g, apply_elem f (VNum t) g = Return (VNum (v t)) g)
    ∧ derivable_pt_lim v x (dv x).
Proof.
  intros Hdef. exists (value f), (derivative f).
  split; [| split].
  - intros t d g. apply (elem_dual_run f (Dual.mk t d) g).
  - intros t g. apply elem_num_run.
  - now apply elem_derivable.
Qed.

Lemma elementary_derivative_is_analytic_witness :
  ∃ v dv : R → R,
    (∀ t d g,
       apply_elem Sqrt (VDual (Dual.mk t d)) g
       = Return (VDual (Dual.mk (v t) (dv t * d))) g)
    ∧ (∀ t g, apply_elem Sqrt (VNum t) g = Return (VNum (v t)) g)
    ∧ derivable_pt_lim v 4 (dv 4).
Proof.
  apply (elementary_derivative_is_analytic Sqrt 4). simpl. lra.
Defined.

(** The result of the forward engine and the derivative of analysis. *)
Lemma lambda_forward_analytic (params : list string) (body : expr)
    (source : exn + string) (inputs : pyinputs) (g : Graph) :
  let xs := as_list inputs in
  length xs = length params →
  calculus.defined body xs → closed body = false →
  ∃ ds : list R,
    forward.forward (autodiff.__init__ (lambda params body source)) inputs g
    = Return (if decide (length xs = 1%nat) then Scalar (ds !!! 0%nat)
              else Vector ds) g
    ∧ length ds = length xs
    ∧ ∀ i, (i < length xs)%nat →
        derivable_pt_lim
          (fun t => calculus.value body (<[i := t]> xs))
          (xs !!! i) (ds !!! i).
Proof.
  intros xs Hlen Hdef Hcl. exists (calculus.gradient body xs).
  assert (∀ i, (i < length xs)%nat →
            calculus.gradient body xs !!! i = calculus.partial body xs i)
    as Hcomp.
  { intros i Hi. unfold calculus.gradient.
    rewrite (list_lookup_total_fmap _ (seq 0 (length xs)) i)
      by (rewrite length_seq; lia).
    now rewrite lookup_total_seq_lt. }
  split; [| split].
  - rewrite lambda_forward by assumption. fold xs. unfold gradient_array.
    destruct (decide (length xs = 1%nat)); [| reflexivity].
    rewrite Hcomp by lia. reflexivity.
  - unfold calculus.gradient. now rewrite length_fmap, length_seq.
  - intros i Hi. rewrite Hcomp by assumption.
    now apply partial_is_derivative.
Qed.

(** X18.  For a function of one output whose body is an expression of its
    parameters and an input given as a list, at a point where no divisor is
    zero, every power has a positive base or an exponent without parameters
    that is a whole number at least one, and every elementary function is
    applied inside its domain, the number that the forward engine returns
    for parameter [i] is the derivative, in the sense of analysis, of the
    value of the expression as a function of parameter [i] alone (the other
    parameters fixed): the partial derivative. *)
Theorem forward_derivative_is_analytic (params : list string) (body : expr)
    (source : exn + string) (xs : list R) (g : Graph) :
  length xs = length params →
  calculus.defined body xs → closed body = false →
  ∃ ds : list R,
    forward.forward (autodiff.__init__ (lambda params body source))
      (InSeq xs) g
    = Return (if decide (length xs = 1%nat) then Scalar (ds !!! 0%nat)
              else Vector ds) g
    ∧ length ds = length xs
    ∧ ∀ i, (i < length xs)%nat →
        derivable_pt_lim
          (fun t => calculus.value body (<[i := t]> xs))
          (xs !!! i) (ds !!! i).
Proof. exact (lambda_forward_analytic params body source (InSeq xs) g). Qed.

Lemma forward_derivative_is_analytic_witness :
  ∃ ds : list R,
    forward.forward
      (autodiff.__init__
         (lambda ["x"; "y"] product_plus_sine (inl (OtherError "OSError"))))
      (InSeq [2; 3]) []
    = Return (Vector ds) []
    ∧ length ds = 2%nat
    ∧ ∀ i, (i < 2)%nat →
        derivable_pt_lim
          (fun t => calculus.value product_plus_sine (<[i := t]> [2; 3]))
          ([2; 3] !!! i) (ds !!! i).
Proof.
  apply (forward_derivative_is_analytic ["x"; "y"] product_plus_sine
           (inl (OtherError "OSError")) [2; 3] []).
  - reflexivity.
  - simpl. repeat split; lia.
  - reflexivity.
Defined.

(** The result of the reverse engine and the derivative of analysis. *)
Lemma lambda_reverse_analytic (eval : reverse.py_eval)
    (params : list string) (body : expr) (source : exn + string)
    (inputs : pyinputs) (g : Graph) :
  let xs := as_list inputs in
  length xs = length params → forward_edges g →
  calculus.defined body xs → closed body = false → (∀ j, body ≠ EVar j) →
  ∃ (ds : list R) (g' : Graph),
    reverse.reverse eval (autodiff.__init__ (lambda params body source))
      inputs g
    = Return (if decide (length xs = 1%nat) then Scalar (ds !!! 0%nat)
              else Vector ds) g'
    ∧ length ds = length xs
    ∧ ∀ i, (i < length xs)%nat →
        derivable_pt_lim
          (fun t => calculus.value body (<[i := t]> xs))
          (xs !!! i) (ds !!! i).
Proof.
  intros xs Hlen Hg Hdef Hcl Hvar.
  destruct (lambda_reverse eval params body source inputs g
              Hlen Hg Hdef Hcl Hvar) as [g' Hrun].
  exists (calculus.gradient body xs), g'.
  assert (∀ i, (i < length xs)%nat →
            calculus.gradient body xs !!! i = calculus.partial body xs i)
    as Hcomp.
  { intros i Hi. unfold calculus.gradient.
    rewrite (list_lookup_total_fmap _ (seq 0 (length xs)) i)
      by (rewrite length_seq; lia).
    now rewrite lookup_total_seq_lt. }
  split; [| split].
  - rewrite Hrun. fold xs. unfold gradient_array.
    destruct (decide (length xs = 1%nat)); [| reflexivity].
    rewrite Hcomp by lia. reflexivity.
  - unfold calculus.gradient. now rewrite length_fmap, length_seq.
  - intros i Hi. rewrite Hcomp by assumption.
    now apply partial_is_derivative.
Qed.

(** X19.  For a function of one output whose body is an expression of its
    parameters, other than a bare parameter, and an input given as a list,
    at a point where no divisor is zero, every power has a positive base or
    an exponent without parameters that is a whole number at least one, and
    every elementary function is applied inside its domain, the number that
    the reverse engine returns for parameter [i] is the derivative, in the
    sense of analysis, of the value of the expression as a function of
    parameter [i] alone: the sum over the paths of the graph is the partial
    derivative. *)
Theorem reverse_derivative_is_analytic (eval : reverse.py_eval)
    (params : list string) (body : expr) (source : exn + string)
    (xs : list R) (g : Graph) :
  length xs = length params → forward_edges g →
  calculus.defined body xs → closed body = false → (∀ j, body ≠ EVar j) →
  ∃ (ds : list R) (g' : Graph),
    reverse.reverse eval (autodiff.__init__ (lambda params body source))
      (InSeq xs) g
    = Return (if decide (length xs = 1%nat) then Scalar (ds !!! 0%nat)
              else Vector ds) g'
    ∧ length ds = length xs
    ∧ ∀ i, (i < length xs)%nat →
        derivable_pt_lim
          (fun t => calculus.value body (<[i := t]> xs))
          (xs !!! i) (ds !!! i).
Proof. exact (lambda_reverse_analytic eval params body source (InSeq xs) g). Qed.

Lemma reverse_derivative_is_analytic_witness :
  ∃ (ds : list R) (g' : Graph),
    reverse.reverse eval_name
      (autodiff.__init__
         (lambda ["x"; "y"] product_plus_sine (inl (OtherError "OSError"))))
      (InSeq [2; 3]) []
    = Return (Vector ds) g'
    ∧ length ds = 2%nat
    ∧ ∀ i, (i < 2)%nat →
        derivable_pt_lim
          (fun t => calculus.value product_plus_sine (<[i := t]> [2; 3]))
          ([2; 3] !!! i) (ds !!! i).
Proof.
  apply (reverse_derivative_is_analytic eval_name ["x"; "y"]
           product_plus_sine (inl (OtherError "OSError")) [2; 3] []).
  - reflexivity.
  - exact forward_edges_nil.
  - simpl. repeat split; lia.
  - reflexivity.
  - discriminate.
Defined.

End derivatives_of_analysis.

(** ** The jacobian of the forward engine *)

Section forward_engine_lists.
Local Open Scope R_scope.
Import autodiff.

Lemma fmap_lookup_seq {A B} `{Inhabited A} (f : A → B) (l : list A) :
  f <$> l = (fun j => f (l !!! j)) <$> seq 0 (length l).
Proof.
  apply list_eq. intros j. rewrite !list_lookup_fmap.
  destruct (l !! j) as [a |] eqn:Hj.
  - apply lookup_lt_Some in Hj as Hlt. rewrite lookup_seq_lt by assumption.
    simpl. f_equal. f_equal. symmetry. now apply list_lookup_total_correct.
  - apply lookup_ge_None in Hj. now rewrite lookup_seq_ge.
Qed.

(** The transpose of the rows that the sweeps give: one row per
    output. *)
Lemma transpose_sweeps {A} `{Inhabited A} (f : A → nat → R) (l : list A)
    (n : nat) :
  (0 < n)%nat →
  transpose ((fun idx => (fun a => f a idx) <$> l) <$> seq 0 n)
  = (fun a => f a <$> seq 0 n) <$> l.
Proof.
  intros Hn. unfold transpose.
  rewrite (list_lookup_total_fmap _ (seq 0 n) 0) by (rewrite length_seq; lia).
  rewrite length_fmap.
  rewrite (fmap_lookup_seq (fun a => f a <$> seq 0 n) l).
  apply list_fmap_ext. intros k j Hk. apply lookup_seq in Hk as [Hj Hk].
  simpl in Hj. subst k.
  simpl. rewrite <- list_fmap_compose. apply list_fmap_ext.
  intros k' idx _. simpl.
  now rewrite (list_lookup_total_fmap _ l j).
Qed.

Lemma rows_real (dss : list (list Dual.t)) (g : Graph) :
  list_comp (dual_row <$> dss)
    (fun sets => let* elems := iter sets in list_comp elems getattr_real) g
  = Return ((fun ds : list Dual.t => Dual.real <$> ds) <$> dss) g.
Proof.
  induction dss as [| ds dss IH]; [reflexivity |].
  cbn [fmap list_fmap list_comp] in *. unfold bind at 1 2.
  unfold dual_row at 1. cbn [iter].
  unfold ret at 1. rewrite list_comp_getattr_real.
  unfold bind at 1. now rewrite IH.
Qed.

Lemma dual_parts_rows (xs : list R) (dss : list (list Dual.t)) (g : Graph) :
  length xs ≠ 1%nat → dss ≠ [] →
  forward.dual_parts xs (VList (dual_row <$> dss)) g
  = Return (Matrix (transpose
                      ((fun ds : list Dual.t => Dual.dual <$> ds) <$> dss))) g.
Proof.
  intros H1 Hne. destruct dss as [| ds0 dss]; [contradiction |].
  now apply dual_parts_many_rows.
Qed.

Lemma real_parts_rows (xs : list R) (ds0 : list Dual.t)
    (dss : list (list Dual.t)) (g : Graph) :
  length xs ≠ 1%nat → dss !! 0%nat = Some ds0 →
  forward.real_parts xs (VList (dual_row <$> dss)) g
  = Return (Vector (Dual.real <$> ds0)) g.
Proof.
  intros H1 H0. destruct dss as [| ds dss]; [discriminate |].
  injection H0 as ->. unfold forward.real_parts.
  destruct (decide (length xs = 1%nat)) as [Hc | _]; [contradiction |].
  cbn [fmap list_fmap]. unfold bind at 1.
  cbn [getitem0]. unfold ret at 1. unfold dual_row at 1.
  cbv beta iota. unfold bind at 1. cbn [iter]. unfold ret at 1.
  unfold bind.
  rewrite (rows_real (ds0 :: dss) g
           : list_comp (dual_row ds0 :: (dual_row <$> dss)) _ g = _).
  reflexivity.
Qed.

(** The call of the function of several outputs on the duals of sweep
    [idx]. *)
Lemma lambda_list_dual_sweep (params : list string) (bodies : list expr)
    (source : exn + string) (xs : list R) (idx : nat) (g : Graph) :
  length xs = length params →
  (∀ body, body ∈ bodies →
           calculus.defined body xs ∧ closed body = false) →
  call (lambda_list params bodies source) (VDual <$> seeds xs idx) g
  = Return (dual_row ((fun body =>
                         Dual.mk (calculus.value body xs)
                                 (calculus.partial body xs idx))
                        <$> bodies)) g.
Proof.
  intros Hlen Hb. simpl.
  rewrite length_fmap. unfold seeds. rewrite length_imap.
  destruct (decide (length xs = length params)); [| contradiction].
  fold (seeds xs idx). rewrite seeds_direction. unfold bind.
  rewrite (list_comp_pure _
             (fun body => VDual (Dual.mk (calculus.value body xs)
                                         (calculus.partial body xs idx))) g).
  - unfold ret, dual_row. now rewrite <- list_fmap_compose.
  - intros body Hin. destruct (Hb body Hin) as [Hdef Hcl].
    apply interp_dual; auto using length_direction.
Qed.

Lemma lambda_list_dual_forward (params : list string) (bodies : list expr)
    (source : exn + string) (inputs : pyinputs) (g : Graph) :
  let xs := as_list inputs in
  length xs = length params →
  (∀ body, body ∈ bodies →
           calculus.defined body xs ∧ closed body = false) →
  forward._dual_forward (autodiff.__init__ (lambda_list params bodies source))
    inputs g
  = Return
      (if decide (length xs = 1%nat) then
         dual_row ((fun body =>
                      Dual.mk (calculus.value body xs)
                              (calculus.partial body xs 0)) <$> bodies)
       else
         VList (dual_row
                  <$> ((fun idx =>
                          (fun body =>
                             Dual.mk (calculus.value body xs)
                                     (calculus.partial body xs idx))
                            <$> bodies) <$> seq 0 (length xs)))) g.
Proof.
  intros xs Hlen Hb. rewrite dual_forward_seeded by exact Hlen.
  fold xs. unfold seeded_calls.
  destruct (decide (length xs = 1%nat)) as [H1 | H1].
  - now apply lambda_list_dual_sweep.
  - unfold bind.
    rewrite (list_comp_pure _
               (fun idx =>
                  dual_row ((fun body =>
                               Dual.mk (calculus.value body xs)
                                       (calculus.partial body xs idx))
                              <$> bodies)) g).
    2:{ intros idx _. now apply lambda_list_dual_sweep. }
    rewrite <- (np_asarray_lists (length bodies)).
    + f_equal. now rewrite <- list_fmap_compose.
    + apply Forall_fmap, Forall_forall. intros idx _. simpl.
      now rewrite length_fmap.
Qed.

(** The forward engine on a function that returns a list. *)
Lemma lambda_list_forward (params : list string) (bodies : list expr)
    (source : exn + string) (inputs : pyinputs) (g : Graph) :
  let xs := as_list inputs in
  let ad := autodiff.__init__ (lambda_list params bodies source) in
  length xs = length params → (0 < length xs)%nat →
  (∀ body, body ∈ bodies →
           calculus.defined body xs ∧ closed body = false) →
  forward.get_value ad inputs g
  = Return (Vector ((fun body => calculus.value body xs) <$> bodies)) g
  ∧ forward.forward ad inputs g = Return (jacobian_array bodies xs) g.
Proof.
  intros xs ad Hlen Hpos Hb.
  split.
  - unfold forward.get_value, bind. unfold ad.
    rewrite lambda_list_dual_forward by assumption. fold xs.
    destruct (decide (length xs = 1%nat)) as [H1 | H1].
    + unfold forward.real_parts.
      destruct (decide (length xs = 1%nat)); [| contradiction].
      unfold dual_row, bind. cbn [iter]. unfold ret at 1.
      rewrite list_comp_getattr_real. unfold ret.
      now rewrite <- list_fmap_compose.
    + rewrite (real_parts_rows xs
                 ((fun body => Dual.mk (calculus.value body xs)
                                       (calculus.partial body xs 0))
                    <$> bodies)).
      * now rewrite <- list_fmap_compose.
      * assumption.
      * rewrite list_lookup_fmap, lookup_seq_lt by assumption. reflexivity.
  - unfold forward.forward, bind. unfold ad.
    rewrite lambda_list_dual_forward by assumption. fold xs.
    unfold jacobian_array.
    destruct (decide (length xs = 1%nat)) as [H1 | H1].
    + unfold dual_row. rewrite dual_parts_one_list by assumption.
      now rewrite <- list_fmap_compose.
    + assert (transpose
                ((fun idx =>
                    (fun body => calculus.partial body xs idx) <$> bodies)
                   <$> seq 0 (length xs))
              = (fun body => calculus.gradient body xs) <$> bodies) as Ht
        by exact (transpose_sweeps
                    (fun body idx => calculus.partial body xs idx)
                    bodies (length xs) Hpos).
      rewrite <- Ht.
      rewrite dual_parts_rows by auto using fmap_seq_nonempty.
      do 3 f_equal. rewrite <- list_fmap_compose. apply list_fmap_ext.
      intros k idx _. simpl. now rewrite <- list_fmap_compose.
Qed.

(** X20.  For a function that returns a list of expressions of its
    parameters, each with a parameter in it, and an input given as a list,
    at a point where no divisor is zero, every power has a positive base or
    an exponent without parameters that is a whole number at least one, and
    every elementary function is applied inside its domain: the value
    operation of the forward engine returns the vector of the values, and
    its derivative operation returns the jacobian by the rules of calculus:
    for one input the vector of the derivatives, otherwise the matrix whose
    row [j] holds the partial derivatives of output [j] in the inputs, in
    their order. *)
Theorem forward_jacobian (params : list string) (bodies : list expr)
    (source : exn + string) (xs : list R) (g : Graph) :
  let ad := autodiff.__init__ (lambda_list params bodies source) in
  length xs = length params → (0 < length xs)%nat →
  (∀ body, body ∈ bodies →
           calculus.defined body xs ∧ closed body = false) →
  forward.get_value ad (InSeq xs) g
  = Return (Vector ((fun body => calculus.value body xs) <$> bodies)) g
  ∧ forward.forward ad (InSeq xs) g = Return (jacobian_array bodies xs) g.
Proof. exact (lambda_list_forward params bodies source (InSeq xs) g). Qed.

Lemma forward_jacobian_witness :
  let bodies := [EBin OpMul (EVar 0) (EVar 1); ECall Sin (EVar 0)] in
  let ad := autodiff.__init__
              (lambda_list ["x"; "y"] bodies
                 (inr "lambda x, y: [x * y, sin(x)]")) in
  forward.get_value ad (InSeq [2; 3]) []
  = Return (Vector ((fun body => calculus.value body [2; 3]) <$> bodies)) []
  ∧ forward.forward ad (InSeq [2; 3]) []
    = Return (jacobian_array bodies [2; 3]) [].
Proof.
  apply (forward_jacobian ["x"; "y"]
           [EBin OpMul (EVar 0) (EVar 1); ECall Sin (EVar 0)]
           (inr "lambda x, y: [x * y, sin(x)]") [2; 3] []).
  - reflexivity.
  - simpl. lia.
  - intros body Hin. apply elem_of_cons in Hin as [-> | Hin].
    + simpl. repeat split; lia.
    + apply list_elem_of_singleton in Hin as ->. simpl. repeat split; lia.
Defined.

End forward_engine_lists.

(** ** The jacobian of the reverse engine *)

Section reverse_engine_lists.
Local Open Scope R_scope.
Import autodiff.

Lemma chain_no_incoming (g : Graph) (n : nat) :
  no_incoming g n → ∀ d i, chain d g i n = 0.
Proof.
  intros Hno. induction d as [| d IH]; intros i; [reflexivity |].
  simpl. apply sum_R_all_zero. intros e He.
  destruct (decide (e.1 = n)) as [Heq | _]; [now destruct (Hno i e He) |].
  rewrite IH. ring.
Qed.

(** No pass reaches a node that no edge ends at. *)
Lemma entry_no_incoming (g : Graph) (root n : nat) :
  forward_edges g → no_incoming g n → entry g root n = 0.
Proof.
  intros Hg Hno. rewrite entry_chain by assumption.
  now apply chain_no_incoming.
Qed.

Lemma chain_backward (g : Graph) (n : nat) :
  forward_edges g → ∀ d i, (n ≤ i)%nat → chain d g i n = 0.
Proof.
  intros Hg. induction d as [| d IH]; intros i Hi; [reflexivity |].
  simpl. apply sum_R_all_zero. intros [c w] He. simpl.
  apply Hg in He. destruct (decide (c = n)); [lia |].
  rewrite IH by lia. ring.
Qed.

Lemma chain_same_edges (g g' : Graph) (n : nat) :
  forward_edges g →
  (∀ p, (p < length g)%nat → edges g' p = edges g p) →
  ∀ d i, (i < length g)%nat → chain d g' i n = chain d g i n.
Proof.
  intros Hg Hsame. induction d as [| d IH]; intros i Hi; [reflexivity |].
  simpl. rewrite Hsame by assumption.
  apply sum_R_ext. intros [c w] He. simpl.
  apply Hg in He. rewrite IH by lia. reflexivity.
Qed.

(** The entries of the nodes of [g] in a longer store that has the edges
    of [g] out of the nodes of [g]. *)
Lemma entry_same_edges (g g' : Graph) (root n : nat) :
  forward_edges g → forward_edges g' → (length g ≤ length g')%nat →
  (∀ p, (p < length g)%nat → edges g' p = edges g p) →
  (n < length g)%nat →
  entry g' root n = entry g root n.
Proof.
  intros Hg Hg' Hle Hsame Hn.
  rewrite (entry_chain g') by assumption.
  destruct (decide (root < length g)%nat) as [Hroot | Hroot].
  - rewrite (chain_same_edges g g' n Hg Hsame) by assumption.
    rewrite entry_chain by assumption.
    apply chain_fuel; [assumption | lia | lia].
  - rewrite chain_backward by (assumption || lia).
    symmetry. apply entry_no_edges; [assumption |].
    apply edges_beyond. lia.
Qed.

Lemma copy_edges_new (g : Graph) (p : nat) :
  (p < length g)%nat →
  edges (g ++ (reverse.shift (length g) <$> g)) (length g + p)
  = (fun e : nat * R => ((e.1 + length g)%nat, e.2)) <$> edges g p.
Proof.
  intros Hp. rewrite edges_app_new by lia.
  replace (length g + p - length g)%nat with p by lia.
  unfold edges.
  rewrite (list_lookup_total_fmap (reverse.shift (length g)) g p)
    by assumption.
  reflexivity.
Qed.

Lemma copy_edges_beyond (g : Graph) (p : nat) :
  (length g + length g ≤ p)%nat → edges (g ++ (reverse.shift (length g) <$> g)) p = [].
Proof.
  intros Hp. apply edges_beyond. rewrite length_app, length_fmap. lia.
Qed.

(** The edges out of a node of the store after the copy: those of [g],
    or those of [g] moved behind it. *)
Lemma copy_edges (g : Graph) (p : nat) (e : nat * R) :
  forward_edges g → e ∈ edges (g ++ (reverse.shift (length g) <$> g)) p →
  ((p < length g)%nat ∧ e ∈ edges g p)
  ∨ ∃ e', (length g ≤ p)%nat ∧ e' ∈ edges g (p - length g)
          ∧ e = ((e'.1 + length g)%nat, e'.2).
Proof.
  intros Hg He.
  destruct (decide (p < length g)%nat) as [Hp | Hp].
  - left. rewrite edges_app_old in He by assumption. auto.
  - right. destruct (decide (p < length g + length g)%nat) as [Hp2 | Hp2].
    + replace p with (length g + (p - length g))%nat in He by lia.
      rewrite copy_edges_new in He by lia.
      apply list_elem_of_fmap in He as (e' & -> & He').
      exists e'. split; [lia |]. auto.
    + rewrite copy_edges_beyond in He by lia. now apply elem_of_nil in He.
Qed.

Lemma extends_copy (g : Graph) : forward_edges g → extends g (g ++ (reverse.shift (length g) <$> g)).
Proof.
  intros Hg. pose proof (deepcopy_forward g Hg) as Hg'.
  split; [assumption |].
  split; [rewrite length_app; lia |].
  intros x Hx. split; [now rewrite lookup_total_app_l |]. split.
  - intros root. apply entry_same_edges; try assumption.
    + rewrite length_app. lia.
    + intros p Hp. now apply edges_app_old.
  - intros Hno p e He.
    apply copy_edges in He as [[Hp He] | (e' & Hp & He' & ->)];
      [now apply (Hno p) | | assumption].
    simpl. lia.
Qed.

Lemma valid_inputs_copy (g : Graph) (xs : list R) (ns : list nat) :
  forward_edges g → valid_inputs g xs ns →
  valid_inputs (g ++ (reverse.shift (length g) <$> g)) xs ((fun n => (n + length g)%nat) <$> ns).
Proof.
  intros Hg (Hlen & Hnd & Hns).
  split; [now rewrite length_fmap |]. split.
  - apply NoDup_fmap_2; [| assumption]. intros a b. lia.
  - intros j c Hc. rewrite list_lookup_fmap in Hc.
    destruct (ns !! j) as [n |] eqn:Hn; [| discriminate].
    injection Hc as <-. destruct (Hns j n Hn) as (Hlt & Hreal & Hno).
    split; [rewrite length_app, length_fmap; lia |]. split.
    + rewrite lookup_total_app_r by lia.
      replace (n + length g - length g)%nat with n by lia.
      rewrite (list_lookup_total_fmap (reverse.shift (length g)) g n)
        by assumption.
      exact Hreal.
    + intros p e He.
      apply copy_edges in He as [[Hp He] | (e' & Hp & He' & ->)];
        [| | assumption].
      * destruct e as [c w]. apply Hg in He. simpl. lia.
      * simpl. intros Heq. apply (Hno _ _ He'). lia.
Qed.

Lemma valid_extends (g g' : Graph) (xs : list R) (ns : list nat) :
  extends g g' → valid_inputs g xs ns → valid_inputs g' xs ns.
Proof.
  intros (Hg' & Hle & Hx) (Hlen & Hnd & Hns).
  split; [assumption |]. split; [assumption |].
  intros j c Hc. destruct (Hns j c Hc) as (Hlt & Hreal & Hno).
  destruct (Hx c Hlt) as (Hr & _ & Hn).
  split; [lia |]. split; [congruence | auto].
Qed.

Lemma valid_with_inputs (g : Graph) (xs : list R) :
  forward_edges g →
  valid_inputs (with_inputs g xs) xs (seq (length g) (length xs)).
Proof.
  intros Hg. split; [apply length_seq |]. split; [apply NoDup_seq |].
  intros j c Hc. apply lookup_seq in Hc as [-> Hj].
  split; [rewrite with_inputs_length; lia |].
  split; [now rewrite with_inputs_node |].
  intros p e He. unfold with_inputs in He.
  destruct (decide (p < length g)%nat) as [Hp | Hp].
  - rewrite edges_app_old in He by assumption.
    destruct e as [c w]. apply Hg in He. simpl. lia.
  - rewrite edges_app_new in He by lia. unfold edges in He.
    rewrite list_lookup_total_alt, list_lookup_fmap in He.
    destruct (xs !! (p - length g)%nat); simpl in He; now apply elem_of_nil in He.
Qed.

(** Between inputs, before the function is called: the derivative of an
    input in another is zero. *)
Lemma valid_sensitivity (g : Graph) (xs : list R) (ns : list nat)
    (i j ci cj : nat) :
  forward_edges g → valid_inputs g xs ns →
  ns !! i = Some ci → ns !! j = Some cj →
  sensitivity g ci cj = calculus.direction (length xs) i !!! j.
Proof.
  intros Hg (Hlen & Hnd & Hns) Hi Hj.
  destruct (Hns j cj Hj) as (_ & _ & Hno).
  unfold sensitivity. rewrite entry_no_incoming by assumption.
  assert (j < length xs)%nat as Hjlt.
  { rewrite <- Hlen. now apply lookup_lt_Some in Hj. }
  unfold calculus.direction.
  rewrite (list_lookup_total_fmap _ (seq 0 (length xs)) j)
    by (rewrite length_seq; lia).
  rewrite lookup_total_seq_lt by assumption. simpl.
  destruct (decide (ci = cj)) as [Heq | Hne], (decide (j = i)) as [Hji | Hji];
    try ring.
  - subst cj. destruct Hji. symmetry. now apply (NoDup_lookup ns i j ci).
  - subst j. congruence.
Qed.

(** The sets of copies of the input nodes, one per output. *)
Lemma deepcopies_valid (xs : list R) (nodes : list nat) :
  ∀ (k start : nat) (g : Graph),
    forward_edges g → valid_inputs g xs nodes →
    ∃ input_nodes g',
      list_comp (seq start k) (fun _ => reverse.deepcopy nodes) g
      = Return input_nodes g'
      ∧ extends g g' ∧ length input_nodes = k
      ∧ Forall (valid_inputs g' xs) input_nodes.
Proof.
  induction k as [| k IH]; intros start g Hg Hvalid.
  - exists [], g. split; [reflexivity |].
    split; [now apply extends_refl |]. split; [reflexivity | constructor].
  - pose proof (extends_copy g Hg) as Hcopy.
    destruct (IH (S start) (g ++ (reverse.shift (length g) <$> g)))
      as (rest & g' & Hrun & Hext & Hlen & Hall).
    { now apply deepcopy_forward. }
    { now apply (valid_extends g). }
    exists (((fun n => (n + length g)%nat) <$> nodes) :: rest), g'.
    split; [| split; [| split]].
    + cbn [seq list_comp]. unfold bind at 1. unfold reverse.deepcopy at 1.
      unfold bind at 1. rewrite Hrun. reflexivity.
    + now apply (extends_trans g (g ++ (reverse.shift (length g) <$> g))).
    + simpl. now rewrite Hlen.
    + constructor; [| assumption].
      apply (valid_extends (g ++ (reverse.shift (length g) <$> g)));
        [assumption |].
      now apply valid_inputs_copy.
Qed.

(** One piece of the source evaluated on a set of inputs, and the row of
    the jacobian read from the passes that start at these inputs. *)
Lemma node_row (body : expr) (xs : list R) (ns : list nat) (g : Graph) :
  forward_edges g → valid_inputs g xs ns →
  calculus.defined body xs → closed body = false → (∀ i, body ≠ EVar i) →
  ∃ r g',
    interp body (VNode <$> ns) g = Return (VNode r) g'
    ∧ extends g g'
    ∧ list_comp ns
        (fun elem =>
           let* gradiant := reverse._gradiant elem in
           reverse.getitem gradiant (VNode r)) g'
      = Return (calculus.gradient body xs) g'.
Proof.
  intros Hg Hvalid Hdef Hcl Hvar.
  pose proof Hvalid as (Hlen & Hnd & Hns).
  destruct (interp_node body xs ns Hlen g Hg) as
    (r & g' & Hrun & Hext & Hr & Hval & Hnew & Htan); try assumption.
  { intros j n Hn. destruct (Hns j n Hn) as (? & ? & _). auto. }
  destruct Hnew as [(j & Hj & _) | Hnew]; [now destruct (Hvar j) |].
  exists r, g'. split; [assumption |]. split; [assumption |].
  rewrite (list_comp_pure _ (fun n => entry g' n r) g').
  2:{ intros n _. apply gradiant_entry. now destruct Hext. }
  do 2 f_equal. unfold calculus.gradient.
  apply list_eq. intros i. rewrite !list_lookup_fmap.
  destruct (ns !! i) as [c |] eqn:Hc.
  - assert (i < length xs)%nat as Hi.
    { rewrite <- Hlen. now apply lookup_lt_Some in Hc. }
    rewrite lookup_seq_lt by assumption. simpl. f_equal.
    destruct (Hns i c Hc) as (Hlt & _ & _).
    rewrite <- sensitivity_new by lia.
    rewrite (Htan c (calculus.direction (length xs) i) Hlt); [reflexivity |].
    intros j n Hn. now apply (valid_sensitivity g xs ns i j c n).
  - apply lookup_ge_None in Hc.
    rewrite lookup_seq_ge by lia. reflexivity.
Qed.

(** The call of a function that returns a list of expressions, on
    nodes. *)
Lemma interp_nodes (xs : list R) (ns : list nat) :
  length ns = length xs →
  ∀ (bodies : list expr) (g : Graph),
    forward_edges g →
    (∀ j n, ns !! j = Some n →
            (n < length g)%nat ∧ Node.real (g !!! n) = xs !!! j) →
    (∀ body, body ∈ bodies →
             calculus.defined body xs ∧ closed body = false) →
    ∃ rs g',
      list_comp bodies (fun body => interp body (VNode <$> ns)) g
      = Return (VNode <$> rs) g'
      ∧ extends g g'
      ∧ (fun r => Node.real (g' !!! r)) <$> rs
        = (fun body => calculus.value body xs) <$> bodies.
Proof.
  intros Hlen. induction bodies as [| body bodies IH]; intros g Hg Hns Hb.
  - exists [], g. split; [reflexivity |].
    split; [now apply extends_refl | reflexivity].
  - destruct (Hb body) as [Hdef Hcl]; [apply list_elem_of_here |].
    destruct (interp_node body xs ns Hlen g Hg Hns Hdef Hcl) as
      (r & g1 & Hrun & Hext & Hr & Hval & _ & _).
    pose proof Hext as (Hg1 & Hle & Hx).
    destruct (IH g1 Hg1) as (rs & g' & Hruns & Hext' & Hvals).
    { intros j n Hn. destruct (Hns j n Hn) as [Hlt Hreal].
      destruct (Hx n Hlt) as (Hreal' & _). split; [lia | congruence]. }
    { intros b Hin. apply Hb. now apply list_elem_of_further. }
    exists (r :: rs), g'. split; [| split].
    + cbn [list_comp]. unfold bind at 1. rewrite Hrun.
      unfold bind at 1. rewrite Hruns. reflexivity.
    + now apply (extends_trans g g1).
    + rewrite !fmap_cons. f_equal; [| assumption].
      destruct Hext' as (_ & _ & Hx'). destruct (Hx' r Hr) as (Hreal & _).
      congruence.
Qed.

Lemma list_comp_node_real (rs : list nat) (g : Graph) :
  list_comp (VNode <$> rs) getattr_real g
  = Return ((fun r => Node.real (g !!! r)) <$> rs) g.
Proof.
  rewrite (list_comp_pure getattr_real
             (fun v => match v with
                       | VNode r => Node.real (g !!! r)
                       | _ => 0
                       end) g).
  - now rewrite <- list_fmap_compose.
  - intros v Hv. apply list_elem_of_fmap in Hv as (r & -> & _). reflexivity.
Qed.

(** The loop over the pieces of the source. *)
Lemma output_rows (eval : reverse.py_eval) (var_names : list string)
    (xs : list R) :
  ∀ (turns : list (list nat * string)) (bodies : list expr),
    length turns = length bodies →
    (∀ k turn body env g,
        turns !! k = Some turn → bodies !! k = Some body →
        eval (reverse.strip turn.2)
             (reverse.bind_vars env var_names turn.1) g
        = interp body (VNode <$> turn.1) g) →
    (∀ body, body ∈ bodies →
             calculus.defined body xs ∧ closed body = false
             ∧ ∀ i, body ≠ EVar i) →
    ∀ jacob env g,
      forward_edges g →
      Forall (fun turn => valid_inputs g xs turn.1) turns →
      ∃ env' g',
        for_each turns (reverse.output_row eval var_names) (jacob, env) g
        = Return (jacob ++ ((fun body => calculus.gradient body xs)
                              <$> bodies), env') g'.
Proof.
  induction turns as [| [ns function] turns IH];
    intros [| body bodies] Hlen Heval Hb jacob env g Hg Hvalid;
    try discriminate.
  - exists env, g. simpl. unfold ret. now rewrite app_nil_r.
  - destruct (Hb body) as (Hdef & Hcl & Hvar); [apply list_elem_of_here |].
    apply Forall_cons in Hvalid as [Hns Hrest].
    destruct (node_row body xs ns g Hg Hns Hdef Hcl Hvar)
      as (r & g1 & Hrun & Hext & Hrow).
    destruct (IH bodies ltac:(simpl in Hlen; lia)) with
      (jacob := jacob ++ [calculus.gradient body xs])
      (env := reverse.bind_vars env var_names ns) (g := g1)
      as (env' & g' & Hloop).
    { intros k turn b env0 g0 Hk Hb0. now apply (Heval (S k)). }
    { intros b Hin. apply Hb. now apply list_elem_of_further. }
    { now destruct Hext. }
    { eapply Forall_impl; [exact Hrest |].
      intros turn Hturn. now apply (valid_extends g). }
    exists env', g'.
    cbn [for_each]. unfold bind at 1. unfold reverse.output_row at 1.
    unfold bind at 1.
    pose proof (Heval 0%nat (ns, function) body env g eq_refl eq_refl)
      as Hpiece.
    cbn [fst snd] in Hpiece. rewrite Hpiece, Hrun.
    unfold bind at 1. rewrite Hrow. unfold ret at 1.
    rewrite Hloop. rewrite <- app_assoc. reflexivity.
Qed.

Lemma split_nonempty (sep : Ascii.ascii) (s : string) :
  reverse.split sep s ≠ [].
Proof.
  destruct s as [| c s]; simpl; [discriminate |].
  destruct (Ascii.eqb c sep); [discriminate |].
  destruct (reverse.split sep s); discriminate.
Qed.

Lemma lambda_list_node_call (params : list string) (bodies : list expr)
    (source : exn + string) (xs : list R) (g : Graph) :
  length xs = length params → forward_edges g →
  (∀ body, body ∈ bodies →
           calculus.defined body xs ∧ closed body = false) →
  ∃ rs g',
    call (lambda_list params bodies source)
      (VNode <$> seq (length g) (length xs)) (with_inputs g xs)
    = Return (VList (VNode <$> rs)) g'
    ∧ extends (with_inputs g xs) g'
    ∧ length rs = length bodies
    ∧ (fun r => Node.real (g' !!! r)) <$> rs
      = (fun body => calculus.value body xs) <$> bodies.
Proof.
  intros Hlen Hg Hb.
  destruct (interp_nodes xs (seq (length g) (length xs))
              ltac:(now rewrite length_seq) bodies (with_inputs g xs)
              (with_inputs_forward g xs Hg))
    as (rs & g' & Hrun & Hext & Hvals); [| assumption |].
  { intros j n Hj. apply lookup_seq in Hj as [-> Hj].
    rewrite with_inputs_length, with_inputs_node by assumption.
    split; [lia | reflexivity]. }
  exists rs, g'. split; [| split; [assumption | split; [| assumption]]].
  - cbn [call lambda_list].
    destruct (decide (length (VNode <$> seq (length g) (length xs))
                      = length params)) as [_ | Hne].
    + unfold bind. rewrite Hrun. reflexivity.
    + destruct Hne. now rewrite length_fmap, length_seq.
  - apply (f_equal length) in Hvals. now rewrite !length_fmap in Hvals.
Qed.

Lemma concat_gradients (bodies : list expr) (xs : list R) :
  length xs = 1%nat →
  concat ((fun body => calculus.gradient body xs) <$> bodies)
  = (fun body => calculus.partial body xs 0) <$> bodies.
Proof.
  intros H1. induction bodies as [| body bodies IH]; [reflexivity |].
  rewrite !fmap_cons. cbn [concat]. rewrite IH.
  unfold calculus.gradient at 1. rewrite H1. reflexivity.
Qed.

(** The reverse engine on a function that returns a list. *)
Lemma lambda_list_reverse (eval : reverse.py_eval) (params : list string)
    (bodies : list expr) (source : exn + string) (inputs : pyinputs)
    (g : Graph) :
  let xs := as_list inputs in
  let ad := autodiff.__init__ (lambda_list params bodies source) in
  length xs = length params → forward_edges g →
  (∀ body, body ∈ bodies →
           calculus.defined body xs ∧ closed body = false
           ∧ ∀ i, body ≠ EVar i) →
  pieces_evaluate eval ad bodies →
  (∃ g', reverse.get_value ad inputs g
         = Return (Vector ((fun body => calculus.value body xs) <$> bodies))
                  g')
  ∧ ∃ g', reverse.reverse eval ad inputs g
          = Return (jacobian_array bodies xs) g'.
Proof.
  intros xs ad Hlen Hg Hb (src & groups & Hsrc & Hlast & Hlenf & Hsize & Heval).
  destruct (lambda_list_node_call params bodies source xs g Hlen Hg)
    as (rs & g1 & Hcall & Hext & Hrs & Hvals).
  { intros body Hin. destruct (Hb body Hin) as (? & ? & _). auto. }
  assert (bodies ≠ []) as Hne.
  { intros ->. simpl in Hlenf. apply length_zero_iff_nil in Hlenf.
    now apply split_nonempty in Hlenf. }
  split.
  - exists g1. unfold reverse.get_value. fold xs.
    destruct (decide (length xs ≠ n_inputs ad)) as [Hn | _];
      [now destruct Hn |].
    unfold bind at 1. rewrite init_nodes_run. fold (with_inputs g xs).
    unfold bind at 1.
    change (funcs ad) with (lambda_list params bodies source).
    rewrite Hcall. unfold bind, iter, ret at 1.
    rewrite list_comp_node_real. unfold ret. now rewrite Hvals.
  - pose proof (valid_extends _ _ _ _ Hext (valid_with_inputs g xs Hg))
      as Hnodes.
    pose proof Hext as (Hg1 & _ & _).
    destruct (deepcopies_valid xs (seq (length g) (length xs))
                (length rs) 0 g1 Hg1 Hnodes)
      as (input_nodes & g2 & Hcopies & Hext2 & Hlen_in & Hall).
    pose proof Hext2 as (Hg2 & _ & _).
    set (funcs_lst := reverse.split ","%char groups.2) in *.
    assert (∃ env env' g',
               for_each (zip input_nodes funcs_lst)
                 (reverse.output_row eval params) ([], env) g2
               = Return ((fun body => calculus.gradient body xs) <$> bodies,
                         env') g'
               ∧ (if decide (size (reverse.packages funcs_lst
                                     ∖ reverse.exclude_pkg) = 0%nat)
                  then ret []
                  else if decide (size (reverse.packages funcs_lst
                                          ∖ reverse.exclude_pkg) = 1%nat)
                       then ret ((fun name => (name, VModule))
                                   <$> elements (reverse.packages funcs_lst
                                                   ∖ reverse.exclude_pkg))
                       else raise (NameError
                                     "Please only use our elementary function."))
                   g2 = Return env g2)
      as (env & env' & g' & Hloop & Henv).
    { assert (∃ env,
                 (if decide (size (reverse.packages funcs_lst
                                     ∖ reverse.exclude_pkg) = 0%nat)
                  then ret []
                  else if decide (size (reverse.packages funcs_lst
                                          ∖ reverse.exclude_pkg) = 1%nat)
                       then ret ((fun name => (name, VModule))
                                   <$> elements (reverse.packages funcs_lst
                                                   ∖ reverse.exclude_pkg))
                       else raise (NameError
                                     "Please only use our elementary function."))
                   g2 = Return env g2) as [env Henv].
      { destruct (decide (size (reverse.packages funcs_lst
                                  ∖ reverse.exclude_pkg) = 0%nat));
          [eexists; reflexivity |].
        destruct (decide (size (reverse.packages funcs_lst
                                  ∖ reverse.exclude_pkg) = 1%nat));
          [eexists; reflexivity | lia]. }
      destruct (output_rows eval params xs (zip input_nodes funcs_lst) bodies)
        with (jacob := @nil (list R)) (env := env) (g := g2)
        as (env' & g' & Hloop).
      { rewrite length_zip_with. lia. }
      { intros k [input_node function] body env0 g0 Hk Hbody.
        apply lookup_zip_with_Some in Hk as (a & b & Heq & Ha & Hf).
        injection Heq as -> ->. cbn [fst snd].
        apply (Heval k); try assumption.
        rewrite Forall_lookup in Hall.
        destruct (Hall k a Ha) as (Hl & _). rewrite Hl. exact Hlen. }
      { assumption. }
      { assumption. }
      { apply Forall_lookup. intros k [input_node function] Hk.
        apply lookup_zip_with_Some in Hk as (a & b & Heq & Ha & Hf).
        injection Heq as -> ->. cbn [fst].
        rewrite Forall_lookup in Hall. now apply (Hall k). }
      exists env, env', g'. split; [exact Hloop | exact Henv]. }
    exists g'. unfold reverse.reverse. fold xs.
    destruct (decide (length xs ≠ n_inputs ad)) as [Hn | _];
      [now destruct Hn |].
    unfold bind at 1. rewrite init_nodes_run. fold (with_inputs g xs).
    unfold bind at 1.
    change (funcs ad) with (lambda_list params bodies source).
    rewrite Hcall.
    unfold try_except.
    assert (reverse.reverse_outputs eval ad xs (seq (length g) (length xs))
              (VList (VNode <$> rs)) g1
            = Return (jacobian_array bodies xs) g') as ->; [| reflexivity].
    unfold reverse.reverse_outputs.
    unfold bind at 1. unfold len, ret at 1. rewrite length_fmap.
    unfold bind at 1. rewrite Hcopies.
    unfold bind at 1. rewrite Hsrc. unfold lift, ret at 1.
    rewrite Hlast. unfold bind at 1. unfold ret at 1.
    fold funcs_lst.
    unfold bind at 1. rewrite Henv.
    unfold bind at 1.
    change (co_varnames (funcs ad)) with params.
    rewrite Hloop. cbn [fst]. unfold jacobian_array.
    destruct (decide (length xs = 1%nat)) as [H1 | H1].
    + unfold ret. now rewrite concat_gradients.
    + unfold ret. destruct bodies; [now destruct Hne | reflexivity].
Qed.

(** X21.  For a function that returns a list of expressions of its
    parameters, none of them a number or a bare parameter, and an input
    given as a list, at a point where no divisor is zero, every power has a
    positive base or an exponent without parameters that is a whole number
    at least one, and every elementary function is applied inside its
    domain, and when the source of the function can be cut into the texts of
    these expressions that [eval] evaluates as Python does: the value
    operation of the reverse engine returns the vector of the values, and
    its derivative operation returns the jacobian by the rules of calculus
    (the result of the forward engine): for one input the vector of the
    derivatives, otherwise the matrix whose row [j] holds the partial
    derivatives of output [j] in the inputs. The copies of the input nodes
    keep the rows apart. *)
Theorem reverse_jacobian (eval : reverse.py_eval) (params : list string)
    (bodies : list expr) (source : exn + string) (xs : list R)
    (g : Graph) :
  let ad := autodiff.__init__ (lambda_list params bodies source) in
  length xs = length params → forward_edges g →
  (∀ body, body ∈ bodies →
           calculus.defined body xs ∧ closed body = false
           ∧ ∀ i, body ≠ EVar i) →
  pieces_evaluate eval ad bodies →
  (∃ g', reverse.get_value ad (InSeq xs) g
         = Return (Vector ((fun body => calculus.value body xs) <$> bodies))
                  g')
  ∧ ∃ g', reverse.reverse eval ad (InSeq xs) g
          = Return (jacobian_array bodies xs) g'.
Proof. exact (lambda_list_reverse eval params bodies source (InSeq xs) g). Qed.

Lemma reverse_jacobian_witness :
  let ad :=
    autodiff.__init__
      (lambda_list ["x"; "y"] product_and_sum
         (inr "lambda x, y: [x * y, x + y]")) in
  let eval :=
    eval_table ["x"; "y"]
      [("x * y", EBin OpMul (EVar 0) (EVar 1));
       ("x + y", EBin OpAdd (EVar 0) (EVar 1))] in
  (∃ g', reverse.get_value ad (InSeq [2; 3]) []
         = Return (Vector ((fun body => calculus.value body [2; 3])
                             <$> product_and_sum)) g')
  ∧ ∃ g', reverse.reverse eval ad (InSeq [2; 3]) []
          = Return (jacobian_array product_and_sum [2; 3]) g'.
Proof.
  intros ad eval.
  apply (reverse_jacobian eval ["x"; "y"] product_and_sum
           (inr "lambda x, y: [x * y, x + y]") [2; 3] []).
  - reflexivity.
  - exact forward_edges_nil.
  - intros body Hin.
    apply elem_of_cons in Hin as [-> | Hin];
      [| apply list_elem_of_singleton in Hin as ->].
    + split; [simpl; lia |]. split; [reflexivity | discriminate].
    + split; [simpl; lia |]. split; [reflexivity | discriminate].
  - exists "lambda x, y: [x * y, x + y]", (":", "x * y, x + y").
    split; [reflexivity |]. split; [reflexivity |].
    split; [reflexivity |]. split; [vm_compute; lia |].
    intros [| [| k]] function body env [| a [| b [| c input_node]]] g
      Hf Hbody Hlen; try discriminate.
    + injection Hf as <-. injection Hbody as <-. reflexivity.
    + injection Hf as <-. injection Hbody as <-. reflexivity.
Defined.

End reverse_engine_lists.

(** ** Inverse functions and identities on duals *)

Section functions_on_duals.
Local Open Scope R_scope.

Ltac run_functions :=
  cbv [bind ret raise
       elem_func.sin elem_func.cos elem_func.tan elem_func.exp
       elem_func.sqrt elem_func.log elem_func.logb elem_func.arcsin
       elem_func.arccos elem_func.arctan elem_func.sinh elem_func.cosh
       elem_func.tanh elem_func.logistic
       operator.add operator.sub operator.mul operator.truediv operator.pow
       operator.neg operator.binary operator.of_dual
       dual.__add__ dual.__radd__ dual.__sub__ dual.__rsub__ dual.__mul__
       dual.__rmul__ dual.__truediv__ dual.__rtruediv__ dual.__pow__
       dual.__rpow__ dual.__neg__ Dual.real Dual.dual];
  apply Return_dual_eq;
  unfold np.sin, np.cos, np.tan, np.exp, np.sqrt, np.log, np.arcsin,
    np.arccos, np.arctan, np.sinh, np.cosh, np.tanh;
  rewrite ?py_pow_2.

Lemma sqrt_nonzero (x : R) : 0 < x → sqrt x ≠ 0.
Proof. intros H. pose proof (sqrt_lt_R0 x H). lra. Qed.

Lemma one_minus_sqr_pos (x : R) : -1 < x < 1 → 0 < 1 - x².
Proof. intros H. unfold Rsqr. nra. Qed.

Lemma cos_atan_sqr (x : R) : (cos (atan x))² * (1 + x²) = 1.
Proof.
  rewrite cos_atan.
  assert (0 < 1 + x²) as Hpos by (pose proof (Rle_0_sqr x); lra).
  pose proof (sqrt_nonzero _ Hpos) as Hne.
  rewrite <- (sqrt_sqrt (1 + x²)) at 2 by lra.
  unfold Rsqr. field. exact Hne.
Qed.

Lemma cos_atan_nonzero (x : R) : cos (atan x) ≠ 0.
Proof.
  pose proof (atan_bound x) as [Hl Hu].
  pose proof (cos_gt_0 (atan x)) as H.
  assert (0 < cos (atan x)) by (apply H; lra). lra.
Qed.

(** X22.  On a dual, each elementary function
    undoes its inverse, in the value and in the derivative: [log] after
    [exp]; [exp] after [log] at a positive value; [sin] after [arcsin] and
    [cos] after [arccos] inside [(-1, 1)]; [tan] after [arctan]; and the
    square, as a product or as a power, of [sqrt] at a positive value. *)
Theorem elementary_inverse_pairs (a d : R) (g : Graph) :
  let z := VDual (Dual.mk a d) in
  (let* y := elem_func.exp z in elem_func.log y) g = Return z g
  ∧ (let* y := elem_func.arctan z in elem_func.tan y) g = Return z g
  ∧ (0 < a →
     (let* y := elem_func.log z in elem_func.exp y) g = Return z g
     ∧ (let* y := elem_func.sqrt z in operator.mul y y) g = Return z g
     ∧ (let* y := elem_func.sqrt z in operator.pow y (VNum 2)) g
       = Return z g)
  ∧ (-1 < a < 1 →
     (let* y := elem_func.arcsin z in elem_func.sin y) g = Return z g
     ∧ (let* y := elem_func.arccos z in elem_func.cos y) g = Return z g).
Proof.
  intros z. unfold z.
  split; [| split; [| split]].
  - run_functions; [apply ln_exp |].
    pose proof (exp_pos a). field. lra.
  - run_functions; [apply tan_atan |].
    pose proof (cos_atan_sqr a) as H. pose proof (cos_atan_nonzero a) as Hc.
    assert (1 + a² ≠ 0) as Hne by (pose proof (Rle_0_sqr a); lra).
    unfold Rsqr in *.
    replace (1 / (cos (atan a) * cos (atan a)) * (1 / (1 + a * a) * d))
      with (d / (cos (atan a) * cos (atan a) * (1 + a * a)))
      by (field; auto).
    rewrite H. field.
  - intros Ha. pose proof (sqrt_nonzero a Ha) as Hs.
    split; [| split].
    + run_functions; [now apply exp_ln |].
      rewrite exp_ln by assumption. field. lra.
    + run_functions; [apply sqrt_sqrt; lra |]. rewrite half_inv. now field.
    + run_functions; [unfold Rsqr; apply sqrt_sqrt; lra |].
      replace (2 - 1) with 1 by lra. rewrite py_pow_1, half_inv. now field.
  - intros Ha. pose proof (one_minus_sqr_pos a Ha) as Hpos.
    pose proof (sqrt_nonzero _ Hpos) as Hs.
    split.
    + run_functions; [apply sin_asin; lra |].
      rewrite cos_asin by lra. now field.
    + run_functions; [apply cos_acos; lra |].
      rewrite sin_acos by lra. now field.
Qed.

Lemma elementary_inverse_pairs_witness :
  let z := VDual (Dual.mk (1 / 2) 3) in
  ((let* y := elem_func.log z in elem_func.exp y) [] = Return z []
   ∧ (let* y := elem_func.sqrt z in operator.mul y y) [] = Return z []
   ∧ (let* y := elem_func.sqrt z in operator.pow y (VNum 2)) []
     = Return z [])
  ∧ (let* y := elem_func.arcsin z in elem_func.sin y) [] = Return z []
  ∧ (let* y := elem_func.arccos z in elem_func.cos y) [] = Return z [].
Proof.
  intros z.
  destruct (elementary_inverse_pairs (1 / 2) 3 []) as (_ & _ & Hpos & Hin).
  split; [apply Hpos; lra | apply Hin; lra].
Defined.

(** X23.  On a dual, the elementary functions
    satisfy, in the value and in the derivative, the identities between
    them: [sin(z)**2 + cos(z)**2] is [Dual(1, 0)]; [tan(z)] is
    [sin(z) / cos(z)] where the cosine is not zero; [tanh(z)] is
    [sinh(z) / cosh(z)]; [logistic(z)] is [1 / (1 + exp(-z))]; at a
    positive value, [sqrt(z)] is [z ** 0.5] and [logb(z, b)] is
    [log(z) / log(b)] for a base [b] that is positive and not one. *)
Theorem elementary_identities (a d : R) (g : Graph) :
  let z := VDual (Dual.mk a d) in
  (let* s := elem_func.sin z in
   let* c := elem_func.cos z in
   let* s2 := operator.pow s (VNum 2) in
   let* c2 := operator.pow c (VNum 2) in
   operator.add s2 c2) g = Return (VDual (Dual.mk 1 0)) g
  ∧ (let* s := elem_func.sinh z in
     let* c := elem_func.cosh z in
     operator.truediv s c) g = elem_func.tanh z g
  ∧ (let* n := operator.neg z in
     let* e := elem_func.exp n in
     let* s := operator.add (VNum 1) e in
     operator.truediv (VNum 1) s) g = elem_func.logistic z g
  ∧ (np.cos a ≠ 0 →
     (let* s := elem_func.sin z in
      let* c := elem_func.cos z in
      operator.truediv s c) g = elem_func.tan z g)
  ∧ (0 < a →
     operator.pow z (VNum 0.5) g = elem_func.sqrt z g
     ∧ ∀ b, 0 < b → b ≠ 1 →
         (let* l := elem_func.log z in
          operator.truediv l (VNum (np.log b))) g = elem_func.logb z b g).
Proof.
  intros z. unfold z.
  split; [| split; [| split; [| split]]].
  - run_functions; [unfold Rsqr; apply sin2_cos2 |].
    replace (2 - 1) with 1 by lra. rewrite !py_pow_1. ring.
  - run_functions; [reflexivity |].
    pose proof (cosh_pos a) as Hc. pose proof (cosh2_sinh2 a) as H.
    unfold tanh, Rsqr.
    replace ((cosh a * d * cosh a - sinh a * (sinh a * d))
             / (cosh a * cosh a))
      with (d * ((cosh a * cosh a - sinh a * sinh a) / (cosh a * cosh a)))
      by (field; lra).
    replace (1 - sinh a / cosh a * (sinh a / cosh a))
      with ((cosh a * cosh a - sinh a * sinh a) / (cosh a * cosh a))
      by (field; lra).
    rewrite H. field. lra.
  - run_functions; [f_equal; ring |].
    pose proof (exp_pos (- a)) as He. unfold Rsqr. field. lra.
  - intros Hc. unfold np.cos in Hc.
    run_functions; [reflexivity |].
    pose proof (sin2_cos2 a) as H. unfold Rsqr in *.
    replace ((d * cos a * cos a - sin a * (- sin a * d)) / (cos a * cos a))
      with (d * ((sin a * sin a + cos a * cos a) / (cos a * cos a)))
      by (field; assumption).
    rewrite H. field. assumption.
  - intros Ha. pose proof (sqrt_nonzero a Ha) as Hs. split.
    + run_functions.
      * rewrite py_pow_Rpower by assumption.
        replace 0.5 with (/ 2) by lra. now apply Rpower_sqrt.
      * replace (0.5 - 1) with (-0.5) by lra.
        rewrite py_pow_minus_half by assumption. field. assumption.
    + intros b Hb Hb1.
      assert (ln b ≠ 0) as Hl.
      { intros H0. apply Hb1. rewrite <- (exp_ln b), H0 by assumption.
        apply exp_0. }
      run_functions; unfold Rsqr; field; [assumption | split; [assumption | lra]].
Qed.

Lemma elementary_identities_witness :
  let z := VDual (Dual.mk 1 1) in
  ((let* s := elem_func.sin z in
    let* c := elem_func.cos z in
    operator.truediv s c) [] = elem_func.tan z [])
  ∧ operator.pow z (VNum 0.5) [] = elem_func.sqrt z []
  ∧ (let* l := elem_func.log z in
     operator.truediv l (VNum (np.log 2))) [] = elem_func.logb z 2 [].
Proof.
  intros z.
  destruct (elementary_identities 1 1 []) as (_ & _ & _ & Htan & Hpos).
  destruct Hpos as [Hsqrt Hlogb]; [lra |].
  split; [| split; [exact Hsqrt | apply Hlogb; lra]].
  apply Htan. unfold np.cos.
  pose proof PI2_1. pose proof (cos_gt_0 1). lra.
Defined.

End functions_on_duals.
